(** * ya_glm / yaglm: penalty path-top bounds, constraint projections and
      the cvxpy solver backend

    A shallow embedding of

    - [src/ya_glm/glm_pen_max_lasso.py]   (gradient at zero, [lasso_max] and
      the other largest-penalty bounds),
    - [src/yaglm/opt/constraint/convex.py] ([project_simplex],
      [project_l1_ball] and the constraint proxes),
    - [src/yaglm/solver/Cvxpy.py]          ([_is_applicable], [setup],
      [solve]),
    - [src/ya_glm/add_init_params.py]      (the parameter list of the
      merged [__init__] signature),
    - [src/ya_glm/loss/LossMixin.py]       ([predict] and [score]),

    followed by the properties established about them.  The Euclidean norm
    of [L2Ball] and the pseudo-inverse of [LinearEquality] are parameters.
    [Isotonic], whose prox is a call into sklearn, [Cvxpy.update_penalty],
    and the parts of [LossMixin] that only hand their arguments to sklearn
    or scipy are left out.

    Numbers.  There are two models.  In [PenMax], [Convex],
    [LinearEquality], [Cvxpy] and [LossMixin] a finite float is an exact
    rational ([Q]): rounding, overflow and the infinities are outside that
    model, a design has at least one row, and what is proved there either
    does not depend on rounding (which branch is taken, which exception is
    raised, which entries are selected and compared, what an operation is
    applied to) or is said to hold in exact arithmetic.  [Binary64],
    [Convex64] and [PenMax64] model [project_simplex] and the weighted part
    of [lasso_max] over the binary64 numbers, with their rounding, their
    infinities and not-a-number.  In the rational model not-a-number is
    kept where the code tests for it, in the entries of a weights array
    ([fl]), and Python's [None] is the [None] of [option].  Python
    exceptions are values of [exn]; a function that can raise returns a
    [result]. *)

From Stdlib Require Import String QArith Qabs Qminmax Bool List Lia Lqa.
From Stdlib Require Import Arith ZArith Permutation Sorted.
From Stdlib Require PrimFloat FloatOps FloatAxioms SpecFloat.
Import ListNotations.
Open Scope Q_scope.

(* ================================================================== *)
(** * Part I: definitions                                              *)
(* ================================================================== *)

(** ** Exceptions and results *)

Inductive exn : Type :=
| NotImplementedError (msg : string)
| ValueError
| IndexError
| TypeError
| AssertionError
| AttributeError
| AxisError
| ModuleNotFoundError.

Inductive result (A : Type) : Type :=
| Ok (a : A)
| Raise (e : exn).

Arguments Ok {A} a.
Arguments Raise {A} e.

Definition bind {A B : Type} (r : result A) (k : A -> result B) : result B :=
  match r with
  | Ok a => k a
  | Raise e => Raise e
  end.

Notation "x <- c1 ;; c2" := (bind c1 (fun x => c2))
  (at level 61, c1 at next level, right associativity).

Fixpoint mapM {A B : Type} (f : A -> result B) (l : list A) : result (list B) :=
  match l with
  | [] => Ok []
  | x :: t => y <- f x ;; ys <- mapM f t ;; Ok (y :: ys)
  end.

Definition is_ok {A : Type} (r : result A) : bool :=
  match r with Ok _ => true | Raise _ => false end.

(** The computation does not end in a [NotImplementedError]. *)
Definition not_unsupported {A : Type} (r : result A) : Prop :=
  forall msg, r <> Raise (NotImplementedError msg).

(** ** The fragment of numpy the sources use *)

Module Np.

(** A float that may be not-a-number. *)
Inductive fl : Type :=
| NaN
| Num (q : Q).

(** A two-dimensional array: its second extent and its rows. *)
Record matrix (A : Type) : Type := Mat { mcols : nat; mrows : list (list A) }.

Arguments Mat {A} mcols mrows.
Arguments mcols {A} m.
Arguments mrows {A} m.

(** A one- or two-dimensional array. *)
Inductive ndarray (A : Type) : Type :=
| Arr1 (l : list A)
| Arr2 (M : matrix A).

Arguments Arr1 {A} l.
Arguments Arr2 {A} M.

Definition Qltb (x y : Q) : bool := negb (Qle_bool y x).

Definition Qsum (l : list Q) : Q := fold_right Qplus 0 l.

Definition Qnat (n : nat) : Q := inject_Z (Z.of_nat n).

(** [X.shape[0]] *)
Definition shape0 {A : Type} (M : matrix A) : nat := length (mrows M).

(** [a.reshape(-1)]: the entries in row-major order. *)
Definition flat {A : Type} (a : ndarray A) : list A :=
  match a with
  | Arr1 l => l
  | Arr2 M => concat (mrows M)
  end.

Definition nd_map {A B : Type} (f : A -> B) (a : ndarray A) : ndarray B :=
  match a with
  | Arr1 l => Arr1 (map f l)
  | Arr2 M => Arr2 (Mat (mcols M) (map (map f) (mrows M)))
  end.

(** [M[:, j]] *)
Definition col {A : Type} (d : A) (j : nat) (M : matrix A) : list A :=
  map (fun r => nth j r d) (mrows M).

(** [np.mean(a)]: the mean of all the entries, in exact arithmetic and for
    an array that has entries. *)
Definition np_mean (a : ndarray Q) : Q :=
  Qsum (flat a) / Qnat (length (flat a)).

(** [M.mean(axis=0)]: the mean of every column, in exact arithmetic and
    for a matrix that has rows. *)
Definition mean_axis0 (M : matrix Q) : list Q :=
  map (fun j => Qsum (col 0 j M) / Qnat (shape0 M)) (seq 0 (mcols M)).

Definition dot (u v : list Q) : Q :=
  Qsum (map (fun p => fst p * snd p) (combine u v)).

(** [X.T @ y]: [y] must have as many entries (or rows) as [X] has rows. *)
Definition XT_matmul (X : matrix Q) (y : ndarray Q) : result (ndarray Q) :=
  match y with
  | Arr1 v =>
      if (length v =? shape0 X)%nat
      then Ok (Arr1 (map (fun j => dot (col 0 j X) v) (seq 0 (mcols X))))
      else Raise ValueError
  | Arr2 Y =>
      if (shape0 Y =? shape0 X)%nat
      then Ok (Arr2 (Mat (mcols Y)
                 (map (fun j => map (fun c => dot (col 0 j X) (col 0 c Y))
                                    (seq 0 (mcols Y)))
                      (seq 0 (mcols X)))))
      else Raise ValueError
  end.

(** Broadcasting of two extents. *)
Definition bc_dim (a b : nat) : option nat :=
  if (a =? b)%nat then Some a
  else if (a =? 1)%nat then Some b
  else if (b =? 1)%nat then Some a
  else None.

(** The [i]-th item of [l], or its only item when [l] is stretched. *)
Definition pick {A : Type} (d : A) (l : list A) (i : nat) : A :=
  nth (if (length l =? 1)%nat then 0%nat else i) l d.

Definition as_matrix {A : Type} (a : ndarray A) : matrix A :=
  match a with
  | Arr1 l => Mat (length l) [l]
  | Arr2 M => M
  end.

(** An elementwise binary operation under numpy's broadcasting rules. *)
Definition np_broadcast {A B C : Type} (dA : A) (dB : B) (f : A -> B -> C)
    (a : ndarray A) (b : ndarray B) : result (ndarray C) :=
  let Ma := as_matrix a in
  let Mb := as_matrix b in
  match bc_dim (shape0 Ma) (shape0 Mb), bc_dim (mcols Ma) (mcols Mb) with
  | Some r, Some m =>
      let rows :=
        map (fun i =>
               map (fun j => f (pick dA (pick [] (mrows Ma) i) j)
                               (pick dB (pick [] (mrows Mb) i) j))
                   (seq 0 m))
            (seq 0 r) in
      Ok (match a, b with
          | Arr1 _, Arr1 _ => Arr1 (concat rows)
          | _, _ => Arr2 (Mat m rows)
          end)
  | _, _ => Raise ValueError
  end.

Definition np_sub : ndarray Q -> ndarray Q -> result (ndarray Q) :=
  np_broadcast 0 0 Qminus.

(** The first exception met in row-major order, or all the values. *)
Definition nd_sequence {A : Type} (a : ndarray (result A)) : result (ndarray A) :=
  match a with
  | Arr1 l => l' <- mapM (fun x => x) l ;; Ok (Arr1 l')
  | Arr2 M =>
      rows <- mapM (mapM (fun x => x)) (mrows M) ;; Ok (Arr2 (Mat (mcols M) rows))
  end.

(** Selection by a list of booleans of the same length. *)
Fixpoint select {A : Type} (l : list A) (m : list bool) : list A :=
  match l, m with
  | x :: l', b :: m' => if b then x :: select l' m' else select l' m'
  | _, _ => []
  end.

Definition same_shape {A B : Type} (M : matrix A) (N : matrix B) : bool :=
  ((shape0 M =? shape0 N) && (mcols M =? mcols N))%nat.

(** [a[mask]] for a boolean [mask]: the mask must have the shape of [a], or
    of its first axis. *)
Definition np_getmask {A : Type} (a : ndarray A) (mask : ndarray bool)
  : result (ndarray A) :=
  match a, mask with
  | Arr1 l, Arr1 m =>
      if (length l =? length m)%nat then Ok (Arr1 (select l m))
      else Raise IndexError
  | Arr2 M, Arr2 N =>
      if same_shape M N then Ok (Arr1 (select (concat (mrows M)) (concat (mrows N))))
      else Raise IndexError
  | Arr2 M, Arr1 m =>
      if (shape0 M =? length m)%nat then Ok (Arr2 (Mat (mcols M) (select (mrows M) m)))
      else Raise IndexError
  | Arr1 _, Arr2 _ => Raise IndexError
  end.

(** [a[:, c]] *)
Definition np_col {A : Type} (d : A) (a : ndarray A) (c : nat) : result (list A) :=
  match a with
  | Arr1 _ => Raise IndexError
  | Arr2 M => if (c <? mcols M)%nat then Ok (col d c M) else Raise IndexError
  end.

Definition fl_abs (x : fl) : fl :=
  match x with
  | NaN => NaN
  | Num q => Num (Qabs q)
  end.

(** The larger of two floats for [ndarray.max]: not-a-number propagates. *)
Definition fl_max (x y : fl) : fl :=
  match x, y with
  | Num a, Num b => Num (Qmax a b)
  | _, _ => NaN
  end.

Definition fl_min (x y : fl) : fl :=
  match x, y with
  | Num a, Num b => Num (Qmin a b)
  | _, _ => NaN
  end.

(** [x > y] on floats: false as soon as one side is not-a-number. *)
Definition fl_gt (x y : fl) : bool :=
  match x, y with
  | Num a, Num b => Qltb b a
  | _, _ => false
  end.

(** [a.max()]: a zero-size array has no maximum. *)
Definition np_max (a : ndarray fl) : result fl :=
  match flat a with
  | [] => Raise ValueError
  | x :: t => Ok (fold_left fl_max t x)
  end.

(** [a.min()] *)
Definition np_min (a : ndarray fl) : result fl :=
  match flat a with
  | [] => Raise ValueError
  | x :: t => Ok (fold_left fl_min t x)
  end.

(** Python's builtin [max] over a sequence: the first item is kept until a
    strictly greater one is met. *)
Definition py_max (l : list fl) : result fl :=
  match l with
  | [] => Raise ValueError
  | x :: t => Ok (fold_left (fun cur y => if fl_gt y cur then y else cur) t x)
  end.

(** [np.vstack(arrays)]: the rows of all the arrays, which must agree in
    length; at least one array is needed. *)
Definition np_vstack (arrays : list (ndarray Q)) : result (matrix Q) :=
  match arrays with
  | [] => Raise ValueError
  | a0 :: _ =>
      let m := mcols (as_matrix a0) in
      let rows := concat (map (fun a => mrows (as_matrix a)) arrays) in
      if forallb (fun r => (length r =? m)%nat) rows
      then Ok (Mat m rows)
      else Raise ValueError
  end.

(** [len(a)]: the extent of the first axis. *)
Definition np_len {A : Type} (a : ndarray A) : nat :=
  match a with
  | Arr1 l => length l
  | Arr2 M => shape0 M
  end.

(** [M.T] *)
Definition transpose (M : matrix Q) : matrix Q :=
  Mat (shape0 M) (map (fun j => col 0 j M) (seq 0 (mcols M))).

(** [a.shape] *)
Definition np_shape {A : Type} (a : ndarray A) : list nat :=
  match a with
  | Arr1 l => [length l]
  | Arr2 M => [shape0 M; mcols M]
  end.

(** Every row of a two-dimensional array has the array's second extent,
    as numpy guarantees of the arrays it builds. *)
Definition rectangular {A : Type} (a : ndarray A) : Prop :=
  match a with
  | Arr1 _ => True
  | Arr2 M => Forall (fun r => length r = mcols M) (mrows M)
  end.

(** [M @ x] for a two-dimensional [M]: [x] must have as many entries (or
    rows) as [M] has columns. *)
Definition np_matmul (M : matrix Q) (x : ndarray Q) : result (ndarray Q) :=
  match x with
  | Arr1 v =>
      if (length v =? mcols M)%nat
      then Ok (Arr1 (map (fun r => dot r v) (mrows M)))
      else Raise ValueError
  | Arr2 N =>
      if (shape0 N =? mcols M)%nat
      then Ok (Arr2 (Mat (mcols N)
                 (map (fun r => map (fun c => dot r (col 0 c N)) (seq 0 (mcols N)))
                      (mrows M))))
      else Raise ValueError
  end.

End Np.

Import Np.

(** ** [ya_glm/glm_pen_max_lasso.py] *)

Module PenMax.

(** An entry of a weights array: [None], not-a-number or a number. *)
Abbreviation weight := (option fl) (only parsing).

(** Keyword arguments [loss_kws]: the items of the dict. *)
Definition kwargs : Type := list (string * Q).

(** What the file imports from modules that are not part of the sources at
    hand: [ya_glm.utils], [ya_glm.linalg_utils], [ya_glm.processing],
    [ya_glm.opt.huber_regression], [ya_glm.opt.quantile_regression],
    [ya_glm.info]; and two numpy routines that are kept abstract, the
    quantile and the Euclidean norm. *)
Class Externals : Type := {
  is_multi_response : ndarray Q -> bool;
  leading_sval : ndarray Q -> Q;
  process_weights_group_lasso :
    list (list nat) -> option (ndarray weight) -> option (ndarray weight);
  huber_grad : ndarray Q -> Q -> ndarray Q;
  tilted_L1_grad : ndarray Q -> Q -> ndarray Q;
  _MULTI_RESP_LOSSES : list string;
  np_quantile : ndarray Q -> Q -> Q;
  np_linalg_norm : list Q -> Q
}.

(** [np.finfo(float).eps], two to the power -52. *)
Definition eps : Q := 1 # 4503599627370496.

(** A call [f(..., **loss_kws)] of a function with no further parameter. *)
Definition call_kw0 {A : Type} (kws : kwargs) (f : result A) : result A :=
  match kws with
  | [] => f
  | _ :: _ => Raise TypeError
  end.

(** A call [f(..., **loss_kws)] of a function with the one further,
    required, parameter [name]. *)
Definition call_kw1 {A : Type} (name : string) (kws : kwargs)
    (f : Q -> result A) : result A :=
  match kws with
  | [(k, v)] => if String.eqb k name then f v else Raise TypeError
  | _ => Raise TypeError
  end.

Section WithExternals.

Context {ext : Externals}.

(** [grad / X.shape[0]], in exact arithmetic and for a design that has
    rows. *)
Definition scale_by_rows (X : matrix Q) (g : ndarray Q) : ndarray Q :=
  nd_map (fun v => v / Qnat (shape0 X)) g.

Definition g0_lin_reg (X : matrix Q) (y : ndarray Q) (fit_intercept : bool)
  : result (ndarray Q) :=
  grad <- (if fit_intercept
           then XT_matmul X (nd_map (fun v => v - np_mean y) y)
           else XT_matmul X y) ;;
  Ok (scale_by_rows X grad).

(** [y - y.mean(axis=0)] *)
Definition center_axis0 (y : ndarray Q) : ndarray Q :=
  match y with
  | Arr1 l => Arr1 (map (fun v => v - np_mean y) l)
  | Arr2 M =>
      Arr2 (Mat (mcols M)
              (map (fun r => map (fun j => nth j r 0 - nth j (mean_axis0 M) 0)
                                 (seq 0 (mcols M)))
                   (mrows M)))
  end.

Definition g0_lin_reg_mr (X : matrix Q) (y : ndarray Q) (fit_intercept : bool)
  : result (ndarray Q) :=
  grad <- (if fit_intercept
           then XT_matmul X (center_axis0 y)
           else XT_matmul X y) ;;
  Ok (scale_by_rows X grad).

Definition g0_huber_reg (X : matrix Q) (y : ndarray Q) (fit_intercept : bool)
    (knot : Q) : result (ndarray Q) :=
  let grad := if fit_intercept
              then huber_grad (nd_map (fun v => v - np_mean y) y) knot
              else huber_grad y knot in
  Ok (scale_by_rows X grad).

Definition g0_huber_reg_mr (X : matrix Q) (y : ndarray Q) (fit_intercept : bool)
    (knot : Q) : result (ndarray Q) :=
  let grad := if fit_intercept
              then huber_grad (center_axis0 y) knot
              else huber_grad y knot in
  Ok (scale_by_rows X grad).

Definition g0_log_reg (X : matrix Q) (y : ndarray Q) (fit_intercept : bool)
  : result (ndarray Q) :=
  grad <- (if fit_intercept
           then XT_matmul X (nd_map (fun v => np_mean y - v) y)
           else XT_matmul X (nd_map (fun v => (1 # 2) - v) y)) ;;
  Ok (scale_by_rows X grad).

Definition g0_multinomial (X : matrix Q) (y : ndarray Q) (fit_intercept : bool)
  : result (ndarray Q) :=
  cls_prob_vec <-
    (if fit_intercept
     then Ok (match y with
              | Arr1 _ => [np_mean y]
              | Arr2 M => mean_axis0 M
              end)
     else match y with
          | Arr1 _ => Raise IndexError
          | Arr2 M => Ok (map (fun _ => 1 / Qnat (mcols M)) (seq 0 (mcols M)))
          end) ;;
  let probs := Arr2 (Mat (length cls_prob_vec) (repeat cls_prob_vec (shape0 X))) in
  diff <- np_sub probs y ;;
  grad <- XT_matmul X diff ;;
  Ok (scale_by_rows X grad).

Definition g0_poisson (X : matrix Q) (y : ndarray Q) (fit_intercept : bool)
  : result (ndarray Q) :=
  diff <- (if fit_intercept
           then Ok (nd_map (fun v => np_mean y - v) y)
           else np_sub (Arr1 (repeat 1 (np_len y))) y) ;;
  grad <- XT_matmul X diff ;;
  Ok (scale_by_rows X grad).

Definition g0_quantile (X : matrix Q) (y : ndarray Q) (fit_intercept : bool)
    (quantile : Q) : result (ndarray Q) :=
  let pred := if fit_intercept then np_quantile y quantile else 0 in
  let XTs := Mat (mcols X)
               (map (map (fun v => (1 / Qnat (shape0 X)) * v)) (mrows X)) in
  XT_matmul XTs (tilted_L1_grad (nd_map (fun v => v - pred) y) quantile).

(** Turns a getter of the gradient at zero for one response into one for
    several responses. *)
Definition get_g0_multi_response
    (g0_getter : matrix Q -> ndarray Q -> bool -> kwargs -> result (ndarray Q))
    (X : matrix Q) (y : ndarray Q) (fit_intercept : bool) (loss_kws : kwargs)
  : result (ndarray Q) :=
  match y with
  | Arr1 _ => Raise IndexError
  | Arr2 Y =>
      gs <- mapM (fun j => g0_getter X (Arr1 (col 0 j Y)) fit_intercept loss_kws)
                 (seq 0 (mcols Y)) ;;
      stacked <- np_vstack gs ;;
      Ok (Arr2 (transpose stacked))
  end.

(** [g0_poisson_mr]: it passes [g0_getter], [X], [y] and [fit_intercept]
    by keyword next to [**loss_kws], so a key of one of these names is a
    [TypeError] of the call. *)
Definition g0_poisson_mr (X : matrix Q) (y : ndarray Q) (fit_intercept : bool)
    (loss_kws : kwargs) : result (ndarray Q) :=
  if existsb (fun kv => existsb (String.eqb (fst kv))
                          ["g0_getter"; "X"; "y"; "fit_intercept"]%string)
             loss_kws
  then Raise TypeError
  else
    get_g0_multi_response
      (fun X' y' fi kws => call_kw0 kws (g0_poisson X' y' fi))
      X y fit_intercept loss_kws.

Definition grad_at_zero (X : matrix Q) (y : ndarray Q) (fit_intercept : bool)
    (loss_func : string) (loss_kws : kwargs) : result (ndarray Q) :=
  if String.eqb loss_func "lin_reg" then
    g0_lin_reg X y fit_intercept
  else if String.eqb loss_func "lin_reg_mr" then
    g0_lin_reg_mr X y fit_intercept
  else if String.eqb loss_func "huber_reg" then
    call_kw1 "knot" loss_kws (g0_huber_reg X y fit_intercept)
  else if String.eqb loss_func "huber_reg_mr" then
    call_kw1 "knot" loss_kws (g0_huber_reg_mr X y fit_intercept)
  else if String.eqb loss_func "log_reg" then
    g0_log_reg X y fit_intercept
  else if String.eqb loss_func "multinomial" then
    g0_multinomial X y fit_intercept
  else if String.eqb loss_func "poisson" then
    call_kw0 loss_kws (g0_poisson X y fit_intercept)
  else if String.eqb loss_func "g0_poisson_mr" then
    call_kw0 loss_kws (g0_poisson X y fit_intercept)
  else if String.eqb loss_func "quantile" then
    call_kw1 "quantile" loss_kws (g0_quantile X y fit_intercept)
  else
    Raise (NotImplementedError (loss_func ++ " not supported")).

(** Whether or not an entry of a weights vector is non-zero. *)
Definition is_nonzero_weight (w : weight) : bool :=
  match w with
  | None => false
  | Some NaN => false
  | Some (Num q) => Qltb eps (Qabs q)
  end.

(** The entries of a weights array that are penalized. *)
Definition get_is_pen_mask (weights : ndarray weight) : ndarray bool :=
  nd_map is_nonzero_weight weights.

(** [c * v] for a scalar [c] and a float [v]. *)
Definition scale_fl (c : Q) (v : fl) : fl :=
  match v with
  | NaN => NaN
  | Num q => Num (c * q)
  end.

(** [c * w] for an entry of a weights array: [None] cannot be multiplied. *)
Definition scale_weight (c : Q) (w : weight) : result weight :=
  match w with
  | None => Raise TypeError
  | Some v => Ok (Some (scale_fl c v))
  end.

(** [c * weights] for a scalar [c], as a caller rescaling the weights
    computes it. *)
Definition scale_weights (c : Q) (weights : ndarray weight)
  : result (ndarray weight) :=
  nd_sequence (nd_map (scale_weight c) weights).



(** No entry of the weights array is penalized. *)
Definition no_penalized (weights : ndarray weight) : Prop :=
  Forall (fun w => is_nonzero_weight w = false) (flat weights).

(** [g / w] for a weights entry [w]. *)
Definition div_weight (g : Q) (w : weight) : result fl :=
  match w with
  | None => Raise TypeError
  | Some NaN => Ok NaN
  | Some (Num q) => Ok (Num (g / q))
  end.

(** [values[penalized_mask] / weights[penalized_mask]] *)
Definition div_penalized (values : ndarray Q) (weights : ndarray weight)
  : result (ndarray fl) :=
  let penalized_mask := get_is_pen_mask weights in
  v <- np_getmask values penalized_mask ;;
  w <- np_getmask weights penalized_mask ;;
  q <- np_broadcast 0 None div_weight v w ;;
  nd_sequence q.

(** What [div_penalized] holds at a penalized pair of a value and its
    weight. *)
Definition quot (x : Q * weight) : Q :=
  match snd x with
  | Some (Num q) => fst x / q
  | _ => 0
  end.

(** Lines 32-41 of [lasso_max]: the bound for one response. *)
Definition lasso_max_tail (X : matrix Q) (y : ndarray Q) (fit_intercept : bool)
    (loss_func : string) (loss_kws : kwargs) (weights : option (ndarray weight))
  : result fl :=
  grad <- grad_at_zero X y fit_intercept loss_func loss_kws ;;
  grad' <- match weights with
           | Some w => div_penalized grad w
           | None => Ok (nd_map Num grad)
           end ;;
  np_max (nd_map fl_abs grad').

(** The body of [lasso_max], its recursive call being [self]. *)
Definition lasso_max_body
    (self : matrix Q -> ndarray Q -> bool -> string -> kwargs ->
            option (ndarray weight) -> result fl)
    (X : matrix Q) (y : ndarray Q) (fit_intercept : bool)
    (loss_func : string) (loss_kws : kwargs) (weights : option (ndarray weight))
  : result fl :=
  if is_multi_response y then
    match y with
    | Arr1 _ => Raise IndexError
    | Arr2 Y =>
        resp_maxes <-
          mapM (fun c =>
                  w <- match weights with
                       | Some ws => wc <- np_col None ws c ;; Ok (Some (Arr1 wc))
                       | None => Ok None
                       end ;;
                  self X (Arr1 (col 0 c Y)) fit_intercept loss_func loss_kws w)
               (seq 0 (mcols Y)) ;;
        py_max resp_maxes
    end
  else lasso_max_tail X y fit_intercept loss_func loss_kws weights.

(** [lasso_max]: a column [y[:, c]] has one axis, and on such a response the
    body makes no recursive call, so two unfoldings of the body are the
    whole recursion ([lasso_max_unfold] below). *)
Definition lasso_max : matrix Q -> ndarray Q -> bool -> string -> kwargs ->
                       option (ndarray weight) -> result fl :=
  lasso_max_body (lasso_max_body (fun _ _ _ _ _ _ => Raise IndexError)).


Definition assert_multi_resp (loss_func : string) : result unit :=
  if existsb (String.eqb loss_func) _MULTI_RESP_LOSSES
  then Ok tt else Raise AssertionError.

(** [np.linalg.norm(grad, axis=1)] *)
Definition row_norms_of (grad : ndarray Q) : result (ndarray Q) :=
  match grad with
  | Arr1 _ => Raise AxisError
  | Arr2 M => Ok (Arr1 (map np_linalg_norm (mrows M)))
  end.

Definition get_L1toL2_max (X : matrix Q) (y : ndarray Q) (fit_intercept : bool)
    (loss_func : string) (loss_kws : kwargs) (weights : option (ndarray weight))
  : result fl :=
  _ <- assert_multi_resp loss_func ;;
  grad <- grad_at_zero X y fit_intercept loss_func loss_kws ;;
  row_norms <- row_norms_of grad ;;
  row_norms' <- match weights with
                | Some w => div_penalized row_norms w
                | None => Ok (nd_map Num row_norms)
                end ;;
  py_max (flat row_norms').

(** [grad[grp_idxs]] for a list of indices, flattened. *)
Definition take_group (grad : ndarray Q) (grp_idxs : list nat) : result (list Q) :=
  match grad with
  | Arr1 l =>
      mapM (fun i => match nth_error l i with
                     | Some v => Ok v
                     | None => Raise IndexError
                     end) grp_idxs
  | Arr2 M =>
      rows <- mapM (fun i => match nth_error (mrows M) i with
                             | Some r => Ok r
                             | None => Raise IndexError
                             end) grp_idxs ;;
      Ok (concat rows)
  end.

Definition group_lasso_max (X : matrix Q) (y : ndarray Q) (groups : list (list nat))
    (fit_intercept : bool) (loss_func : string) (loss_kws : kwargs)
    (weights : option (ndarray weight)) : result fl :=
  grad <- grad_at_zero X y fit_intercept loss_func loss_kws ;;
  group_norms <- mapM (fun grp_idxs => g <- take_group grad grp_idxs ;;
                                       Ok (np_linalg_norm g)) groups ;;
  let weights' := process_weights_group_lasso groups weights in
  group_norms' <- match weights' with
                  | Some w => div_penalized (Arr1 group_norms) w
                  | None => Ok (Arr1 (map Num group_norms))
                  end ;;
  np_max group_norms'.

(** The entries of a weights array as floats; [None] does not compare. *)
Definition weight_values (w : ndarray weight) : result (ndarray fl) :=
  nd_sequence (nd_map (fun x : weight => match x with
                                         | Some v => Ok v
                                         | None => Raise TypeError
                                         end) w).

Definition nuclear_norm_max (X : matrix Q) (y : ndarray Q) (fit_intercept : bool)
    (loss_func : string) (loss_kws : kwargs) (weights : option (ndarray weight))
  : result fl :=
  _ <- assert_multi_resp loss_func ;;
  grad <- grad_at_zero X y fit_intercept loss_func loss_kws ;;
  let sval_max := leading_sval grad in
  match weights with
  | None => Ok (Num sval_max)
  | Some w =>
      let penalized_mask := get_is_pen_mask w in
      sel <- np_getmask w penalized_mask ;;
      vals <- weight_values sel ;;
      smallest_weight <- np_min vals ;;
      div_weight sval_max (Some smallest_weight)
  end.

End WithExternals.

(** The loss names that the branches of [grad_at_zero] test. *)
Definition dispatched_names : list string :=
  ["lin_reg"; "lin_reg_mr"; "huber_reg"; "huber_reg_mr"; "log_reg";
   "multinomial"; "poisson"; "g0_poisson_mr"; "quantile"]%string.

End PenMax.

(** ** [yaglm/opt/constraint/convex.py] *)

Module Convex.

(** The projections in exact arithmetic: what the code computes where no
    operation rounds.  [Convex64] below has [project_simplex] in binary64.

    [np.sort(v)]: ascending order, by insertion. *)
Fixpoint insert_sorted (x : Q) (l : list Q) : list Q :=
  match l with
  | [] => [x]
  | y :: t => if Qle_bool x y then x :: y :: t else y :: insert_sorted x t
  end.

Definition np_sort (v : list Q) : list Q := fold_right insert_sorted [] v.

Fixpoint cumsum_from (acc : Q) (l : list Q) : list Q :=
  match l with
  | [] => []
  | x :: t => (acc + x) :: cumsum_from (acc + x) t
  end.

(** [np.cumsum(u)] *)
Definition np_cumsum (u : list Q) : list Q := cumsum_from 0 u.

(** [a[-1]] *)
Definition last_item {A : Type} (a : list A) : result A :=
  match rev a with
  | [] => Raise IndexError
  | x :: _ => Ok x
  end.

(** [np.sign] *)
Definition np_sign (x : Q) : Q :=
  match Qcompare x 0 with
  | Lt => - (1)
  | Eq => 0
  | Gt => 1
  end.

(** [u - cssv / ind > 0], entry by entry. *)
Definition simplex_cond (u cssv ind : list Q) : list bool :=
  map (fun t => match t with (uk, ck, ik) => Qltb 0 (uk - ck / ik) end)
      (combine (combine u cssv) ind).

Definition project_simplex (v : list Q) (z : Q) : result (list Q) :=
  let n_features := length v in
  let u := rev (np_sort v) in
  let cssv := map (fun s => s - z) (np_cumsum u) in
  let ind := map (fun i => Qnat i + 1) (seq 0 n_features) in
  let cond := simplex_cond u cssv ind in
  rho <- last_item (select ind cond) ;;
  c <- last_item (select cssv cond) ;;
  let theta := c / rho in
  Ok (map (fun x => Qmax (x - theta) 0) v).

Definition project_l1_ball (v : list Q) (z : Q) : result (list Q) :=
  p <- project_simplex (map Qabs v) z ;;
  Ok (map (fun t => fst t * snd t) (combine (map np_sign v) p)).

(** [p.reshape(x.shape)] for a [p] with as many entries as [x]. *)
Fixpoint chunks {A : Type} (m k : nat) (l : list A) : list (list A) :=
  match k with
  | O => []
  | S k' => firstn m l :: chunks m k' (skipn m l)
  end.

Definition reshape_like {A B : Type} (x : ndarray A) (p : list B) : ndarray B :=
  match x with
  | Arr1 _ => Arr1 p
  | Arr2 M => Arr2 (Mat (mcols M) (chunks (mcols M) (shape0 M) p))
  end.

(** The [Func] capability ([yaglm.opt.base]) as the constraints implement
    it. *)
Record Func : Type := {
  _eval : ndarray Q -> Q;
  _prox : ndarray Q -> Q -> result (ndarray Q);
  is_smooth : bool;
  is_proximable : bool
}.

(** [class Constraint(Func)]: evaluates to zero, is not smooth. *)
Definition Constraint (prox : ndarray Q -> Q -> result (ndarray Q))
    (proximable : bool) : Func :=
  {| _eval := fun _ => 0;
     _prox := prox;
     is_smooth := false;
     is_proximable := proximable |}.

Definition Positive : Func :=
  Constraint (fun x _ => Ok (nd_map (fun v => if Qltb 0 v then v else 0) x)) true.

Definition Simplex (radius : Q) : Func :=
  Constraint (fun x _ => p <- project_simplex (flat x) radius ;;
                         Ok (reshape_like x p)) true.

Definition L1Ball (mult : Q) : Func :=
  Constraint (fun x _ => p <- project_l1_ball (flat x) mult ;;
                         Ok (reshape_like x p)) true.

(** The one-norm and the squared Euclidean distance, to state what a
    projection onto the L1 ball is. *)
Definition norm1 (v : list Q) : Q := Qsum (map Qabs v).

Definition dist2 (a b : list Q) : Q :=
  Qsum (map (fun t => (fst t - snd t) * (fst t - snd t)) (combine a b)).

(** [class L2Ball(Constraint)]: [__init__] asserts that [mult] is
    positive.  [norm] is [numpy.linalg.norm], the Euclidean norm of the
    entries, which is not a rational function and is left a parameter. *)
Section WithNorm.

Variable norm : ndarray Q -> Q.

Definition L2Ball (mult : Q) : result Func :=
  if Qltb 0 mult
  then Ok (Constraint
             (fun x _ => Ok (nd_map (fun t => t / Qmax (norm x / mult) 1) x))
             true)
  else Raise AssertionError.

End WithNorm.

End Convex.

(** [class LinearEquality(Constraint)], for a two-dimensional [A].  The
    object keeps the pseudo-inverse it computes on first use, so [_prox]
    returns the object as the call leaves it next to its outcome.  [pinv]
    is [np.linalg.pinv]. *)
Module LinearEquality.

Record t : Type := {
  A : matrix Q;
  b : ndarray Q;
  _pinvA : option (matrix Q)
}.

Definition __init__ (A : matrix Q) (b : ndarray Q) : t :=
  {| A := A; b := b; _pinvA := None |}.

Section WithPinv.

Variable pinv : matrix Q -> matrix Q.

(** The property [pinvA]. *)
Definition pinvA (self : t) : matrix Q * t :=
  match _pinvA self with
  | None =>
      let P := pinv (A self) in
      (P, {| A := A self; b := b self; _pinvA := Some P |})
  | Some P => (P, self)
  end.

(** [_prox]: the outcome and the object the call leaves; the products and
    the differences are those of exact arithmetic. *)
Definition _prox (self : t) (x : ndarray Q) (step : Q)
  : result (ndarray Q) * t :=
  match (Ax <- np_matmul (A self) x ;; np_sub Ax (b self)) with
  | Raise e => (Raise e, self)
  | Ok residue =>
      let '(P, self') := pinvA self in
      (Pr <- np_matmul P residue ;; np_sub x Pr, self')
  end.

End WithPinv.

End LinearEquality.

(** ** [yaglm/solver/Cvxpy.py] *)

Module Cvxpy.

(** A [cp.Variable]: its shape and its [value]. *)
Record cp_variable : Type := {
  var_shape : list nat;
  var_value : option (ndarray Q)
}.

(** What the file takes from cvxpy and from the rest of yaglm
    ([yaglm.utils], [yaglm.config], [yaglm.cvxpy.from_config]); the
    configurations, the cvxpy expressions and the problem are opaque. *)
Class Externals : Type := {
  loss_config : Type;
  penalty_config : Type;
  constraint_config : Type;
  cp_expr : Type;
  cp_constraint : Type;
  cp_param : Type;
  cp_stats : Type;
  get_flavor_kind : option penalty_config -> option string;
  is_multi_response : ndarray Q -> bool;
  get_shapes_from : matrix Q -> ndarray Q -> list nat * list nat;
  get_loss : cp_variable -> option cp_variable -> matrix Q -> ndarray Q ->
             loss_config -> option (list Q) -> result cp_expr;
  get_penalty : cp_variable -> option penalty_config ->
                result (cp_expr * cp_param * cp_param);
  get_constraints : cp_variable -> option constraint_config ->
                    result (list cp_constraint);
  cp_add : cp_expr -> cp_expr -> cp_expr;
  NoPenalty : penalty_config;
  (** [var.value = v]: cvxpy checks [v] against the variable. *)
  cp_set_value : cp_variable -> option (ndarray Q) -> result cp_variable;
  (** [problem.solve(...)] from the values at hand: the values of the
      coefficient and of the intercept, the status, the statistics. *)
  cp_solve : cp_expr -> list cp_constraint -> cp_variable -> cp_variable ->
             result (ndarray Q * ndarray Q * string * cp_stats);
  clip_zero : ndarray Q -> Q -> ndarray Q
}.

Section WithExternals.

Context {ext : Externals}.

(** The attributes [__init__] assigns. *)
Record config : Type := {
  zero_tol : Q;
  solver : option string;
  verbose : bool
}.

(** The attributes [setup] assigns. *)
Record problem_state : Type := {
  is_mr_ : bool;
  coef_ : cp_variable;
  intercept_ : option cp_variable;
  problem_objective : cp_expr;
  problem_constraints : list cp_constraint;
  pen_val_ : cp_param;
  weights_ : cp_param;
  penalty_config_ : penalty_config;
  (** how many times [problem_.solve] has been run *)
  solve_runs : nat
}.

(** [_is_applicable]: the answer and the warnings issued.  [installed]
    tells whether [import cvxpy] succeeds. *)
Definition _is_applicable (installed : bool) (loss : loss_config)
    (penalty : option penalty_config) (constraint : option constraint_config)
  : result bool * list string :=
  if installed then
    (Ok (negb (match get_flavor_kind penalty with
               | Some k => (String.eqb k "non_convex" || String.eqb k "mixed")%bool
               | None => false
               end)), [])
  else
    (Ok false, ["cvxpy not installed so yaglm.solver.Cvxpy cannot be used"%string]).

(** Modelled from the spec: [is_applicable], the public capability probe
    that [setup] calls, is inherited from [yaglm.solver.base], which is not
    among the sources; the spec gives it the contract of [_is_applicable]
    (applicable only when the flavor is not [non_convex] or [mixed] and the
    dependency is present), so it is taken to return what [_is_applicable]
    returns. *)
Definition is_applicable (installed : bool) (loss : loss_config)
    (penalty : option penalty_config) (constraint : option constraint_config)
  : result bool :=
  fst (_is_applicable installed loss penalty constraint).

(** [setup].  Of the calls it makes, [get_loss], [get_penalty] and
    [get_constraints] can raise here; [is_multi_response],
    [get_shapes_from], the constructors of cvxpy ([cp.Variable], the sum,
    [cp.Minimize], [cp.Problem]) and [NoPenalty()] are taken to return. *)
Definition setup (installed : bool) (X : matrix Q) (y : ndarray Q)
    (loss : loss_config) (penalty : option penalty_config)
    (constraint : option constraint_config) (fit_intercept : bool)
    (sample_weight : option (list Q)) : result problem_state :=
  _ <- (if installed then Ok tt else Raise ModuleNotFoundError) ;;
  applicable <- is_applicable installed loss penalty constraint ;;
  _ <- (if negb applicable then Raise ValueError else Ok tt) ;;
  let is_mr := is_multi_response y in
  let '(coef_shape, intercept_shape) := get_shapes_from X y in
  let coef := {| var_shape := coef_shape; var_value := None |} in
  let intercept :=
    if fit_intercept
    then Some {| var_shape := intercept_shape; var_value := None |}
    else None in
  loss_func <- get_loss coef intercept X y loss sample_weight ;;
  pen <- get_penalty coef penalty ;;
  let '(penalty_func, pen_val, weights) := pen in
  constraints <- get_constraints coef constraint ;;
  Ok {| is_mr_ := is_mr;
        coef_ := coef;
        intercept_ := intercept;
        problem_objective := cp_add loss_func penalty_func;
        problem_constraints := constraints;
        pen_val_ := pen_val;
        weights_ := weights;
        penalty_config_ := match penalty with Some p => p | None => NoPenalty end;
        solve_runs := 0 |}.

(** What [solve] returns: [soln], [opt_data] (always [None]) and
    [opt_info]. *)
Record solution : Type := {
  soln_coef : ndarray Q;
  soln_intercept : option (ndarray Q);
  info_status : string;
  info_runtime : Q;
  info_stats : cp_stats
}.

Definition set_coef (s : problem_state) (c : cp_variable) : problem_state :=
  {| is_mr_ := is_mr_ s; coef_ := c; intercept_ := intercept_ s;
     problem_objective := problem_objective s;
     problem_constraints := problem_constraints s;
     pen_val_ := pen_val_ s; weights_ := weights_ s;
     penalty_config_ := penalty_config_ s; solve_runs := solve_runs s |}.

Definition set_intercept (s : problem_state) (i : option cp_variable)
  : problem_state :=
  {| is_mr_ := is_mr_ s; coef_ := coef_ s; intercept_ := i;
     problem_objective := problem_objective s;
     problem_constraints := problem_constraints s;
     pen_val_ := pen_val_ s; weights_ := weights_ s;
     penalty_config_ := penalty_config_ s; solve_runs := solve_runs s |}.

Definition count_run (s : problem_state) : problem_state :=
  {| is_mr_ := is_mr_ s; coef_ := coef_ s; intercept_ := intercept_ s;
     problem_objective := problem_objective s;
     problem_constraints := problem_constraints s;
     pen_val_ := pen_val_ s; weights_ := weights_ s;
     penalty_config_ := penalty_config_ s; solve_runs := S (solve_runs s) |}.

(** [solve]: the outcome and the state the call leaves.  [runtime] is the
    time the clock measures around [problem_.solve]. *)
Definition solve (cfg : config) (s : problem_state) (runtime : Q)
    (coef_init intercept_init : option (ndarray Q))
  : result solution * problem_state :=
  match cp_set_value (coef_ s) coef_init with
  | Raise e => (Raise e, s)
  | Ok c =>
      let s1 := set_coef s c in
      match intercept_ s1 with
      | None => (Raise AttributeError, s1)
      | Some iv =>
          match cp_set_value iv intercept_init with
          | Raise e => (Raise e, s1)
          | Ok i =>
              let s2 := count_run (set_intercept s1 (Some i)) in
              match cp_solve (problem_objective s2) (problem_constraints s2) c i with
              | Raise e => (Raise e, s2)
              | Ok (cv, iv', status, stats) =>
                  let s3 := set_intercept
                              (set_coef s2 {| var_shape := var_shape c;
                                              var_value := Some cv |})
                              (Some {| var_shape := var_shape i;
                                       var_value := Some iv' |}) in
                  (Ok {| soln_coef := clip_zero cv (zero_tol cfg);
                         soln_intercept := Some iv';
                         info_status := status;
                         info_runtime := runtime;
                         info_stats := stats |}, s3)
              end
          end
      end
  end.

End WithExternals.

End Cvxpy.

(** ** [ya_glm/add_init_params.py] *)

Module AddInitParams.

(** [inspect.Parameter.kind] *)
Inductive param_kind : Type :=
| POSITIONAL_ONLY
| POSITIONAL_OR_KEYWORD
| VAR_POSITIONAL
| KEYWORD_ONLY
| VAR_KEYWORD.

Section WithValues.

(** The type of default values. *)
Variable value : Type.

(** An [inspect.Parameter]. *)
Record param : Type := {
  name : string;
  kind : param_kind;
  default : option value
}.

(** [set(a) == set(b)] for two lists of names. *)
Definition set_eqb (a b : list string) : bool :=
  forallb (fun x => existsb (String.eqb x) b) a
  && forallb (fun x => existsb (String.eqb x) a) b.

Definition empty_init_params : list string := ["self"; "args"; "kwargs"]%string.

(** One turn of the loop over [classes]: [C] is the parameter list of
    [C.__init__], in order; the state is [current_param_names] and
    [params]. *)
Definition add_class (st : list string * list param) (C : list param)
  : list string * list param :=
  let '(current_param_names, params) := st in
  if set_eqb (map name C) empty_init_params then st
  else
    let cls_params :=
      filter (fun p => negb (existsb (String.eqb (name p)) current_param_names))
             (tl C) in
    (current_param_names ++ map name cls_params, params ++ cls_params).

(** The parameter list that [init_wrapper] hands to [Signature], for the
    parameter list [init] of the wrapped [__init__]; building the
    signature from it and wrapping are [inspect]'s and [makefun]'s. *)
Definition add_init_params (classes : list (list param)) (add_first : bool)
    (init : list param) : list param :=
  let init_params := tl init in
  let current_param_names := map name init_params in
  let params := if add_first then init_params else [] in
  let params := snd (fold_left add_class classes (current_param_names, params)) in
  let params := if add_first then params else params ++ init_params in
  {| name := "self"; kind := POSITIONAL_OR_KEYWORD; default := None |} :: params.

End WithValues.

Arguments name {value} p.
Arguments kind {value} p.
Arguments default {value} p.
Arguments add_class {value} st C.
Arguments add_init_params {value} classes add_first init.

End AddInitParams.

(** ** [ya_glm/loss/LossMixin.py] *)

Module LossMixin.

(** What [predict] and [score] take from the estimator they are mixed
    into, from numpy and from sklearn. *)
Class Externals : Type := {
  label : Type;
  targets : Type;
  (** [self._get_loss_config().name] *)
  loss_name : string;
  decision_function : matrix Q -> result (ndarray Q);
  (** the attribute [classes_] of a fitted classifier *)
  classes_ : list label;
  np_exp : ndarray Q -> ndarray Q
}.

Section WithExternals.

Context {ext : Externals}.

(** What [predict] returns: numbers, or class labels. *)
Inductive prediction : Type :=
| Values (z : ndarray Q)
| Labels (l : list label).

(** The index of the first largest entry after [best], the best so far. *)
Fixpoint argmax_from (best : nat) (bv : Q) (i : nat) (l : list Q) : nat :=
  match l with
  | [] => best
  | x :: t =>
      if Qltb bv x then argmax_from i x (S i) t
      else argmax_from best bv (S i) t
  end.

(** [scores.argmax(axis=1)]: numpy refuses a second axis of extent
    zero. *)
Definition argmax_axis1 (M : matrix Q) : result (list nat) :=
  if (mcols M =? 0)%nat then Raise ValueError
  else Ok (map (fun row => match row with
                           | [] => 0%nat
                           | x :: t => argmax_from 0 x 1 t
                           end) (mrows M)).

(** [self.classes_[indices]] *)
Definition take_classes (indices : list nat) : result (list label) :=
  mapM (fun i => match nth_error classes_ i with
                 | Some c => Ok c
                 | None => Raise IndexError
                 end) indices.

Definition name_in (names : list string) : bool :=
  existsb (String.eqb loss_name) names.

(** [predict]; a loss name that no branch tests gives [None]. *)
Definition predict (X : matrix Q) : result (option prediction) :=
  z <- decision_function X ;;
  if name_in ["lin_reg"; "huber"; "quantile"]%string then Ok (Some (Values z))
  else if String.eqb loss_name "poisson" then Ok (Some (Values (np_exp z)))
  else if name_in ["log_reg"; "multinomial"]%string then
    scores <- decision_function X ;;
    indices <- match scores with
               | Arr1 s => Ok (map (fun v => if Qltb 0 v then 1%nat else 0%nat) s)
               | Arr2 M => argmax_axis1 M
               end ;;
    l <- take_classes indices ;;
    Ok (Some (Labels l))
  else Ok None.

(** [score], given the three scoring functions. *)
Definition score
    (r2_score poisson_dsq_score accuracy_score :
       targets -> option prediction -> option (list Q) -> result Q)
    (X : matrix Q) (y : targets) (sample_weight : option (list Q))
  : result (option Q) :=
  y_pred <- predict X ;;
  if name_in ["lin_reg"; "huber"; "quantile"; "poisson"]%string then
    r <- r2_score y y_pred sample_weight ;; Ok (Some r)
  else if String.eqb loss_name "poisson" then
    r <- poisson_dsq_score y y_pred sample_weight ;; Ok (Some r)
  else if name_in ["log_reg"; "multinomial"]%string then
    r <- accuracy_score y y_pred sample_weight ;; Ok (Some r)
  else Ok None.

End WithExternals.

End LossMixin.

(** ** Binary64 arithmetic

    The floats of the code, as the primitive binary64 numbers with their
    correctly rounded operations. *)

Module Binary64.

Import PrimFloat.



(** [np.maximum], which hands on a not-a-number. *)
Definition np_maximum (x y : float) : float :=
  if is_nan x then x else if leb y x then x else y.

(** The order of [np.sort]: ascending, not-a-number last. *)
Definition sort_le (x y : float) : bool :=
  if is_nan y then true else if is_nan x then false else leb x y.

Fixpoint insert_sorted (x : float) (l : list float) : list float :=
  match l with
  | [] => [x]
  | y :: t => if sort_le x y then x :: l else y :: insert_sorted x t
  end.

(** [np.sort].  Entries that compare equal keep their order; numpy does
    not say in which order it leaves a negative and a positive zero, on
    which no more than the sign of a zero of [project_simplex] depends. *)
Definition np_sort (v : list float) : list float :=
  fold_right insert_sorted [] v.

Fixpoint cumsum_from (acc : float) (l : list float) : list float :=
  match l with
  | [] => []
  | x :: t => (acc + x)%float :: cumsum_from (acc + x)%float t
  end.

(** [np.cumsum]: the running sums, one addition after the other. *)
Definition np_cumsum (u : list float) : list float :=
  match u with
  | [] => []
  | x :: t => x :: cumsum_from x t
  end.

(** An integer of the code as a float; exact below [2^53]. *)
Fixpoint float_of_nat (n : nat) : float :=
  match n with
  | O => 0%float
  | S n' => (float_of_nat n' + 1)%float
  end.

(** [np.finfo(float).eps] *)
Definition eps : float := 0x1p-52%float.

End Binary64.

Module Convex64.

Import PrimFloat Binary64.

(** [u - cssv / ind > 0], entry by entry. *)
Definition simplex_cond (u cssv ind : list float) : list bool :=
  map (fun t => match t with (uk, ck, ik) => ltb 0 (uk - ck / ik) end)
      (combine (combine u cssv) ind).

Definition project_simplex (v : list float) (z : float) : result (list float) :=
  let n_features := length v in
  let u := rev (np_sort v) in
  let cssv := map (fun s => (s - z)%float) (np_cumsum u) in
  let ind := map (fun i => float_of_nat (i + 1)) (seq 0 n_features) in
  let cond := simplex_cond u cssv ind in
  rho <- Convex.last_item (select ind cond) ;;
  c <- Convex.last_item (select cssv cond) ;;
  let theta := (c / rho)%float in
  Ok (map (fun x => np_maximum (x - theta) 0) v).

End Convex64.

Module PenMax64.

Import PrimFloat Binary64.

(** Whether or not an entry of a weights vector is non-zero. *)
Definition is_nonzero_weight (w : option float) : bool :=
  match w with
  | None => false
  | Some v => negb (is_nan v) && ltb eps (abs v)
  end.

(** [a.max()], which hands on a not-a-number. *)
Definition np_max (a : list float) : result float :=
  match a with
  | [] => Raise ValueError
  | x :: t => Ok (fold_left (fun m y => np_maximum m y) t x)
  end.

(** Lines 35-41 of [lasso_max], from the gradient vector [grad] that line
    32 computes and a weights vector [weights]:
    [abs(grad[mask] / weights[mask]).max()]. *)
Definition lasso_max_tail (grad : list float) (weights : list (option float))
  : result float :=
  let penalized_mask := map is_nonzero_weight weights in
  if negb (length grad =? length weights)%nat then Raise IndexError else
  q <- mapM (fun t : float * option float =>
               match snd t with
               | Some w => Ok (fst t / w)%float
               | None => Raise TypeError
               end)
            (combine (select grad penalized_mask) (select weights penalized_mask)) ;;
  np_max (map abs q).

(** [c * weights] *)
Definition scale_weights (c : float) (weights : list (option float))
  : result (list (option float)) :=
  mapM (fun w : option float =>
          match w with
          | Some v => Ok (Some (c * v)%float)
          | None => Raise TypeError
          end) weights.

End PenMax64.


(** ** Sample instances of the external routines

    They serve to run the definitions on concrete inputs.  The norm and the
    leading singular value leave the rationals, so a rational stand-in
    takes their place: no statement below depends on which. *)

Definition sample_penmax_externals : PenMax.Externals :=
  {| PenMax.is_multi_response :=
       fun y => match y with
                | Arr1 _ => false
                | Arr2 M => (2 <=? mcols M)%nat
                end;
     PenMax.leading_sval := fun g => fold_right Qmax 0 (map Qabs (flat g));
     PenMax.process_weights_group_lasso := fun _ w => w;
     PenMax.huber_grad :=
       fun r knot => nd_map (fun v => Qmax (- knot) (Qmin knot v)) r;
     PenMax.tilted_L1_grad :=
       fun r q => nd_map (fun v => if Qltb 0 v then q else q - 1) r;
     PenMax._MULTI_RESP_LOSSES :=
       ["lin_reg_mr"; "huber_reg_mr"; "multinomial"; "poisson_mr"]%string;
     PenMax.np_quantile := fun y _ => fold_right Qmax 0 (flat y);
     PenMax.np_linalg_norm := fun v => Qsum (map Qabs v) |}.

(** A stand-in for [numpy.linalg.norm]: the Euclidean norm of the entries
    where it is rational, and the square root rounded down elsewhere. *)
Definition sample_norm (a : ndarray Q) : Q :=
  let s := Qred (Qsum (map (fun t => t * t) (flat a))) in
  Z.sqrt (Qnum s * Zpos (Qden s)) # Qden s.

Definition sample_cvxpy_externals : Cvxpy.Externals :=
  {| Cvxpy.loss_config := string;
     Cvxpy.penalty_config := string;
     Cvxpy.constraint_config := unit;
     Cvxpy.cp_expr := unit;
     Cvxpy.cp_constraint := unit;
     Cvxpy.cp_param := unit;
     Cvxpy.cp_stats := unit;
     Cvxpy.get_flavor_kind := fun p => p;
     Cvxpy.is_multi_response := fun y => match y with
                                         | Arr1 _ => false
                                         | Arr2 M => (2 <=? mcols M)%nat
                                         end;
     Cvxpy.get_shapes_from := fun X y => ([mcols X], []);
     Cvxpy.get_loss := fun _ _ _ _ _ _ => Ok tt;
     Cvxpy.get_penalty := fun _ _ => Ok (tt, tt, tt);
     Cvxpy.get_constraints := fun _ _ => Ok [];
     Cvxpy.cp_add := fun _ _ => tt;
     Cvxpy.NoPenalty := "none"%string;
     Cvxpy.cp_set_value :=
       fun v x => Ok {| Cvxpy.var_shape := Cvxpy.var_shape v;
                        Cvxpy.var_value := x |};
     Cvxpy.cp_solve :=
       fun _ _ c i => Ok (Arr1 (repeat 0 (hd 0%nat (Cvxpy.var_shape c))),
                          Arr1 [0], "optimal"%string, tt);
     Cvxpy.clip_zero := fun a _ => a |}.

(** The state [setup] builds, with these routines, for one feature and
    [fit_intercept=False]. *)
Definition sample_state : @Cvxpy.problem_state sample_cvxpy_externals :=
  @Cvxpy.Build_problem_state sample_cvxpy_externals
    false
    {| Cvxpy.var_shape := [1%nat]; Cvxpy.var_value := None |}
    None tt [] tt tt "none"%string 0.

Definition sample_config : Cvxpy.config :=
  {| Cvxpy.zero_tol := 1 # 100000000;
     Cvxpy.solver := None;
     Cvxpy.verbose := false |}.

(** The state [setup] builds, with these routines, for one feature and
    [fit_intercept=True]. *)
Definition sample_state_intercept : @Cvxpy.problem_state sample_cvxpy_externals :=
  @Cvxpy.Build_problem_state sample_cvxpy_externals
    false
    {| Cvxpy.var_shape := [1%nat]; Cvxpy.var_value := None |}
    (Some {| Cvxpy.var_shape := []; Cvxpy.var_value := None |})
    tt [] tt tt "none"%string 0.

(** A fitted multinomial classifier with three classes, whose decision
    values are the rows of [X]. *)
Definition sample_lossmixin_externals : LossMixin.Externals :=
  {| LossMixin.label := string;
     LossMixin.targets := list string;
     LossMixin.loss_name := "multinomial";
     LossMixin.decision_function := fun X => Ok (Arr2 X);
     LossMixin.classes_ := ["a"; "b"; "c"]%string;
     LossMixin.np_exp := fun z => z |}.

(* ================================================================== *)
(** * Part II: properties                                              *)
(* ================================================================== *)

(** ** Results and lists *)

Lemma bind_ok_inv {A B : Type} (r : result A) (k : A -> result B) (b : B) :
  bind r k = Ok b -> exists a, r = Ok a /\ k a = Ok b.
Proof.
  destruct r as [a|e]; simpl; intros H; [exists a; auto | discriminate].
Qed.

Lemma mapM_ok_Forall2 {A B : Type} (f : A -> result B) (l : list A) (l' : list B) :
  mapM f l = Ok l' <-> Forall2 (fun x y => f x = Ok y) l l'.
Proof.
  revert l'; induction l as [|x t IH]; intros l'; simpl.
  - split; intros H.
    + injection H as <-. constructor.
    + inversion H. reflexivity.
  - split; intros H.
    + apply bind_ok_inv in H as (y & Hy & H).
      apply bind_ok_inv in H as (ys & Hys & H).
      injection H as <-. constructor; [exact Hy | now apply IH].
    + inversion H as [|? y ? ys Hy Hys]; subst.
      rewrite Hy. simpl. apply IH in Hys. rewrite Hys. reflexivity.
Qed.

Lemma mapM_raise_head {A B : Type} (f : A -> result B) (x : A) (t : list A) (e : exn) :
  f x = Raise e -> mapM f (x :: t) = Raise e.
Proof. intros H. simpl. rewrite H. reflexivity. Qed.

Lemma mapM_id_map_ok {A B : Type} (f : A -> B) (l : list A) :
  mapM (fun x => x) (map (fun a => Ok (f a)) l) = Ok (map f l).
Proof.
  induction l as [|x t IH]; simpl; [reflexivity|].
  rewrite IH. reflexivity.
Qed.

(** ** Rationals *)

Lemma Qltb_lt (x y : Q) : Qltb x y = true <-> x < y.
Proof.
  unfold Qltb. rewrite negb_true_iff. split; intros H.
  - apply Qnot_le_lt. intros Hle. apply Qle_bool_iff in Hle. congruence.
  - destruct (Qle_bool y x) eqn:E; [|reflexivity].
    apply Qle_bool_iff in E. exfalso. now apply (Qlt_not_le x y).
Qed.

Lemma Qltb_ge (x y : Q) : Qltb x y = false <-> y <= x.
Proof.
  unfold Qltb. rewrite negb_false_iff. apply Qle_bool_iff.
Qed.

#[global] Instance Qsum_perm_proper : Proper (@Permutation Q ==> Qeq) Qsum.
Proof.
  intros l l' H. induction H; simpl; try lra.
Qed.

Lemma Qsum_cons (x : Q) (l : list Q) : Qsum (x :: l) = x + Qsum l.
Proof. reflexivity. Qed.


Lemma nth_map_lt {A B} (f : A -> B) (l : list A) (p : nat) (dA : A) (dB : B) :
  (p < length l)%nat -> nth p (map f l) dB = f (nth p l dA).
Proof.
  intros Hp. rewrite (nth_indep _ dB (f dA)) by now rewrite length_map.
  apply map_nth.
Qed.

(** ** Arrays *)

Lemma flat_nd_map {A B : Type} (f : A -> B) (a : ndarray A) :
  flat (nd_map f a) = map f (flat a).
Proof.
  destruct a as [l|M]; simpl; [reflexivity|]. symmetry. apply concat_map.
Qed.

Lemma nd_map_ext_in {A B : Type} (f g : A -> B) (a : ndarray A) :
  (forall x, In x (flat a) -> f x = g x) -> nd_map f a = nd_map g a.
Proof.
  destruct a as [l|M]; simpl; intros H.
  - f_equal. now apply map_ext_in.
  - do 2 f_equal. apply map_ext_in. intros r Hr. apply map_ext_in.
    intros x Hx. apply H. apply in_concat. eauto.
Qed.

Lemma nd_map_nd_map {A B C : Type} (f : A -> B) (g : B -> C) (a : ndarray A) :
  nd_map g (nd_map f a) = nd_map (fun x => g (f x)) a.
Proof.
  destruct a as [l|M]; simpl.
  - now rewrite map_map.
  - rewrite map_map. do 2 f_equal. apply map_ext. intros r. apply map_map.
Qed.


Lemma select_self {A : Type} (p : A -> bool) (l : list A) :
  select l (map p l) = filter p l.
Proof.
  induction l as [|x l IH]; simpl; [reflexivity|].
  destruct (p x); now rewrite IH.
Qed.

Lemma select_none {A : Type} (l : list A) (m : list bool) :
  Forall (fun b => b = false) m -> select l m = [].
Proof.
  intros H. revert l; induction H as [|b m Hb Hm IH]; intros [|x l];
    simpl; try reflexivity.
  rewrite Hb. apply IH.
Qed.


Lemma np_getmask_self {A : Type} (p : A -> bool) (w : ndarray A) :
  np_getmask w (nd_map p w) = Ok (Arr1 (filter p (flat w))).
Proof.
  destruct w as [l|M]; simpl.
  - rewrite length_map, Nat.eqb_refl. now rewrite select_self.
  - unfold same_shape, shape0. simpl. rewrite length_map, !Nat.eqb_refl. simpl.
    now rewrite <- concat_map, select_self.
Qed.

Lemma np_getmask_none {A : Type} (a : ndarray A) (m : ndarray bool) (r : ndarray A) :
  Forall (fun b => b = false) (flat m) ->
  np_getmask a m = Ok r -> flat r = [].
Proof.
  intros Hm. destruct a as [l|M], m as [bs|N]; simpl in *.
  - destruct (length l =? length bs)%nat; [|discriminate].
    intros H; injection H as <-. simpl. now apply select_none.
  - discriminate.
  - destruct (shape0 M =? length bs)%nat; [|discriminate].
    intros H; injection H as <-. simpl. now rewrite select_none.
  - destruct (same_shape M N); [|discriminate].
    intros H; injection H as <-. simpl. now apply select_none.
Qed.

(** [np_broadcast] pairs the entries, then applies the operation. *)
Lemma np_broadcast_factor {A B C : Type} (dA : A) (dB : B) (f : A -> B -> C)
    (a : ndarray A) (b : ndarray B) :
  np_broadcast dA dB f a b
  = match np_broadcast dA dB pair a b with
    | Ok r => Ok (nd_map (fun p => f (fst p) (snd p)) r)
    | Raise e => Raise e
    end.
Proof.
  unfold np_broadcast.
  destruct (bc_dim _ _) as [r|]; [|reflexivity].
  destruct (bc_dim _ _) as [m|]; [|reflexivity].
  destruct a as [l1|M1], b as [l2|M2]; simpl; f_equal;
    try (f_equal; f_equal; rewrite map_map; apply map_ext; intros i;
         rewrite map_map; reflexivity).
  f_equal. rewrite concat_map, map_map. f_equal.
  apply map_ext. intros i. rewrite map_map. reflexivity.
Qed.



Lemma pick_nth {A : Type} (d : A) (l : list A) (i : nat) :
  (i < length l)%nat -> pick d l i = nth i l d.
Proof.
  intros Hi. unfold pick. destruct (length l =? 1)%nat eqn:E; [|reflexivity].
  apply Nat.eqb_eq in E. f_equal. lia.
Qed.




Lemma np_broadcast_empty_r {A B C : Type} (dA : A) (dB : B) (f : A -> B -> C)
    (a : ndarray A) (r : ndarray C) :
  np_broadcast dA dB f a (Arr1 []) = Ok r -> flat r = [].
Proof.
  unfold np_broadcast. simpl.
  destruct (bc_dim _ _) as [n|]; [|discriminate].
  destruct (bc_dim (mcols (as_matrix a)) 0) as [m|] eqn:Em; [|discriminate].
  assert (m = 0)%nat as ->.
  { unfold bc_dim in Em.
    destruct (mcols (as_matrix a) =? 0)%nat eqn:E0.
    - apply Nat.eqb_eq in E0. congruence.
    - destruct (mcols (as_matrix a) =? 1)%nat; [congruence | discriminate]. }
  intros H.
  assert (Hc : forall (g : nat -> list C) l, (forall i, g i = []) -> concat (map g l) = []).
  { intros g l Hg. induction l as [|x l IH]; simpl; [reflexivity|].
    now rewrite Hg, IH. }
  destruct a; injection H as <-; simpl; apply Hc; reflexivity.
Qed.

Lemma np_broadcast_arr1 {A B C : Type} (dA : A) (dB : B) (f : A -> B -> C)
    (l1 : list A) (l2 : list B) :
  length l1 = length l2 ->
  np_broadcast dA dB f (Arr1 l1) (Arr1 l2)
  = Ok (Arr1 (map (fun p => f (fst p) (snd p)) (combine l1 l2))).
Proof.
  intros Hlen. unfold np_broadcast. simpl. rewrite <- Hlen.
  unfold bc_dim. rewrite !Nat.eqb_refl. simpl. rewrite app_nil_r.
  do 2 f_equal.
  change (pick (@nil A) [l1] 0%nat) with l1.
  change (pick (@nil B) [l2] 0%nat) with l2.
  apply (nth_ext _ _ (f dA dB) (f dA dB)).
  - rewrite !length_map, length_seq, length_combine. lia.
  - intros i Hi. rewrite length_map, length_seq in Hi.
    rewrite (nth_map_lt _ _ _ 0%nat) by now rewrite length_seq.
    rewrite seq_nth by exact Hi. simpl.
    rewrite (nth_map_lt _ _ _ (dA, dB)) by (rewrite length_combine; lia).
    rewrite combine_nth by exact Hlen. simpl.
    rewrite (pick_nth dA l1 i), (pick_nth dB l2 i) by lia. reflexivity.
Qed.

Lemma mapM_id_ok {A : Type} (l : list (result A)) (l' : list A) :
  mapM (fun x => x) l = Ok l' <-> l = map Ok l'.
Proof.
  rewrite mapM_ok_Forall2. split.
  - induction 1 as [|x y l l' Hx Hl IH]; simpl; [reflexivity | now rewrite Hx, IH].
  - intros ->. induction l' as [|y l' IH]; simpl; constructor; auto.
Qed.

Lemma mapM_app_ok {A B : Type} (f : A -> result B) (l1 l2 : list A) (l : list B) :
  mapM f (l1 ++ l2) = Ok l ->
  exists a b, mapM f l1 = Ok a /\ mapM f l2 = Ok b /\ l = a ++ b.
Proof.
  revert l; induction l1 as [|x l1 IH]; intros l H; simpl in *.
  - exists [], l. auto.
  - apply bind_ok_inv in H as (y & Hy & H).
    apply bind_ok_inv in H as (ys & Hys & H). injection H as <-.
    destruct (IH _ Hys) as (a & b & Ha & Hb & ->).
    exists (y :: a), b. rewrite Hy, Ha. simpl. auto.
Qed.

Lemma nd_sequence_flat {A : Type} (a : ndarray (result A)) (r : ndarray A) :
  nd_sequence a = Ok r -> mapM (fun x => x) (flat a) = Ok (flat r).
Proof.
  destruct a as [l|M]; simpl; intros H.
  - apply bind_ok_inv in H as (l' & Hl & H). injection H as <-. exact Hl.
  - apply bind_ok_inv in H as (rows & Hrows & H). injection H as <-. simpl.
    apply mapM_ok_Forall2 in Hrows. apply mapM_id_ok.
    induction Hrows as [|row row' rows rows' Hr Hrs IH]; simpl; [reflexivity|].
    apply mapM_id_ok in Hr. now rewrite map_app, Hr, IH.
Qed.

Lemma nd_sequence_of_flat {A : Type} (a : ndarray (result A)) (l : list A) :
  mapM (fun x => x) (flat a) = Ok l ->
  exists r, nd_sequence a = Ok r /\ flat r = l.
Proof.
  destruct a as [l0|M]; simpl; intros H.
  - exists (Arr1 l). rewrite H. auto.
  - assert (E : exists rows, mapM (mapM (fun x => x)) (mrows M) = Ok rows
                             /\ concat rows = l).
    { revert l H. induction (mrows M) as [|row rows IH]; intros l H; simpl in *.
      - injection H as <-. exists []. auto.
      - apply mapM_app_ok in H as (a & b & Ha & Hb & ->).
        destruct (IH _ Hb) as (rows' & Hrows & <-).
        exists (a :: rows'). rewrite Ha, Hrows. auto. }
    destruct E as (rows & Hrows & <-).
    exists (Arr2 (Mat (mcols M) rows)). rewrite Hrows. auto.
Qed.




(** ** Maxima *)

Lemma fold_fl_max_Num (qs : list Q) (q0 : Q) :
  fold_left fl_max (map Num qs) (Num q0) = Num (fold_left Qmax qs q0).
Proof.
  revert q0; induction qs as [|q qs IH]; intros q0; simpl; [reflexivity | apply IH].
Qed.

Lemma fold_Qmax_ge (qs : list Q) (q0 : Q) :
  q0 <= fold_left Qmax qs q0
  /\ Forall (fun q => q <= fold_left Qmax qs q0) qs.
Proof.
  revert q0; induction qs as [|q qs IH]; intros q0; simpl.
  - split; [apply Qle_refl | constructor].
  - destruct (IH (Qmax q0 q)) as [H1 H2].
    pose proof (Q.le_max_l q0 q). pose proof (Q.le_max_r q0 q).
    split; [lra|]. constructor; [lra | exact H2].
Qed.

Lemma fold_Qmax_attained (qs : list Q) (q0 : Q) :
  exists q, In q (q0 :: qs) /\ fold_left Qmax qs q0 == q.
Proof.
  revert q0; induction qs as [|q qs IH]; intros q0; simpl.
  - exists q0. split; [auto | reflexivity].
  - destruct (IH (Qmax q0 q)) as (x & [Hx | Hx] & E).
    + destruct (Q.max_dec q0 q) as [E'|E'].
      * exists q0. split; [auto|]. rewrite E, <- Hx. exact E'.
      * exists q. split; [auto|]. rewrite E, <- Hx. exact E'.
    + exists x. auto.
Qed.

(** ** The cvxpy backend *)

Module CvxpyFacts.

Import Cvxpy.

Section Backend.

Context {ext : Externals}.

Lemma setup_without_cvxpy X y loss penalty constraint fit_intercept sample_weight :
  setup false X y loss penalty constraint fit_intercept sample_weight
  = Raise ModuleNotFoundError.
Proof. reflexivity. Qed.

Lemma setup_not_applicable X y loss penalty constraint fit_intercept sample_weight :
  is_applicable true loss penalty constraint = Ok false ->
  setup true X y loss penalty constraint fit_intercept sample_weight
  = Raise ValueError.
Proof.
  intros H. unfold setup. cbn -[is_applicable]. rewrite H. reflexivity.
Qed.

Lemma setup_intercept installed X y loss penalty constraint fit_intercept
    sample_weight s :
  setup installed X y loss penalty constraint fit_intercept sample_weight = Ok s ->
  intercept_ s = None <-> fit_intercept = false.
Proof.
  unfold setup. intros H.
  apply bind_ok_inv in H as (_ & _ & H).
  apply bind_ok_inv in H as (applicable & _ & H).
  apply bind_ok_inv in H as (_ & _ & H).
  destruct (get_shapes_from X y) as [coef_shape intercept_shape].
  apply bind_ok_inv in H as (loss_func & _ & H).
  apply bind_ok_inv in H as ([[penalty_func pen_val] weights] & _ & H).
  apply bind_ok_inv in H as (constraints & _ & H).
  injection H as <-. simpl.
  destruct fit_intercept; split; intros; congruence.
Qed.

Lemma solve_without_intercept cfg s runtime coef_init intercept_init :
  intercept_ s = None ->
  (exists e, fst (solve cfg s runtime coef_init intercept_init) = Raise e)
  /\ solve_runs (snd (solve cfg s runtime coef_init intercept_init)) = solve_runs s
  /\ intercept_ (snd (solve cfg s runtime coef_init intercept_init)) = None
  /\ (forall c, cp_set_value (coef_ s) coef_init = Ok c ->
      fst (solve cfg s runtime coef_init intercept_init) = Raise AttributeError).
Proof.
  intros Hi. unfold solve.
  destruct (cp_set_value (coef_ s) coef_init) as [c|e]; simpl.
  - rewrite Hi. simpl. repeat split; eauto.
  - repeat split; eauto. intros c Hc. discriminate.
Qed.

Lemma solve_ok_intercept cfg s runtime coef_init intercept_init sol :
  fst (solve cfg s runtime coef_init intercept_init) = Ok sol ->
  intercept_ s <> None.
Proof.
  intros H Hi.
  destruct (solve_without_intercept cfg s runtime coef_init intercept_init Hi)
    as ((e & He) & _).
  congruence.
Qed.

(** C8, as the code has it.  [_is_applicable] answers [False], raising
    nothing, whenever cvxpy is not installed or the flavor kind of the
    penalty is ['non_convex'] or ['mixed'].  Whenever [is_applicable] is
    false, [setup] raises and returns no problem to solve: the [ValueError]
    of its applicability check when cvxpy is installed, and the
    [ModuleNotFoundError] of its own [import cvxpy], which comes first, when
    it is not. *)
Theorem cvxpy_applicability_and_setup
    (installed : bool) (loss : loss_config) (penalty : option penalty_config)
    (constraint : option constraint_config) :
  (installed = false
   \/ get_flavor_kind penalty = Some "non_convex"%string
   \/ get_flavor_kind penalty = Some "mixed"%string ->
   fst (_is_applicable installed loss penalty constraint) = Ok false)
  /\ (is_applicable installed loss penalty constraint = Ok false ->
      forall X y fit_intercept sample_weight,
        setup installed X y loss penalty constraint fit_intercept sample_weight
        = Raise (if installed then ValueError else ModuleNotFoundError)).
Proof.
  split.
  - intros [-> | [H | H]]; [reflexivity | |];
      unfold _is_applicable; destruct installed; try reflexivity;
      rewrite H; reflexivity.
  - intros H X y fit_intercept sample_weight. destruct installed.
    + now apply setup_not_applicable.
    + apply setup_without_cvxpy.
Qed.

(** C9.  A solver set up with [fit_intercept=False] stores no intercept
    variable, and then every call of [solve], the first and each later one,
    raises without running the underlying problem: the exception is the
    [AttributeError] of [self.intercept_.value = intercept_init] as soon as
    the assignment to the coefficient before it is accepted.  So [solve]
    returns a solution only after a set-up with [fit_intercept=True]. *)
Theorem solve_requires_fitted_intercept
    (installed : bool) (X : matrix Q) (y : ndarray Q) (loss : loss_config)
    (penalty : option penalty_config) (constraint : option constraint_config)
    (fit_intercept : bool) (sample_weight : option (list Q)) (s : problem_state)
    (cfg : config) (runtime : Q) (coef_init intercept_init : option (ndarray Q)) :
  setup installed X y loss penalty constraint fit_intercept sample_weight = Ok s ->
  (fit_intercept = false ->
   intercept_ s = None
   /\ (exists e, fst (solve cfg s runtime coef_init intercept_init) = Raise e)
   /\ solve_runs (snd (solve cfg s runtime coef_init intercept_init)) = solve_runs s
   /\ intercept_ (snd (solve cfg s runtime coef_init intercept_init)) = None
   /\ (forall c, cp_set_value (coef_ s) coef_init = Ok c ->
       fst (solve cfg s runtime coef_init intercept_init) = Raise AttributeError))
  /\ (forall sol, fst (solve cfg s runtime coef_init intercept_init) = Ok sol ->
      fit_intercept = true).
Proof.
  intros Hs. pose proof (setup_intercept _ _ _ _ _ _ _ _ _ Hs) as Hi. split.
  - intros Hf. apply Hi in Hf. split; [exact Hf|].
    now apply solve_without_intercept.
  - intros sol Hsol. apply solve_ok_intercept in Hsol.
    destruct fit_intercept; [reflexivity|].
    exfalso. apply Hsol. now apply Hi.
Qed.

End Backend.

(** C8, as stated, fails when cvxpy is not installed: [is_applicable] is
    false and [setup] raises, but what it raises is the
    [ModuleNotFoundError] of its import, not the [ValueError] that reports
    an inapplicable solver. *)
Lemma setup_without_cvxpy_is_import_error :
  is_applicable (ext := sample_cvxpy_externals) false "lin_reg"%string None None
  = Ok false
  /\ setup (ext := sample_cvxpy_externals) false (Mat 1 [[1]]) (Arr1 [1])
       "lin_reg"%string None None true None
     = Raise ModuleNotFoundError
  /\ setup (ext := sample_cvxpy_externals) false (Mat 1 [[1]]) (Arr1 [1])
       "lin_reg"%string None None true None
     <> Raise ValueError.
Proof.
  split; [reflexivity|]. split; [reflexivity|]. discriminate.
Qed.

Lemma cvxpy_applicability_and_setup_witness :
  fst (_is_applicable (ext := sample_cvxpy_externals) true "lin_reg"%string
         (Some "non_convex"%string) None) = Ok false
  /\ setup (ext := sample_cvxpy_externals) true (Mat 1 [[1]]) (Arr1 [1])
       "lin_reg"%string (Some "non_convex"%string) None true None
     = Raise ValueError.
Proof.
  destruct (cvxpy_applicability_and_setup (ext := sample_cvxpy_externals)
              true "lin_reg"%string (Some "non_convex"%string) None) as [H1 H2].
  split.
  - apply H1. right. left. reflexivity.
  - apply (H2 eq_refl).
Defined.

Lemma solve_requires_fitted_intercept_witness :
  setup (ext := sample_cvxpy_externals) true (Mat 1 [[1]]) (Arr1 [1])
    "lin_reg"%string None None false None = Ok sample_state
  /\ fst (solve sample_config sample_state 0 None None) = Raise AttributeError.
Proof.
  assert (Hs : setup (ext := sample_cvxpy_externals) true (Mat 1 [[1]]) (Arr1 [1])
                 "lin_reg"%string None None false None = Ok sample_state)
    by reflexivity.
  split; [exact Hs|].
  destruct (solve_requires_fitted_intercept (ext := sample_cvxpy_externals)
              true (Mat 1 [[1]]) (Arr1 [1]) "lin_reg"%string None None false None
              sample_state sample_config 0 None None Hs) as [H _].
  destruct (H eq_refl) as (_ & _ & _ & _ & Hc).
  exact (Hc _ eq_refl).
Defined.

End CvxpyFacts.

(** ** The projections of [convex.py] *)

Module ConvexFacts.

Import Convex.







Lemma StronglySorted_app_inv {A} (R : A -> A -> Prop) l1 l2 :
  StronglySorted R (l1 ++ l2) ->
  StronglySorted R l1 /\ StronglySorted R l2
  /\ forall a b, In a l1 -> In b l2 -> R a b.
Proof.
  induction l1 as [|x t IH]; simpl; intros H.
  - repeat split; [constructor | exact H | intros ? ? []].
  - inversion H as [|? ? Ht Hx]; subst.
    destruct (IH Ht) as (H1 & H2 & H3).
    apply Forall_app in Hx as [Hx1 Hx2].
    repeat split; [now constructor | exact H2 |].
    intros a b [<- | Ha] Hb.
    + rewrite Forall_forall in Hx2. now apply Hx2.
    + now apply H3.
Qed.
















Section Simplex.

Variables (v : list Q) (z : Q).

Let u := rev (np_sort v).
Let cssv := map (fun s => s - z) (np_cumsum u).
Let ind := map (fun i => Qnat i + 1) (seq 0 (length v)).
Let cond := simplex_cond u cssv ind.












End Simplex.



Lemma Qsum_nonneg v : Forall (fun x => 0 <= x) v -> 0 <= Qsum v.
Proof.
  induction 1 as [|x t Hx Hall IH]; [apply Qle_refl|]. rewrite Qsum_cons. lra.
Qed.






(** C7, at an input inside the ball.  [v = [1/4, 1/4]] has one-norm
    [1/2 <= 1], so it is its own closest point of the L1 ball of radius 1;
    [project_l1_ball v 1] returns [[1/2, 1/2]], which is not [v] and is at a
    positive distance from it. *)
Theorem project_l1_ball_moves_interior_point :
  norm1 [1 # 4; 1 # 4] <= 1
  /\ exists p,
      project_l1_ball [1 # 4; 1 # 4] 1 = Ok p
      /\ Forall2 Qeq p [1 # 2; 1 # 2]
      /\ ~ Forall2 Qeq p [1 # 4; 1 # 4]
      /\ dist2 [1 # 4; 1 # 4] [1 # 4; 1 # 4] == 0
      /\ 0 < dist2 p [1 # 4; 1 # 4].
Proof.
  split; [vm_compute; discriminate|].
  eexists. split; [vm_compute; reflexivity|].
  split; [repeat constructor; reflexivity|].
  split.
  - intros H. inversion H as [|? ? ? ? Hq _]; subst.
    vm_compute in Hq. discriminate.
  - split; vm_compute; reflexivity.
Qed.

End ConvexFacts.

(** ** [project_simplex] in binary64 *)

Module Convex64Facts.

Import PrimFloat Binary64 Convex64.

(** *** Comparisons with zero *)




(** *** The lengths *)








(** *** The selection *)



Lemma last_item_empty {A : Type} (l : list A) (x : A) :
  Convex.last_item l = Ok x -> l <> [].
Proof. intros H ->. discriminate. Qed.

Section Steps.

Variables (v : list float) (z : float).

Local Abbreviation u := (rev (np_sort v)).
Local Abbreviation cssv := (map (fun s => (s - z)%float) (np_cumsum u)).
Local Abbreviation ind := (map (fun i => float_of_nat (i + 1)) (seq 0 (length v))).
Local Abbreviation cond := (simplex_cond u cssv ind).












End Steps.




(** *** Worked inputs *)





End Convex64Facts.

(** ** The largest-penalty bounds *)

Module PenMaxFacts.

Import PenMax.

Lemma is_nonzero_weight_spec (w : weight) :
  is_nonzero_weight w = true <-> exists q, w = Some (Num q) /\ eps < Qabs q.
Proof.
  destruct w as [[|q]|]; simpl.
  - split; [discriminate | intros (q & H & _); discriminate].
  - rewrite Qltb_lt. split.
    + intros H. exists q. auto.
    + intros (q' & H & Hq). injection H as ->. exact Hq.
  - split; [discriminate | intros (q & H & _); discriminate].
Qed.

Lemma div_weight_penalized (g : Q) (w : weight) :
  is_nonzero_weight w = true ->
  exists q, w = Some (Num q) /\ eps < Qabs q /\ div_weight g w = Ok (Num (g / q)).
Proof.
  intros H. apply is_nonzero_weight_spec in H as (q & -> & Hq).
  exists q. auto.
Qed.


(** [div_penalized], with the pairing of the entries made explicit. *)
Lemma div_penalized_eq (values : ndarray Q) (weights : ndarray weight) :
  div_penalized values weights
  = (v <- np_getmask values (get_is_pen_mask weights) ;;
     match np_broadcast 0 None pair v
             (Arr1 (filter is_nonzero_weight (flat weights))) with
     | Ok P => nd_sequence (nd_map (fun p => div_weight (fst p) (snd p)) P)
     | Raise e => Raise e
     end).
Proof.
  unfold div_penalized, get_is_pen_mask.
  destruct (np_getmask values _) as [v|e]; [|reflexivity]. simpl.
  rewrite np_getmask_self. simpl.
  rewrite np_broadcast_factor.
  destruct (np_broadcast 0 None pair v _); reflexivity.
Qed.



Lemma filter_no_penalized (weights : ndarray weight) :
  no_penalized weights -> filter is_nonzero_weight (flat weights) = [].
Proof.
  unfold no_penalized. induction 1 as [|w l Hw Hl IH]; simpl; [reflexivity|].
  now rewrite Hw.
Qed.

Lemma div_penalized_no_penalized (values : ndarray Q) (weights : ndarray weight) :
  no_penalized weights ->
  (forall r, div_penalized values weights = Ok r -> flat r = [])
  /\ (forall v e, np_getmask values (get_is_pen_mask weights) = Ok v ->
                  div_penalized values weights = Raise e -> e = ValueError).
Proof.
  intros Hno. rewrite div_penalized_eq, (filter_no_penalized _ Hno). split.
  - intros r H. apply bind_ok_inv in H as (v & _ & H).
    destruct (np_broadcast _ _ _ v _) as [P|e] eqn:EP; [|discriminate].
    apply np_broadcast_empty_r in EP.
    apply nd_sequence_flat in H. rewrite flat_nd_map, EP in H. simpl in H.
    injection H as H. now symmetry.
  - intros v e Hv. rewrite Hv. simpl.
    destruct (np_broadcast _ _ _ v _) as [P|e'] eqn:EP.
    + apply np_broadcast_empty_r in EP. intros H.
      destruct (nd_sequence_of_flat
                  (nd_map (fun p => div_weight (fst p) (snd p)) P) [])
        as (r & Hr & _); [now rewrite flat_nd_map, EP | congruence].
    + unfold np_broadcast in EP.
      destruct (bc_dim _ _); [destruct (bc_dim _ _)|]; try discriminate;
        injection EP as <-; congruence.
Qed.

Lemma np_max_empty (a : ndarray fl) : flat a = [] -> np_max a = Raise ValueError.
Proof. unfold np_max. now intros ->. Qed.

Lemma np_min_empty (a : ndarray fl) : flat a = [] -> np_min a = Raise ValueError.
Proof. unfold np_min. now intros ->. Qed.




Section Bounds.

Context {ext : Externals}.



Lemma lasso_max_body_arr1 self self' X (l : list Q) fit_intercept loss_func
    loss_kws weights :
  lasso_max_body self X (Arr1 l) fit_intercept loss_func loss_kws weights
  = lasso_max_body self' X (Arr1 l) fit_intercept loss_func loss_kws weights.
Proof. reflexivity. Qed.

Lemma mapM_ext {A B : Type} (f g : A -> result B) (l : list A) :
  (forall x, f x = g x) -> mapM f l = mapM g l.
Proof.
  intros H. induction l as [|x l IH]; simpl; [reflexivity | now rewrite H, IH].
Qed.

(** [lasso_max] is the fixed point of its body. *)
Lemma lasso_max_unfold X y fit_intercept loss_func loss_kws weights :
  lasso_max X y fit_intercept loss_func loss_kws weights
  = lasso_max_body lasso_max X y fit_intercept loss_func loss_kws weights.
Proof.
  unfold lasso_max at 1. unfold lasso_max_body at 1 3.
  destruct (is_multi_response y); [|reflexivity].
  destruct y as [l|Y]; reflexivity.
Qed.

Lemma lasso_max_single X y fit_intercept loss_func loss_kws weights :
  is_multi_response y = false ->
  lasso_max X y fit_intercept loss_func loss_kws weights
  = lasso_max_tail X y fit_intercept loss_func loss_kws weights.
Proof.
  intros H. rewrite lasso_max_unfold. unfold lasso_max_body. now rewrite H.
Qed.



Lemma select_length_eq {A B : Type} (l1 : list A) (l2 : list B) (m : list bool) :
  length l1 = length l2 -> length (select l1 m) = length (select l2 m).
Proof.
  revert l2 m; induction l1 as [|x l1 IH]; intros [|y l2] [|[] m] H;
    simpl in *; try discriminate; try reflexivity.
  - f_equal. apply IH. lia.
  - apply IH. lia.
Qed.

Lemma select_combine_snd {A B : Type} (p : B -> bool) (l1 : list A) (l2 : list B) :
  length l1 = length l2 ->
  combine (select l1 (map p l2)) (select l2 (map p l2))
  = filter (fun x => p (snd x)) (combine l1 l2).
Proof.
  revert l2; induction l1 as [|x l1 IH]; intros [|y l2] H; simpl in *;
    try discriminate; try reflexivity.
  destruct (p y); simpl; rewrite IH by lia; reflexivity.
Qed.

Lemma in_combine_ex_l {A B : Type} (l1 : list A) (l2 : list B) (y : B) :
  length l1 = length l2 -> In y l2 -> exists x, In (x, y) (combine l1 l2).
Proof.
  revert l2; induction l1 as [|x l1 IH]; intros [|y' l2] H Hy; simpl in *;
    try discriminate; try contradiction.
  destruct Hy as [-> | Hy].
  - exists x. now left.
  - destruct (IH l2 ltac:(lia) Hy) as (x' & Hx'). exists x'. now right.
Qed.

(** For a gradient vector and a weights vector of the same length, the
    bound is the largest [|g_j / w_j|] over the penalized [j]. *)
Lemma lasso_max_tail_vector X y fit_intercept loss_func loss_kws
    (g : list Q) (ws : list weight) :
  grad_at_zero X y fit_intercept loss_func loss_kws = Ok (Arr1 g) ->
  length ws = length g ->
  (exists w, In w ws /\ is_nonzero_weight w = true) ->
  exists m,
    lasso_max_tail X y fit_intercept loss_func loss_kws (Some (Arr1 ws)) = Ok (Num m)
    /\ (forall gj qj, In (gj, Some (Num qj)) (combine g ws) -> eps < Qabs qj ->
                      Qabs (gj / qj) <= m)
    /\ (exists gj qj, In (gj, Some (Num qj)) (combine g ws) /\ eps < Qabs qj
                      /\ m == Qabs (gj / qj)).
Proof.
  intros Hg Hlen (w0 & Hw0 & Hpen0).
  set (L := filter (fun x : Q * weight => is_nonzero_weight (snd x)) (combine g ws)).
  set (H := fun x : Q * weight =>
              match snd x with
              | Some (Num q) => Qabs (fst x / q)
              | _ => 0
              end).
  assert (Hdiv : div_penalized (Arr1 g) (Arr1 ws)
                 = Ok (Arr1 (map (fun x => Num (match snd x with
                                                | Some (Num q) => fst x / q
                                                | _ => 0
                                                end)) L))).
  { unfold div_penalized, get_is_pen_mask. simpl.
    rewrite !length_map, Hlen, Nat.eqb_refl. simpl.
    rewrite np_broadcast_arr1 by (apply select_length_eq; now symmetry).
    rewrite select_combine_snd by now symmetry. fold L. simpl.
    rewrite (map_ext_in _ (fun x => Ok (Num (match snd x with
                                             | Some (Num q) => fst x / q
                                             | _ => 0
                                             end)))).
    - rewrite mapM_id_map_ok. reflexivity.
    - intros [gj w] Hin. apply filter_In in Hin as [_ Hin]. simpl in *.
      destruct (div_weight_penalized gj w Hin) as (q & -> & _ & E). exact E. }
  assert (Habs : map fl_abs (map (fun x : Q * weight =>
                     Num (match snd x with
                          | Some (Num q) => fst x / q
                          | _ => 0
                          end)) L) = map Num (map H L)).
  { rewrite !map_map. apply map_ext_in. intros [gj w] Hin.
    apply filter_In in Hin as [_ Hin]. unfold H. simpl in *.
    apply is_nonzero_weight_spec in Hin as (q & -> & _). reflexivity. }
  destruct (in_combine_ex_l g ws w0 ltac:(now symmetry) Hw0) as (g0 & Hin0).
  assert (HL0 : In (g0, w0) L) by (apply filter_In; auto).
  destruct (map H L) as [|h0 hs] eqn:EHL.
  { apply (f_equal (@length Q)) in EHL. rewrite length_map in EHL.
    destruct L; [destruct HL0 | discriminate]. }
  exists (fold_left Qmax hs h0). split; [|split].
  - unfold lasso_max_tail. rewrite Hg. simpl. rewrite Hdiv. simpl.
    unfold np_max. simpl. rewrite Habs. simpl. now rewrite fold_fl_max_Num.
  - intros gj qj Hin Hq.
    assert (HinL : In (gj, Some (Num qj)) L).
    { apply filter_In. split; [exact Hin|]. simpl. now apply Qltb_lt. }
    apply (in_map H) in HinL. rewrite EHL in HinL.
    change (H (gj, Some (Num qj))) with (Qabs (gj / qj)) in HinL.
    destruct (fold_Qmax_ge hs h0) as [H1 H2].
    destruct HinL as [E | HinL]; [rewrite <- E; exact H1|].
    rewrite Forall_forall in H2. now apply H2.
  - destruct (fold_Qmax_attained hs h0) as (x & Hx & E).
    rewrite <- EHL in Hx. apply in_map_iff in Hx as ([gj w] & <- & HinL).
    apply filter_In in HinL as [Hin Hpen]. simpl in Hpen.
    apply is_nonzero_weight_spec in Hpen as (qj & -> & Hq).
    exists gj, qj. auto.
Qed.

(** C4, at the name ['poisson_mr'].  [grad_at_zero] does not recognize it:
    the branch meant for it tests the name ['g0_poisson_mr'], and calls the
    single-response [g0_poisson] rather than [g0_poisson_mr]. *)
Theorem grad_at_zero_poisson_mr_unsupported X y fit_intercept loss_kws :
  grad_at_zero X y fit_intercept "poisson_mr" loss_kws
  = Raise (NotImplementedError "poisson_mr not supported")
  /\ grad_at_zero X y fit_intercept "g0_poisson_mr" loss_kws
     = call_kw0 loss_kws (g0_poisson X y fit_intercept).
Proof. split; reflexivity. Qed.


(** *** No penalized coordinate *)

Ltac raised_before :=
  split; [eauto |];
  intros;
  repeat match goal with
         | H : Ok _ = Ok _ |- _ => injection H; clear H; intros; subst
         end;
  congruence.

Lemma degenerate_bound (values : ndarray Q) (w : ndarray weight)
    (k : ndarray fl -> result fl) :
  no_penalized w ->
  (forall r, flat r = [] -> k r = Raise ValueError) ->
  (exists e, (r <- div_penalized values w ;; k r) = Raise e)
  /\ (forall v, np_getmask values (get_is_pen_mask w) = Ok v ->
                (r <- div_penalized values w ;; k r) = Raise ValueError).
Proof.
  intros Hno Hk. destruct (div_penalized_no_penalized values w Hno) as [H1 H2].
  destruct (div_penalized values w) as [r|e] eqn:E; simpl.
  - rewrite (Hk r (H1 r eq_refl)). eauto.
  - split; [eauto|]. intros v Hv. now rewrite (H2 v e Hv eq_refl).
Qed.

Lemma lasso_max_tail_degenerate X y fit_intercept loss_func loss_kws w :
  no_penalized w ->
  (exists e, lasso_max_tail X y fit_intercept loss_func loss_kws (Some w) = Raise e)
  /\ (forall grad v,
        grad_at_zero X y fit_intercept loss_func loss_kws = Ok grad ->
        np_getmask grad (get_is_pen_mask w) = Ok v ->
        lasso_max_tail X y fit_intercept loss_func loss_kws (Some w)
        = Raise ValueError).
Proof.
  intros Hno. unfold lasso_max_tail.
  destruct (grad_at_zero X y fit_intercept loss_func loss_kws) as [grad|e]; simpl.
  - destruct (degenerate_bound grad w (fun r => np_max (nd_map fl_abs r)) Hno)
      as [H1 H2].
    + intros r Hr. apply np_max_empty. now rewrite flat_nd_map, Hr.
    + split; [exact H1|]. intros grad' v Hg. injection Hg as <-. apply H2.
  - split; [eauto | intros; discriminate].
Qed.

Lemma no_penalized_col (w : ndarray weight) (c : nat) (wc : list weight) :
  no_penalized w -> np_col None w c = Ok wc -> no_penalized (Arr1 wc).
Proof.
  unfold no_penalized. intros Hno H. destruct w as [l|W]; simpl in *; [discriminate|].
  destruct (c <? mcols W)%nat; [|discriminate]. injection H as <-.
  unfold col. apply Forall_map, Forall_forall. intros r Hr.
  destruct (nth_in_or_default c r None) as [Hin | ->]; [|reflexivity].
  rewrite Forall_forall in Hno. apply Hno. apply in_concat. eauto.
Qed.

Lemma lasso_max_arr1_degenerate X (l : list Q) fit_intercept loss_func loss_kws w :
  no_penalized w ->
  exists e, lasso_max X (Arr1 l) fit_intercept loss_func loss_kws (Some w) = Raise e.
Proof.
  intros Hno. rewrite lasso_max_unfold. unfold lasso_max_body.
  destruct (is_multi_response _); [eauto|].
  now apply lasso_max_tail_degenerate.
Qed.


Lemma lasso_max_degenerate X y fit_intercept loss_func loss_kws w :
  no_penalized w ->
  exists e, lasso_max X y fit_intercept loss_func loss_kws (Some w) = Raise e.
Proof.
  intros Hno. rewrite lasso_max_unfold. unfold lasso_max_body.
  destruct (is_multi_response y).
  - destruct y as [l|Y]; [eauto|].
    destruct (mcols Y) as [|n]; [simpl; eauto|].
    rewrite <- cons_seq. cbn [mapM].
    destruct (np_col None w 0) as [wc|e] eqn:Ec; simpl; [|eauto].
    destruct (lasso_max_arr1_degenerate X (col 0 0 Y) fit_intercept loss_func
                loss_kws (Arr1 wc)) as (e & He).
    { eapply no_penalized_col; eauto. }
    rewrite He. simpl. eauto.
  - now apply lasso_max_tail_degenerate.
Qed.

Lemma get_L1toL2_max_degenerate X y fit_intercept loss_func loss_kws w :
  no_penalized w ->
  (exists e, get_L1toL2_max X y fit_intercept loss_func loss_kws (Some w) = Raise e)
  /\ (forall grad row_norms v,
        assert_multi_resp loss_func = Ok tt ->
        grad_at_zero X y fit_intercept loss_func loss_kws = Ok grad ->
        row_norms_of grad = Ok row_norms ->
        np_getmask row_norms (get_is_pen_mask w) = Ok v ->
        get_L1toL2_max X y fit_intercept loss_func loss_kws (Some w)
        = Raise ValueError).
Proof.
  intros Hno. unfold get_L1toL2_max.
  destruct (assert_multi_resp loss_func) as [u|e] eqn:Ea; simpl;
    [|raised_before].
  destruct (grad_at_zero X y fit_intercept loss_func loss_kws) as [grad|e] eqn:Eg;
    simpl; [|raised_before].
  destruct (row_norms_of grad) as [row_norms|e] eqn:Er; simpl; [|raised_before].
  destruct (degenerate_bound row_norms w (fun r => py_max (flat r)) Hno) as [H1 H2].
  - intros r ->. reflexivity.
  - split; [exact H1|]. intros grad' rn v _ Hg Hr. injection Hg as <-.
    rewrite Er in Hr. injection Hr as <-. apply H2.
Qed.

Lemma group_lasso_max_degenerate X y groups fit_intercept loss_func loss_kws w :
  no_penalized w ->
  process_weights_group_lasso groups (Some w) = Some w ->
  (exists e, group_lasso_max X y groups fit_intercept loss_func loss_kws (Some w)
             = Raise e)
  /\ (forall grad group_norms v,
        grad_at_zero X y fit_intercept loss_func loss_kws = Ok grad ->
        mapM (fun grp_idxs => g <- take_group grad grp_idxs ;; Ok (np_linalg_norm g))
             groups = Ok group_norms ->
        np_getmask (Arr1 group_norms) (get_is_pen_mask w) = Ok v ->
        group_lasso_max X y groups fit_intercept loss_func loss_kws (Some w)
        = Raise ValueError).
Proof.
  intros Hno Hproc. unfold group_lasso_max.
  destruct (grad_at_zero X y fit_intercept loss_func loss_kws) as [grad|e] eqn:Eg;
    simpl; [|raised_before].
  destruct (mapM _ groups) as [group_norms|e] eqn:Em; simpl; [|raised_before].
  rewrite Hproc.
  destruct (degenerate_bound (Arr1 group_norms) w np_max Hno) as [H1 H2].
  - apply np_max_empty.
  - split; [exact H1|]. intros grad' gn v Hg Hn. injection Hg as <-.
    rewrite Em in Hn. injection Hn as <-. apply H2.
Qed.

Lemma nuclear_norm_max_degenerate X y fit_intercept loss_func loss_kws w :
  no_penalized w ->
  (exists e, nuclear_norm_max X y fit_intercept loss_func loss_kws (Some w) = Raise e)
  /\ (forall grad,
        assert_multi_resp loss_func = Ok tt ->
        grad_at_zero X y fit_intercept loss_func loss_kws = Ok grad ->
        nuclear_norm_max X y fit_intercept loss_func loss_kws (Some w)
        = Raise ValueError).
Proof.
  intros Hno. unfold nuclear_norm_max.
  destruct (assert_multi_resp loss_func) as [u|e] eqn:Ea; simpl;
    [|raised_before].
  destruct (grad_at_zero X y fit_intercept loss_func loss_kws) as [grad|e] eqn:Eg;
    simpl; [|raised_before].
  unfold get_is_pen_mask. rewrite np_getmask_self, (filter_no_penalized w Hno).
  simpl. split; [eauto | reflexivity].
Qed.

(** C3.  With a weights array in which no entry is penalized (each is
    [None], NaN or of magnitude at most machine epsilon), [lasso_max],
    [get_L1toL2_max], [group_lasso_max] (whose weights processing hands a
    supplied array on) and [nuclear_norm_max] all raise: none returns a
    value.  Once the gradient (and the norms taken from it) is computed and
    the mask fits it, the exception is the [ValueError] of a maximum, or
    minimum, over nothing. *)
Theorem bounds_raise_without_penalized
    X y groups fit_intercept loss_func loss_kws (w : ndarray weight) :
  no_penalized w ->
  ((exists e, lasso_max X y fit_intercept loss_func loss_kws (Some w) = Raise e)
   /\ (exists e, get_L1toL2_max X y fit_intercept loss_func loss_kws (Some w)
                 = Raise e)
   /\ (process_weights_group_lasso groups (Some w) = Some w ->
       exists e, group_lasso_max X y groups fit_intercept loss_func loss_kws (Some w)
                 = Raise e)
   /\ (exists e, nuclear_norm_max X y fit_intercept loss_func loss_kws (Some w)
                 = Raise e))
  /\ (forall grad v,
        is_multi_response y = false ->
        grad_at_zero X y fit_intercept loss_func loss_kws = Ok grad ->
        np_getmask grad (get_is_pen_mask w) = Ok v ->
        lasso_max X y fit_intercept loss_func loss_kws (Some w) = Raise ValueError)
  /\ (forall grad row_norms v,
        assert_multi_resp loss_func = Ok tt ->
        grad_at_zero X y fit_intercept loss_func loss_kws = Ok grad ->
        row_norms_of grad = Ok row_norms ->
        np_getmask row_norms (get_is_pen_mask w) = Ok v ->
        get_L1toL2_max X y fit_intercept loss_func loss_kws (Some w)
        = Raise ValueError)
  /\ (forall grad group_norms v,
        process_weights_group_lasso groups (Some w) = Some w ->
        grad_at_zero X y fit_intercept loss_func loss_kws = Ok grad ->
        mapM (fun grp_idxs => g <- take_group grad grp_idxs ;; Ok (np_linalg_norm g))
             groups = Ok group_norms ->
        np_getmask (Arr1 group_norms) (get_is_pen_mask w) = Ok v ->
        group_lasso_max X y groups fit_intercept loss_func loss_kws (Some w)
        = Raise ValueError)
  /\ (forall grad,
        assert_multi_resp loss_func = Ok tt ->
        grad_at_zero X y fit_intercept loss_func loss_kws = Ok grad ->
        nuclear_norm_max X y fit_intercept loss_func loss_kws (Some w)
        = Raise ValueError).
Proof.
  intros Hno.
  pose proof (lasso_max_degenerate X y fit_intercept loss_func loss_kws w Hno) as H1.
  destruct (lasso_max_tail_degenerate X y fit_intercept loss_func loss_kws w Hno)
    as [_ H1'].
  destruct (get_L1toL2_max_degenerate X y fit_intercept loss_func loss_kws w Hno)
    as [H2 H2'].
  pose proof (group_lasso_max_degenerate X y groups fit_intercept loss_func loss_kws
                w Hno) as H3.
  destruct (nuclear_norm_max_degenerate X y fit_intercept loss_func loss_kws w Hno)
    as [H4 H4'].
  split; [repeat split; try assumption; intros Hproc; now apply H3|].
  split.
  { intros grad v Hy Hg Hv. rewrite lasso_max_single by exact Hy. eapply H1'; eauto. }
  split; [exact H2'|]. split; [|exact H4'].
  intros grad group_norms v Hproc. now apply H3.
Qed.

(** *** Several responses *)

Lemma py_fold_Num (t : list Q) (x : Q) :
  fold_left (fun cur y => if fl_gt y cur then y else cur) (map Num t) (Num x)
  = Num (fold_left (fun cur y => if Qltb cur y then y else cur) t x).
Proof.
  revert x; induction t as [|y t IH]; intros x; simpl; [reflexivity|].
  destruct (Qltb x y); apply IH.
Qed.

Lemma py_fold_spec (t : list Q) (x : Q) :
  In (fold_left (fun cur y => if Qltb cur y then y else cur) t x) (x :: t)
  /\ x <= fold_left (fun cur y => if Qltb cur y then y else cur) t x
  /\ Forall (fun y => y <= fold_left (fun cur y => if Qltb cur y then y else cur) t x) t.
Proof.
  revert x; induction t as [|y t IH]; intros x; simpl.
  - split; [auto|]. split; [apply Qle_refl | constructor].
  - destruct (Qltb x y) eqn:E.
    + apply Qltb_lt in E. destruct (IH y) as (H1 & H2 & H3).
      split; [simpl in H1; tauto|]. split; [lra|]. now constructor.
    + apply Qltb_ge in E. destruct (IH x) as (H1 & H2 & H3).
      split; [simpl in H1; tauto|]. split; [exact H2|]. constructor; [lra | exact H3].
Qed.

Lemma py_max_Num_spec (qs : list Q) (m : fl) :
  py_max (map Num qs) = Ok m ->
  exists q, m = Num q /\ In q qs /\ Forall (fun q' => q' <= q) qs.
Proof.
  destruct qs as [|x t]; simpl; [discriminate|].
  rewrite py_fold_Num. intros H; injection H as <-.
  destruct (py_fold_spec t x) as (H1 & H2 & H3).
  eexists. split; [reflexivity|]. split; [exact H1|]. now constructor.
Qed.

Lemma all_Num_map (l : list fl) :
  Forall (fun y => exists q, y = Num q) l -> exists qs, l = map Num qs.
Proof.
  induction 1 as [|y l (q & ->) _ (qs & ->)]; [now exists [] | now exists (q :: qs)].
Qed.

Lemma Forall2_In_l {A B : Type} (R : A -> B -> Prop) l l' x :
  Forall2 R l l' -> In x l -> exists y, In y l' /\ R x y.
Proof.
  induction 1 as [|a b l l' Hab Hl IH]; intros Hin; [destruct Hin|].
  destruct Hin as [<- | Hin]; [exists b; simpl; auto|].
  destruct (IH Hin) as (y & Hy & HR). exists y. simpl. auto.
Qed.

Lemma Forall2_In_r {A B : Type} (R : A -> B -> Prop) l l' y :
  Forall2 R l l' -> In y l' -> exists x, In x l /\ R x y.
Proof.
  induction 1 as [|a b l l' Hab Hl IH]; intros Hin; [destruct Hin|].
  destruct Hin as [<- | Hin]; [exists a; simpl; auto|].
  destruct (IH Hin) as (x & Hx & HR). exists x. simpl. auto.
Qed.

Lemma py_fold_In (t : list fl) (x : fl) :
  In (fold_left (fun cur y => if fl_gt y cur then y else cur) t x) (x :: t).
Proof.
  revert x; induction t as [|y t IH]; intros x; simpl; [now left|].
  destruct (IH (if fl_gt y x then y else x)) as [E | Hin]; [|now right; right].
  rewrite <- E. destruct (fl_gt y x); [right; left | left]; reflexivity.
Qed.

(** Python's [max] returns one of the items. *)
Lemma py_max_In (ms : list fl) (m : fl) : py_max ms = Ok m -> In m ms.
Proof.
  destruct ms as [|x t]; simpl; [discriminate|].
  intros H. injection H as <-. apply py_fold_In.
Qed.

(** No item is greater than a NaN: Python's [max] keeps a NaN that comes
    first. *)
Lemma py_max_NaN_first (t : list fl) : py_max (NaN :: t) = Ok NaN.
Proof.
  simpl. f_equal. induction t as [|y t IH]; simpl; [reflexivity|].
  destruct y; exact IH.
Qed.

(** C2.  For a multi-response [y], [lasso_max] is Python's [max] of the
    list of [lasso_max] applied to [X], the column [y[:, c]] and the weight
    column [weights[:, c]], for [c] over the responses in order.  When it
    returns [m], every response has a bound and [m] is the bound of one of
    them; Python's [max] keeps a NaN bound of the first response, and
    when no bound is NaN, [m] is a number and none exceeds it. *)
Theorem lasso_max_multi_response X (Y : matrix Q) fit_intercept loss_func loss_kws
    (weights : option (ndarray weight)) :
  is_multi_response (Arr2 Y) = true ->
  let per_response := fun c : nat =>
    w <- match weights with
         | Some ws => wc <- np_col None ws c ;; Ok (Some (Arr1 wc))
         | None => Ok None
         end ;;
    lasso_max X (Arr1 (col 0 c Y)) fit_intercept loss_func loss_kws w in
  lasso_max X (Arr2 Y) fit_intercept loss_func loss_kws weights
  = (resp_maxes <- mapM per_response (seq 0 (mcols Y)) ;; py_max resp_maxes)
  /\ forall m,
       lasso_max X (Arr2 Y) fit_intercept loss_func loss_kws weights = Ok m ->
       (exists c, (c < mcols Y)%nat /\ per_response c = Ok m)
       /\ (forall c, (c < mcols Y)%nat -> exists b, per_response c = Ok b)
       /\ (per_response 0%nat = Ok NaN -> m = NaN)
       /\ ((forall c, (c < mcols Y)%nat -> per_response c <> Ok NaN) ->
           exists q,
             m = Num q
             /\ forall c q', (c < mcols Y)%nat ->
                             per_response c = Ok (Num q') -> q' <= q).
Proof.
  intros Hy per_response.
  assert (E : lasso_max X (Arr2 Y) fit_intercept loss_func loss_kws weights
              = (resp_maxes <- mapM per_response (seq 0 (mcols Y)) ;;
                 py_max resp_maxes)).
  { rewrite lasso_max_unfold. unfold lasso_max_body. rewrite Hy. reflexivity. }
  split; [exact E|]. intros m Hm. rewrite E in Hm.
  apply bind_ok_inv in Hm as (ms & Hms & Hmax).
  apply mapM_ok_Forall2 in Hms.
  split; [|split; [|split]].
  - destruct (Forall2_In_r _ _ _ m Hms) as (c & Hc & Hper);
      [now apply py_max_In|].
    exists c. apply in_seq in Hc. split; [lia | exact Hper].
  - intros c Hc.
    destruct (Forall2_In_l _ _ _ c Hms) as (y & _ & Hper); [apply in_seq; lia|].
    now exists y.
  - intros H0. destruct (mcols Y) as [|n]; cbn [seq] in Hms.
    + inversion Hms; subst. discriminate Hmax.
    + inversion Hms as [|c0 y0 cs t Hy0 Ht]; subst.
      rewrite H0 in Hy0. injection Hy0 as <-.
      rewrite py_max_NaN_first in Hmax. now injection Hmax as <-.
  - intros Hnum.
    assert (Hall : Forall (fun y => exists q, y = Num q) ms).
    { apply Forall_forall. intros y Hin.
      destruct (Forall2_In_r _ _ _ _ Hms Hin) as (c & Hc & Hper).
      apply in_seq in Hc. destruct y as [|q]; [|now exists q].
      exfalso. apply (Hnum c); [lia | exact Hper]. }
    destruct (all_Num_map ms Hall) as (qs & ->).
    destruct (py_max_Num_spec qs m Hmax) as (q & -> & Hq & Hle).
    exists q. split; [reflexivity|]. intros c q' Hc Hper.
    destruct (Forall2_In_l _ _ _ c Hms) as (y & Hin & Hper');
      [apply in_seq; lia|].
    rewrite Hper in Hper'. injection Hper' as <-.
    apply in_map_iff in Hin as (q0 & E0 & Hq0). injection E0 as ->.
    rewrite Forall_forall in Hle. now apply Hle.
Qed.


End Bounds.

(** *** Rescaled weights *)





Section Rescaling.

Variable c : Q.
Hypothesis c_pos : 0 < c.










Context {ext : Externals}.



End Rescaling.

Section Rescaled.

Context {ext : Externals}.


End Rescaled.

Lemma lasso_max_multi_response_witness :
  exists c,
    (c < 2)%nat
    /\ lasso_max (ext := sample_penmax_externals) (Mat 3 [[5; 100; 3]])
         (Arr1 (col 0 c (Mat 2 [[1; 2]]))) false "lin_reg" [] None
       = Ok (Num 200).
Proof.
  destruct (lasso_max_multi_response (ext := sample_penmax_externals)
              (Mat 3 [[5; 100; 3]]) (Mat 2 [[1; 2]]) false "lin_reg"%string []
              None eq_refl) as [_ H].
  destruct (H (Num 200) eq_refl) as [(c & Hc & Hper) _].
  exists c. split; [exact Hc | exact Hper].
Defined.

Lemma bounds_raise_without_penalized_witness :
  lasso_max (ext := sample_penmax_externals) (Mat 3 [[5; 100; 3]]) (Arr1 [1])
    false "lin_reg" [] (Some (Arr1 [Some (Num 0); None; Some NaN]))
  = Raise ValueError
  /\ nuclear_norm_max (ext := sample_penmax_externals) (Mat 3 [[5; 100; 3]])
       (Arr2 (Mat 2 [[1; 2]])) false "lin_reg_mr" []
       (Some (Arr1 [Some (Num 0); None; Some NaN]))
     = Raise ValueError.
Proof.
  assert (Hno : no_penalized (Arr1 [Some (Num 0); None; Some NaN]))
    by (repeat constructor).
  split.
  - destruct (bounds_raise_without_penalized (ext := sample_penmax_externals)
                (Mat 3 [[5; 100; 3]]) (Arr1 [1]) [[0%nat]; [1%nat]; [2%nat]]
                false "lin_reg"%string [] _ Hno) as (_ & H & _).
    apply (H (Arr1 [5; 100; 3]) (Arr1 [])); reflexivity.
  - destruct (bounds_raise_without_penalized (ext := sample_penmax_externals)
                (Mat 3 [[5; 100; 3]]) (Arr2 (Mat 2 [[1; 2]]))
                [[0%nat]; [1%nat]; [2%nat]]
                false "lin_reg_mr"%string [] _ Hno) as (_ & _ & _ & _ & H).
    apply (H (Arr2 (Mat 2 [[5; 10]; [100; 200]; [3; 6]]))); reflexivity.
Defined.

End PenMaxFacts.

(** ** More on the largest-penalty bounds and the gradients at zero *)

Module PenMaxBounds.

Import PenMax PenMaxFacts.


Section Unweighted.

Context {ext : Externals}.

(** X1.  Without weights the bound for one response is the largest gradient
    magnitude; a gradient with no entry has none. *)
Theorem lasso_max_unweighted X y fit_intercept loss_func loss_kws
    (grad : ndarray Q) :
  is_multi_response y = false ->
  grad_at_zero X y fit_intercept loss_func loss_kws = Ok grad ->
  (flat grad = [] ->
   lasso_max X y fit_intercept loss_func loss_kws None = Raise ValueError)
  /\ (flat grad <> [] ->
      exists m,
        lasso_max X y fit_intercept loss_func loss_kws None = Ok (Num m)
        /\ Forall (fun gj => Qabs gj <= m) (flat grad)
        /\ exists gj, In gj (flat grad) /\ m == Qabs gj).
Proof.
  intros Hy Hg. rewrite (lasso_max_single X y _ _ _ _ Hy).
  unfold lasso_max_tail. rewrite Hg. simpl. unfold np_max.
  rewrite !flat_nd_map, map_map.
  destruct (flat grad) as [|g0 gs].
  - split; [reflexivity | congruence].
  - split; [discriminate|]. intros _. cbn [map fl_abs].
    rewrite <- (map_map Qabs Num), fold_fl_max_Num.
    exists (fold_left Qmax (map Qabs gs) (Qabs g0)). split; [reflexivity|].
    destruct (fold_Qmax_ge (map Qabs gs) (Qabs g0)) as [H1 H2]. split.
    + constructor; [exact H1|]. rewrite Forall_map in H2. exact H2.
    + destruct (fold_Qmax_attained (map Qabs gs) (Qabs g0)) as (x & Hx & E).
      change (Qabs g0 :: map Qabs gs) with (map Qabs (g0 :: gs)) in Hx.
      apply in_map_iff in Hx as (gj & <- & Hin). eauto.
Qed.





End Unweighted.

(** *** Weights that are not penalized *)

Lemma div_penalized_same_penalized (values : ndarray Q) (w w' : ndarray weight) :
  get_is_pen_mask w = get_is_pen_mask w' ->
  filter is_nonzero_weight (flat w) = filter is_nonzero_weight (flat w') ->
  div_penalized values w = div_penalized values w'.
Proof. intros Hm Hf. now rewrite !div_penalized_eq, Hm, Hf. Qed.

Lemma lasso_max_tail_same_penalized {ext : Externals}
    X y fit_intercept loss_func loss_kws (w w' : ndarray weight) :
  get_is_pen_mask w = get_is_pen_mask w' ->
  filter is_nonzero_weight (flat w) = filter is_nonzero_weight (flat w') ->
  lasso_max_tail X y fit_intercept loss_func loss_kws (Some w)
  = lasso_max_tail X y fit_intercept loss_func loss_kws (Some w').
Proof.
  intros Hm Hf. unfold lasso_max_tail.
  destruct (grad_at_zero X y fit_intercept loss_func loss_kws) as [grad|e];
    [|reflexivity].
  simpl. now rewrite (div_penalized_same_penalized grad w w' Hm Hf).
Qed.

Section Replace.

Variable f : weight -> weight.
Hypothesis f_keeps : forall x, is_nonzero_weight x = true -> f x = x.
Hypothesis f_unpen :
  forall x, is_nonzero_weight x = false -> is_nonzero_weight (f x) = false.

Lemma f_mask (x : weight) : is_nonzero_weight (f x) = is_nonzero_weight x.
Proof.
  destruct (is_nonzero_weight x) eqn:E; [now rewrite f_keeps | now apply f_unpen].
Qed.

Lemma f_filter (l : list weight) :
  filter is_nonzero_weight (map f l) = filter is_nonzero_weight l.
Proof.
  induction l as [|x l IH]; simpl; [reflexivity|].
  rewrite f_mask, IH. destruct (is_nonzero_weight x) eqn:E; [|reflexivity].
  now rewrite f_keeps.
Qed.

Lemma f_get_is_pen_mask (w : ndarray weight) :
  get_is_pen_mask (nd_map f w) = get_is_pen_mask w.
Proof.
  unfold get_is_pen_mask. rewrite nd_map_nd_map.
  apply nd_map_ext_in. intros x _. apply f_mask.
Qed.

Lemma f_nth (c : nat) (r : list weight) :
  is_nonzero_weight (nth c (map f r) None) = is_nonzero_weight (nth c r None)
  /\ (is_nonzero_weight (nth c r None) = true ->
      nth c (map f r) None = nth c r None).
Proof.
  destruct (Nat.lt_ge_cases c (length r)) as [H|H].
  - rewrite (nth_map_lt f r c None None H). split; [apply f_mask | apply f_keeps].
  - rewrite !nth_overflow by (try rewrite length_map; exact H).
    split; [reflexivity | discriminate].
Qed.

Lemma f_col_mask (c : nat) (rows : list (list weight)) :
  map is_nonzero_weight (map (fun r => nth c (map f r) None) rows)
  = map is_nonzero_weight (map (fun r => nth c r None) rows).
Proof.
  rewrite !map_map. apply map_ext. intros r. apply f_nth.
Qed.

Lemma f_col_filter (c : nat) (rows : list (list weight)) :
  filter is_nonzero_weight (map (fun r => nth c (map f r) None) rows)
  = filter is_nonzero_weight (map (fun r => nth c r None) rows).
Proof.
  induction rows as [|r rows IH]; simpl; [reflexivity|].
  destruct (f_nth c r) as [Hm Hk]. rewrite Hm, IH.
  destruct (is_nonzero_weight (nth c r None)) eqn:E; [|reflexivity].
  now rewrite Hk.
Qed.

Context {ext : Externals}.

(** X3.  The bound does not depend on what the entries that are not penalized
    hold: replacing each of them by any other entry that is not penalized
    (a zero by [None], a NaN by a tiny number) leaves [lasso_max] as it
    is, error or value. *)
Theorem lasso_max_ignores_unpenalized X y fit_intercept loss_func loss_kws
    (w : ndarray weight) :
  lasso_max X y fit_intercept loss_func loss_kws (Some (nd_map f w))
  = lasso_max X y fit_intercept loss_func loss_kws (Some w).
Proof.
  rewrite !lasso_max_unfold. unfold lasso_max_body.
  destruct (is_multi_response y).
  - destruct y as [l|Y]; [reflexivity|]. f_equal.
    apply mapM_ext. intros c.
    destruct w as [l|W]; simpl; [reflexivity|].
    destruct (c <? mcols W)%nat; [|reflexivity]. simpl.
    rewrite !lasso_max_unfold. unfold lasso_max_body.
    destruct (is_multi_response _); [reflexivity|].
    unfold col. simpl. rewrite map_map.
    apply lasso_max_tail_same_penalized.
    + unfold get_is_pen_mask. simpl. f_equal. apply f_col_mask.
    + simpl. apply f_col_filter.
  - apply lasso_max_tail_same_penalized.
    + apply f_get_is_pen_mask.
    + rewrite flat_nd_map. apply f_filter.
Qed.

End Replace.

Section Misuse.

Context {ext : Externals}.

(** X4.  A weights vector whose length is not that of the gradient vector makes
    the masked selection fail. *)
Theorem lasso_max_misaligned_weights X y fit_intercept loss_func loss_kws
    (g : list Q) (ws : list weight) :
  is_multi_response y = false ->
  grad_at_zero X y fit_intercept loss_func loss_kws = Ok (Arr1 g) ->
  length ws <> length g ->
  lasso_max X y fit_intercept loss_func loss_kws (Some (Arr1 ws))
  = Raise IndexError.
Proof.
  intros Hy Hg Hlen. rewrite (lasso_max_single X y _ _ _ _ Hy).
  unfold lasso_max_tail. rewrite Hg. simpl.
  unfold div_penalized, get_is_pen_mask. simpl. rewrite length_map.
  destruct (length g =? length ws)%nat eqn:E; [|reflexivity].
  apply Nat.eqb_eq in E. congruence.
Qed.

(** X5.  [get_L1toL2_max] and [nuclear_norm_max] assert the loss to be a
    multi-response one before anything else. *)
Theorem multi_response_bounds_assert X y fit_intercept loss_func loss_kws weights :
  ~ In loss_func _MULTI_RESP_LOSSES ->
  get_L1toL2_max X y fit_intercept loss_func loss_kws weights = Raise AssertionError
  /\ nuclear_norm_max X y fit_intercept loss_func loss_kws weights
     = Raise AssertionError.
Proof.
  intros Hin.
  assert (E : assert_multi_resp loss_func = Raise AssertionError).
  { unfold assert_multi_resp.
    destruct (existsb (String.eqb loss_func) _MULTI_RESP_LOSSES) eqn:Ex;
      [|reflexivity].
    apply existsb_exists in Ex as (x & Hx & Heq).
    apply String.eqb_eq in Heq. subst x. contradiction. }
  unfold get_L1toL2_max, nuclear_norm_max. rewrite E. split; reflexivity.
Qed.


End Misuse.

(** *** The dispatch on the loss name *)

Lemma XT_matmul_supported X y : not_unsupported (XT_matmul X y).
Proof.
  intros msg. unfold XT_matmul. destruct y as [v|Y].
  - destruct (_ =? _)%nat; discriminate.
  - destruct (_ =? _)%nat; discriminate.
Qed.

Lemma np_sub_supported a b : not_unsupported (np_sub a b).
Proof.
  intros msg. unfold np_sub, np_broadcast.
  destruct (bc_dim _ _); [destruct (bc_dim _ _)|]; discriminate.
Qed.

Lemma bind_supported {A B : Type} (r : result A) (k : A -> result B) :
  not_unsupported r -> (forall a, not_unsupported (k a)) ->
  not_unsupported (bind r k).
Proof.
  intros Hr Hk msg. destruct r as [a|e]; simpl; [apply Hk|].
  intros H. injection H as ->. now apply (Hr msg).
Qed.

Lemma ok_supported {A : Type} (a : A) : not_unsupported (Ok a).
Proof. intros msg. discriminate. Qed.

Lemma call_kw0_supported {A : Type} (kws : kwargs) (r : result A) :
  not_unsupported r -> not_unsupported (call_kw0 kws r).
Proof. intros Hr. destruct kws; [exact Hr | intros msg; discriminate]. Qed.

Lemma call_kw1_supported {A : Type} (name : string) (kws : kwargs)
    (k : Q -> result A) :
  (forall v, not_unsupported (k v)) -> not_unsupported (call_kw1 name kws k).
Proof.
  intros Hk msg. unfold call_kw1.
  destruct kws as [|[key v] [|]]; try discriminate.
  destruct (String.eqb key name); [apply Hk | discriminate].
Qed.

Create HintDb supported.

#[local] Hint Resolve XT_matmul_supported np_sub_supported ok_supported
  call_kw0_supported call_kw1_supported : supported.

Section Dispatch.

Context {ext : Externals}.

Lemma g0_lin_reg_supported X y fi : not_unsupported (g0_lin_reg X y fi).
Proof.
  unfold g0_lin_reg. apply bind_supported; [destruct fi|]; auto with supported.
Qed.

Lemma g0_lin_reg_mr_supported X y fi : not_unsupported (g0_lin_reg_mr X y fi).
Proof.
  unfold g0_lin_reg_mr. apply bind_supported; [destruct fi|]; auto with supported.
Qed.

Lemma g0_log_reg_supported X y fi : not_unsupported (g0_log_reg X y fi).
Proof.
  unfold g0_log_reg. apply bind_supported; [destruct fi|]; auto with supported.
Qed.

Lemma g0_multinomial_supported X y fi : not_unsupported (g0_multinomial X y fi).
Proof.
  unfold g0_multinomial. apply bind_supported.
  - destruct fi; [auto with supported|]. destruct y; [|auto with supported].
    intros msg. discriminate.
  - intros c. apply bind_supported; [auto with supported|].
    intros d. apply bind_supported; auto with supported.
Qed.

Lemma g0_poisson_supported X y fi : not_unsupported (g0_poisson X y fi).
Proof.
  unfold g0_poisson. apply bind_supported; [destruct fi; auto with supported|].
  intros d. apply bind_supported; auto with supported.
Qed.

(** X6.  [grad_at_zero] raises [NotImplementedError] exactly for the names that
    none of its branches tests; the nine it does test are the ones below,
    with ['g0_poisson_mr'] where ['poisson_mr'] would be. *)
Theorem grad_at_zero_unsupported_iff X y fit_intercept loss_func loss_kws :
  (~ In loss_func dispatched_names ->
   grad_at_zero X y fit_intercept loss_func loss_kws
   = Raise (NotImplementedError (loss_func ++ " not supported")))
  /\ (In loss_func dispatched_names ->
      forall msg, grad_at_zero X y fit_intercept loss_func loss_kws
                  <> Raise (NotImplementedError msg)).
Proof.
  split.
  - intros Hnot.
    assert (Hf : forall s, In s dispatched_names -> String.eqb loss_func s = false).
    { intros s Hs. apply String.eqb_neq. intros ->. contradiction. }
    unfold grad_at_zero.
    rewrite !Hf by (unfold dispatched_names; simpl; tauto). reflexivity.
  - intros Hin. unfold dispatched_names in Hin. simpl in Hin.
    destruct Hin as [<- | [<- | [<- | [<- | [<- | [<- | [<- | [<- | [<- | []]]]]]]]]].
    + change (not_unsupported (g0_lin_reg X y fit_intercept)).
      apply g0_lin_reg_supported.
    + change (not_unsupported (g0_lin_reg_mr X y fit_intercept)).
      apply g0_lin_reg_mr_supported.
    + change (not_unsupported
                (call_kw1 "knot" loss_kws (g0_huber_reg X y fit_intercept))).
      apply call_kw1_supported. intros v msg. discriminate.
    + change (not_unsupported
                (call_kw1 "knot" loss_kws (g0_huber_reg_mr X y fit_intercept))).
      apply call_kw1_supported. intros v msg. discriminate.
    + change (not_unsupported (g0_log_reg X y fit_intercept)).
      apply g0_log_reg_supported.
    + change (not_unsupported (g0_multinomial X y fit_intercept)).
      apply g0_multinomial_supported.
    + change (not_unsupported (call_kw0 loss_kws (g0_poisson X y fit_intercept))).
      apply call_kw0_supported, g0_poisson_supported.
    + change (not_unsupported (call_kw0 loss_kws (g0_poisson X y fit_intercept))).
      apply call_kw0_supported, g0_poisson_supported.
    + change (not_unsupported
                (call_kw1 "quantile" loss_kws (g0_quantile X y fit_intercept))).
      apply call_kw1_supported. intros v. unfold g0_quantile.
      apply XT_matmul_supported.
Qed.

(** X7.  Keyword arguments of the loss: the losses with none of their own accept
    no key ([lin_reg] never sees them), and the Huber and quantile losses
    need exactly their one key; anything else is a [TypeError]. *)
Theorem grad_at_zero_loss_kws X y fit_intercept (loss_kws : kwargs) :
  grad_at_zero X y fit_intercept "lin_reg" loss_kws
  = grad_at_zero X y fit_intercept "lin_reg" []
  /\ (loss_kws <> [] ->
      grad_at_zero X y fit_intercept "poisson" loss_kws = Raise TypeError)
  /\ ((forall knot, loss_kws <> [("knot"%string, knot)]) ->
      grad_at_zero X y fit_intercept "huber_reg" loss_kws = Raise TypeError
      /\ grad_at_zero X y fit_intercept "huber_reg_mr" loss_kws = Raise TypeError)
  /\ ((forall q, loss_kws <> [("quantile"%string, q)]) ->
      grad_at_zero X y fit_intercept "quantile" loss_kws = Raise TypeError)
  /\ (forall knot, grad_at_zero X y fit_intercept "huber_reg" [("knot"%string, knot)]
                   = g0_huber_reg X y fit_intercept knot)
  /\ (forall q, grad_at_zero X y fit_intercept "quantile" [("quantile"%string, q)]
                = g0_quantile X y fit_intercept q).
Proof.
  split; [reflexivity|]. split.
  { intros H. destruct loss_kws; [congruence | reflexivity]. }
  assert (K : forall (name : string) (k : Q -> result (ndarray Q)),
             (forall v, loss_kws <> [(name, v)]) ->
             call_kw1 name loss_kws k = Raise TypeError).
  { intros name k H. unfold call_kw1.
    destruct loss_kws as [|[key v] [|]]; try reflexivity.
    destruct (String.eqb key name) eqn:E; [|reflexivity].
    apply String.eqb_eq in E. subst. now destruct (H v). }
  split; [intros H; split; apply K, H|].
  split; [intros H; apply K, H|].
  split; reflexivity.
Qed.

End Dispatch.

(** *** The nuclear-norm and the group bounds *)

Lemma fold_fl_min_Num (qs : list Q) (q0 : Q) :
  fold_left fl_min (map Num qs) (Num q0) = Num (fold_left Qmin qs q0).
Proof.
  revert q0; induction qs as [|q qs IH]; intros q0; simpl; [reflexivity | apply IH].
Qed.

Lemma fold_Qmin_le (qs : list Q) (q0 : Q) :
  fold_left Qmin qs q0 <= q0
  /\ Forall (fun q => fold_left Qmin qs q0 <= q) qs.
Proof.
  revert q0; induction qs as [|q qs IH]; intros q0; simpl.
  - split; [apply Qle_refl | constructor].
  - destruct (IH (Qmin q0 q)) as [H1 H2].
    pose proof (Q.le_min_l q0 q). pose proof (Q.le_min_r q0 q).
    split; [lra|]. constructor; [lra | exact H2].
Qed.

Lemma fold_Qmin_attained (qs : list Q) (q0 : Q) :
  exists q, In q (q0 :: qs) /\ fold_left Qmin qs q0 == q.
Proof.
  revert q0; induction qs as [|q qs IH]; intros q0; simpl.
  - exists q0. split; [auto | reflexivity].
  - destruct (IH (Qmin q0 q)) as (x & [Hx | Hx] & E).
    + destruct (Q.min_dec q0 q) as [E'|E'].
      * exists q0. split; [auto|]. rewrite E, <- Hx. exact E'.
      * exists q. split; [auto|]. rewrite E, <- Hx. exact E'.
    + exists x. auto.
Qed.

Lemma mapM_raise_uniform {A B : Type} (f : A -> result B) (l : list A) (E : exn) :
  (forall x e, f x = Raise e -> e = E) ->
  (exists x e, In x l /\ f x = Raise e) ->
  mapM f l = Raise E.
Proof.
  intros Hu (x & e & Hin & Hx).
  induction l as [|a l IH]; [destruct Hin|]. simpl.
  destruct (f a) as [b|e'] eqn:Ea; simpl.
  - destruct Hin as [-> | Hin]; [congruence|]. now rewrite (IH Hin).
  - now rewrite (Hu a e' Ea).
Qed.

Section Groups.

Context {ext : Externals}.

(** X8.  With weights, [nuclear_norm_max] divides the leading singular value by
    the smallest penalized weight, sign included. *)
Theorem nuclear_norm_max_weighted X y fit_intercept loss_func loss_kws
    (grad : ndarray Q) (w : ndarray weight) :
  In loss_func _MULTI_RESP_LOSSES ->
  grad_at_zero X y fit_intercept loss_func loss_kws = Ok grad ->
  (exists x, In x (flat w) /\ is_nonzero_weight x = true) ->
  exists q,
    nuclear_norm_max X y fit_intercept loss_func loss_kws (Some w)
    = Ok (Num (leading_sval grad / q))
    /\ (exists q', In (Some (Num q')) (flat w) /\ eps < Qabs q' /\ q == q')
    /\ (forall q', In (Some (Num q')) (flat w) -> eps < Qabs q' -> q <= q').
Proof.
  intros Hin Hg (x0 & Hx0 & Hpen0).
  assert (Ea : assert_multi_resp loss_func = Ok tt).
  { unfold assert_multi_resp.
    destruct (existsb (String.eqb loss_func) _MULTI_RESP_LOSSES) eqn:Ex;
      [reflexivity|].
    assert (existsb (String.eqb loss_func) _MULTI_RESP_LOSSES = true); [|congruence].
    apply existsb_exists. exists loss_func. split; [exact Hin|].
    apply String.eqb_refl. }
  unfold nuclear_norm_max. rewrite Ea, Hg. simpl.
  unfold get_is_pen_mask. rewrite np_getmask_self. simpl.
  set (L := filter is_nonzero_weight (flat w)).
  set (val := fun x : weight => match x with Some (Num q) => q | _ => 0 end).
  assert (HL : map (fun x : weight =>
                      match x with Some v => Ok v | None => Raise TypeError end) L
               = map (fun x => Ok (Num (val x))) L).
  { apply map_ext_in. intros x Hx. apply filter_In in Hx as [_ Hx].
    apply is_nonzero_weight_spec in Hx as (q & -> & _). reflexivity. }
  unfold weight_values. simpl. rewrite HL, mapM_id_map_ok. simpl.
  unfold np_min. simpl.
  assert (HL0 : In x0 L) by (apply filter_In; auto).
  destruct L as [|x1 L'] eqn:EL; [destruct HL0|].
  cbn [map]. rewrite <- (map_map val Num), fold_fl_min_Num. simpl.
  exists (fold_left Qmin (map val L') (val x1)). split; [reflexivity|].
  assert (Hval : forall x, In x (x1 :: L') ->
                   exists q', x = Some (Num q') /\ val x = q'
                              /\ In (Some (Num q')) (flat w) /\ eps < Qabs q').
  { intros x Hx. rewrite <- EL in Hx. apply filter_In in Hx as [Hin' Hx].
    apply is_nonzero_weight_spec in Hx as (q' & -> & Hq'). exists q'. auto. }
  split.
  - destruct (fold_Qmin_attained (map val L') (val x1)) as (v & Hv & E).
    change (val x1 :: map val L') with (map val (x1 :: L')) in Hv.
    apply in_map_iff in Hv as (x & <- & Hx).
    destruct (Hval x Hx) as (q' & -> & Hv & Hin' & Hq'). exists q'. auto.
  - intros q' Hin' Hq'.
    assert (HinL : In (Some (Num q')) (x1 :: L')).
    { rewrite <- EL. apply filter_In. split; [exact Hin'|].
      simpl. now apply Qltb_lt. }
    destruct (fold_Qmin_le (map val L') (val x1)) as [H1 H2].
    destruct HinL as [E1 | HinL]; [subst x1; exact H1|].
    rewrite Forall_forall in H2. apply (H2 (val (Some (Num q')))).
    now apply in_map.
Qed.

Lemma take_group_raise grad grp e :
  take_group grad grp = Raise e -> e = IndexError.
Proof.
  unfold take_group. destruct grad as [l|M].
  - induction grp as [|i grp IH]; simpl; [discriminate|].
    destruct (nth_error l i); simpl; [|congruence].
    destruct (mapM _ grp); simpl; [discriminate | exact IH].
  - destruct (mapM _ grp) as [rows|e'] eqn:Em; simpl; [discriminate|].
    intros H; injection H as <-. revert e' Em.
    induction grp as [|i grp IH]; simpl; [discriminate|].
    destruct (nth_error (mrows M) i); simpl; [|congruence].
    destruct (mapM _ grp); simpl; [discriminate|]. intros e' H.
    injection H as <-. now apply IH.
Qed.

Lemma take_group_out_of_range grad grp i :
  In i grp -> (np_len grad <= i)%nat -> take_group grad grp = Raise IndexError.
Proof.
  intros Hin Hi. unfold take_group. destruct grad as [l|M]; simpl in Hi.
  - apply mapM_raise_uniform.
    + intros x e. destruct (nth_error l x); congruence.
    + exists i, IndexError. split; [exact Hin|].
      apply nth_error_None in Hi. now rewrite Hi.
  - rewrite (mapM_raise_uniform _ grp IndexError); [reflexivity | |].
    + intros x e. destruct (nth_error (mrows M) x); congruence.
    + exists i, IndexError. split; [exact Hin|].
      apply nth_error_None in Hi. now rewrite Hi.
Qed.

(** X9.  A group that names a feature index beyond the gradient makes
    [group_lasso_max] raise [IndexError]. *)
Theorem group_lasso_max_index_error X y groups fit_intercept loss_func loss_kws
    weights (grad : ndarray Q) :
  grad_at_zero X y fit_intercept loss_func loss_kws = Ok grad ->
  (exists grp i, In grp groups /\ In i grp /\ (np_len grad <= i)%nat) ->
  group_lasso_max X y groups fit_intercept loss_func loss_kws weights
  = Raise IndexError.
Proof.
  intros Hg (grp & i & Hgrp & Hi & Hlen). unfold group_lasso_max.
  rewrite Hg. simpl.
  rewrite (mapM_raise_uniform _ groups IndexError); [reflexivity | |].
  - intros x e. destruct (take_group grad x) as [g|e'] eqn:Et; simpl; [discriminate|].
    intros H; injection H as <-. now apply take_group_raise in Et.
  - exists grp, IndexError. split; [exact Hgrp|].
    now rewrite (take_group_out_of_range grad grp i Hi Hlen).
Qed.

(** X10.  When the weights processing yields no weights, [group_lasso_max] is the
    largest of the group norms; with no group at all there is no such
    norm. *)
Theorem group_lasso_max_unweighted X y groups fit_intercept loss_func loss_kws
    weights (grad : ndarray Q) (group_norms : list Q) :
  grad_at_zero X y fit_intercept loss_func loss_kws = Ok grad ->
  process_weights_group_lasso groups weights = None ->
  mapM (fun grp_idxs => g <- take_group grad grp_idxs ;; Ok (np_linalg_norm g))
       groups = Ok group_norms ->
  (groups = [] ->
   group_lasso_max X y groups fit_intercept loss_func loss_kws weights
   = Raise ValueError)
  /\ (groups <> [] ->
      exists m,
        group_lasso_max X y groups fit_intercept loss_func loss_kws weights
        = Ok (Num m)
        /\ Forall (fun n => n <= m) group_norms
        /\ exists n, In n group_norms /\ m == n).
Proof.
  intros Hg Hp Hn. unfold group_lasso_max. rewrite Hg. simpl.
  rewrite Hn. simpl. rewrite Hp. simpl. unfold np_max. simpl.
  destruct groups as [|grp groups'].
  - simpl in Hn. injection Hn as <-. split; [reflexivity | congruence].
  - split; [discriminate|]. intros _.
    destruct group_norms as [|n0 ns].
    { apply mapM_ok_Forall2 in Hn. inversion Hn. }
    simpl. rewrite fold_fl_max_Num.
    exists (fold_left Qmax ns n0). split; [reflexivity|].
    destruct (fold_Qmax_ge ns n0) as [H1 H2]. split; [now constructor|].
    destruct (fold_Qmax_attained ns n0) as (x & Hx & E). eauto.
Qed.

End Groups.

Section Gradients.

Context {ext : Externals}.

Lemma nth_map_seq {A : Type} (f : nat -> A) (d : A) (c m : nat) :
  (c < m)%nat -> nth c (map f (seq 0 m)) d = f c.
Proof.
  intros H. rewrite (nth_map_lt f _ c 0%nat d) by now rewrite length_seq.
  now rewrite seq_nth.
Qed.

Lemma mapM_ok_map {A B : Type} (h : A -> B) (l : list A) :
  mapM (fun x => Ok (h x)) l = Ok (map h l).
Proof.
  induction l as [|x l IH]; simpl; [reflexivity | now rewrite IH].
Qed.

Lemma concat_map_singleton {A B : Type} (h : A -> B) (l : list A) :
  concat (map (fun x => [h x]) l) = map h l.
Proof.
  induction l as [|x l IH]; simpl; [reflexivity | now rewrite IH].
Qed.

Lemma map_nth_seq {A : Type} (d : A) (l : list A) :
  map (fun j => nth j l d) (seq 0 (length l)) = l.
Proof.
  apply (nth_ext _ _ d d).
  - now rewrite length_map, length_seq.
  - intros i Hi. rewrite length_map, length_seq in Hi.
    now rewrite nth_map_seq.
Qed.

Lemma np_vstack_vectors {A : Type} (h : A -> list Q) (l : list A) (k : nat) :
  l <> [] -> (forall x, length (h x) = k) ->
  np_vstack (map (fun x => Arr1 (h x)) l) = Ok (Mat k (map h l)).
Proof.
  intros Hl Hk.
  assert (Hrows : concat (map (fun a : ndarray Q => mrows (as_matrix a))
                            (map (fun x => Arr1 (h x)) l)) = map h l).
  { clear Hl. induction l as [|a l IH]; simpl; [reflexivity | now rewrite IH]. }
  assert (Hall : forallb (fun r => (length r =? k)%nat) (map h l) = true).
  { apply forallb_forall. intros r Hr. apply in_map_iff in Hr as (j & <- & _).
    rewrite Hk. apply Nat.eqb_refl. }
  unfold np_vstack. rewrite Hrows.
  destruct l as [|a l]; [congruence|].
  cbn [map as_matrix mcols]. rewrite Hk.
  change (h a :: map h l) with (map h (a :: l)). now rewrite Hall.
Qed.

Lemma g0_poisson_vector (X : matrix Q) (fit_intercept : bool) :
  exists G : list Q -> list Q,
    (forall zc, length (G zc) = mcols X)
    /\ forall zc,
         g0_poisson X (Arr1 zc) fit_intercept
         = if (length zc =? shape0 X)%nat then Ok (Arr1 (G zc))
           else Raise ValueError.
Proof.
  exists (fun zc =>
            map (fun v => v / Qnat (shape0 X))
              (map (fun j => dot (col 0 j X)
                       (if fit_intercept
                        then map (fun v => np_mean (Arr1 zc) - v) zc
                        else map (fun p => fst p - snd p)
                               (combine (repeat 1 (length zc)) zc)))
                   (seq 0 (mcols X)))).
  split.
  - intros zc. now rewrite !length_map, length_seq.
  - intros zc. unfold g0_poisson. destruct fit_intercept; simpl.
    + rewrite length_map. destruct (length zc =? shape0 X)%nat; reflexivity.
    + unfold np_sub. rewrite np_broadcast_arr1 by apply repeat_length. simpl.
      rewrite length_map, length_combine, repeat_length, Nat.min_id.
      destruct (length zc =? shape0 X)%nat; reflexivity.
Qed.

Lemma reserved_key (kws : kwargs) :
  existsb (fun kv => existsb (String.eqb (fst kv))
                       ["g0_getter"; "X"; "y"; "fit_intercept"]%string) kws = true
  <-> exists k v, In (k, v) kws
                  /\ In k ["g0_getter"; "X"; "y"; "fit_intercept"]%string.
Proof.
  rewrite existsb_exists. split.
  - intros ([k v] & Hin & Hk). apply existsb_exists in Hk as (n & Hn & E).
    apply String.eqb_eq in E. simpl in E. subst n. now exists k, v.
  - intros (k & v & Hin & Hk). exists (k, v). split; [exact Hin|].
    apply existsb_exists. exists k. split; [exact Hk | apply String.eqb_refl].
Qed.

Lemma no_reserved_key (kws : kwargs) :
  (forall k v, In (k, v) kws ->
               ~ In k ["g0_getter"; "X"; "y"; "fit_intercept"]%string) ->
  existsb (fun kv => existsb (String.eqb (fst kv))
                       ["g0_getter"; "X"; "y"; "fit_intercept"]%string) kws = false.
Proof.
  intros H. destruct (existsb _ kws) eqn:E; [|reflexivity].
  apply reserved_key in E as (k & v & Hin & Hk). now destruct (H k v Hin).
Qed.

(** X13.  [g0_poisson_mr] stacks the single-response Poisson gradient column by
    column: without keyword arguments, column [c] of its result is
    [g0_poisson(X, y[:, c])], error included, a response with no column is
    a [ValueError] and a response with one axis an [IndexError].  A keyword
    argument is always an error: a [TypeError] for one of the names the
    function passes itself, whatever the response, and for any other on
    the first column; with none of those names, the errors of a response
    without columns or with one axis come first. *)
Theorem g0_poisson_mr_columns (X Y : matrix Q) (fit_intercept : bool) :
  (forall c, (c < mcols Y)%nat ->
     (r <- g0_poisson_mr X (Arr2 Y) fit_intercept [] ;; np_col 0 r c)
     = (r <- g0_poisson X (Arr1 (col 0 c Y)) fit_intercept ;; Ok (flat r)))
  /\ (forall kws,
        (forall k v, In (k, v) kws ->
                     ~ In k ["g0_getter"; "X"; "y"; "fit_intercept"]%string) ->
        (mcols Y = 0%nat ->
         g0_poisson_mr X (Arr2 Y) fit_intercept kws = Raise ValueError)
        /\ (forall l, g0_poisson_mr X (Arr1 l) fit_intercept kws = Raise IndexError)
        /\ (kws <> [] -> (0 < mcols Y)%nat ->
            g0_poisson_mr X (Arr2 Y) fit_intercept kws = Raise TypeError))
  /\ (forall y kws k v,
        In (k, v) kws -> In k ["g0_getter"; "X"; "y"; "fit_intercept"]%string ->
        g0_poisson_mr X y fit_intercept kws = Raise TypeError).
Proof.
  split; [|split].
  - intros c Hc.
    destruct (g0_poisson_vector X fit_intercept) as (G & HG & HP).
    unfold g0_poisson_mr, get_g0_multi_response. cbn [existsb].
    cbn [call_kw0].
    assert (Hlen : forall j, length (col 0 j Y) = shape0 Y)
      by (intros j; apply length_map).
    rewrite (mapM_ext _ (fun j => if (shape0 Y =? shape0 X)%nat
                                  then Ok (Arr1 (G (col 0 j Y)))
                                  else Raise ValueError))
      by (intros j; now rewrite HP, Hlen).
    rewrite HP, Hlen.
    destruct (shape0 Y =? shape0 X)%nat.
    + rewrite mapM_ok_map. cbn [bind].
      rewrite (np_vstack_vectors (fun j => G (col 0 j Y)) _ (mcols X));
        [|destruct (mcols Y); [lia | discriminate] | intros j; apply HG].
      cbn [bind]. unfold transpose, np_col, shape0. cbn [mcols mrows].
      rewrite length_map, length_seq.
      apply Nat.ltb_lt in Hc. rewrite Hc. apply Nat.ltb_lt in Hc.
      f_equal. unfold col. cbn [mrows]. rewrite map_map.
      rewrite (map_ext _ (fun j => nth j (G (map (fun r => nth c r 0) (mrows Y))) 0)).
      * rewrite <- (HG (map (fun r => nth c r 0) (mrows Y))).
        apply map_nth_seq.
      * intros j.
        rewrite (nth_map_lt _ _ c [] 0) by now rewrite length_map, length_seq.
        now rewrite nth_map_seq.
    + destruct (mcols Y) as [|m]; [lia|]. reflexivity.
  - intros kws Hk. unfold g0_poisson_mr. rewrite (no_reserved_key kws Hk).
    unfold get_g0_multi_response. split; [|split].
    + intros ->. reflexivity.
    + reflexivity.
    + intros Hne Hm. destruct (mcols Y) as [|m]; [lia|].
      destruct kws as [|kv kws]; [congruence|]. reflexivity.
  - intros y kws k v Hin Hk. unfold g0_poisson_mr.
    destruct (reserved_key kws) as [_ H]. rewrite H; [reflexivity|].
    now exists k, v.
Qed.

End Gradients.

(** *** Worked inputs *)

Lemma lasso_max_unweighted_witness :
  exists m,
    lasso_max (ext := sample_penmax_externals) (Mat 3 [[5; 100; 3]]) (Arr1 [1])
      false "lin_reg" [] None = Ok (Num m)
    /\ Forall (fun gj => Qabs gj <= m) [5; 100; 3].
Proof.
  destruct (lasso_max_unweighted (ext := sample_penmax_externals)
              (Mat 3 [[5; 100; 3]]) (Arr1 [1]) false "lin_reg"%string []
              (Arr1 [5; 100; 3]) eq_refl eq_refl) as [_ H].
  destruct (H ltac:(discriminate)) as (m & Hm & Hall & _).
  exists m. split; [exact Hm | exact Hall].
Defined.

Lemma lasso_max_ignores_unpenalized_witness :
  lasso_max (ext := sample_penmax_externals) (Mat 3 [[5; 100; 3]]) (Arr1 [1])
    false "lin_reg" []
    (Some (nd_map (fun x => if is_nonzero_weight x then x else None)
                  (Arr1 [Some (Num 1); Some (Num 0); Some NaN])))
  = lasso_max (ext := sample_penmax_externals) (Mat 3 [[5; 100; 3]]) (Arr1 [1])
      false "lin_reg" [] (Some (Arr1 [Some (Num 1); Some (Num 0); Some NaN])).
Proof.
  apply (lasso_max_ignores_unpenalized
           (fun x => if is_nonzero_weight x then x else None)).
  - intros x Hx. now rewrite Hx.
  - intros x Hx. now rewrite Hx.
Defined.

Lemma lasso_max_misaligned_weights_witness :
  lasso_max (ext := sample_penmax_externals) (Mat 3 [[5; 100; 3]]) (Arr1 [1])
    false "lin_reg" [] (Some (Arr1 [Some (Num 1); Some (Num 1)]))
  = Raise IndexError.
Proof.
  apply (lasso_max_misaligned_weights (ext := sample_penmax_externals)
           (Mat 3 [[5; 100; 3]]) (Arr1 [1]) false "lin_reg"%string []
           [5; 100; 3]).
  - reflexivity.
  - reflexivity.
  - simpl. lia.
Defined.

Lemma multi_response_bounds_assert_witness :
  get_L1toL2_max (ext := sample_penmax_externals) (Mat 3 [[5; 100; 3]])
    (Arr2 (Mat 2 [[1; 2]])) false "lin_reg" [] None
  = Raise AssertionError.
Proof.
  apply (multi_response_bounds_assert (ext := sample_penmax_externals)).
  simpl. intros [H | [H | [H | [H | []]]]]; discriminate H.
Defined.

Lemma grad_at_zero_unsupported_iff_witness :
  grad_at_zero (ext := sample_penmax_externals) (Mat 3 [[5; 100; 3]]) (Arr1 [1])
    false "cox" []
  = Raise (NotImplementedError "cox not supported").
Proof.
  apply (grad_at_zero_unsupported_iff (ext := sample_penmax_externals)
           (Mat 3 [[5; 100; 3]]) (Arr1 [1]) false "cox"%string []).
  unfold dispatched_names. simpl.
  intros [H | [H | [H | [H | [H | [H | [H | [H | [H | []]]]]]]]]]; discriminate H.
Defined.

Lemma grad_at_zero_loss_kws_witness :
  grad_at_zero (ext := sample_penmax_externals) (Mat 3 [[5; 100; 3]]) (Arr1 [1])
    false "poisson" [("knot"%string, 1)]
  = Raise TypeError.
Proof.
  apply (grad_at_zero_loss_kws (ext := sample_penmax_externals)
           (Mat 3 [[5; 100; 3]]) (Arr1 [1]) false [("knot"%string, 1)]).
  discriminate.
Defined.

Lemma nuclear_norm_max_weighted_witness :
  exists q,
    nuclear_norm_max (ext := sample_penmax_externals) (Mat 3 [[5; 100; 3]])
      (Arr2 (Mat 2 [[1; 2]])) false "lin_reg_mr" []
      (Some (Arr1 [Some (Num 4); Some (Num 2); Some (Num 0)]))
    = Ok (Num (200 / q))
    /\ q <= 2.
Proof.
  destruct (nuclear_norm_max_weighted (ext := sample_penmax_externals)
              (Mat 3 [[5; 100; 3]]) (Arr2 (Mat 2 [[1; 2]])) false
              "lin_reg_mr"%string []
              (Arr2 (Mat 2 [[5; 10]; [100; 200]; [3; 6]]))
              (Arr1 [Some (Num 4); Some (Num 2); Some (Num 0)]))
    as (q & Hq & _ & Hmin).
  - left. reflexivity.
  - reflexivity.
  - exists (Some (Num 4)). split; [left; reflexivity | reflexivity].
  - exists q. split; [exact Hq|].
    apply Hmin; [right; left; reflexivity | reflexivity].
Defined.

Lemma group_lasso_max_index_error_witness :
  group_lasso_max (ext := sample_penmax_externals) (Mat 3 [[5; 100; 3]])
    (Arr1 [1]) [[0%nat; 5%nat]] false "lin_reg" [] None
  = Raise IndexError.
Proof.
  apply (group_lasso_max_index_error (ext := sample_penmax_externals)
           (Mat 3 [[5; 100; 3]]) (Arr1 [1]) [[0%nat; 5%nat]] false
           "lin_reg"%string [] None (Arr1 [5; 100; 3])).
  - reflexivity.
  - exists [0%nat; 5%nat], 5%nat. split; [left; reflexivity|].
    split; [right; left; reflexivity | simpl; lia].
Defined.

Lemma group_lasso_max_unweighted_witness :
  exists m,
    group_lasso_max (ext := sample_penmax_externals) (Mat 3 [[5; 100; 3]])
      (Arr1 [1]) [[0%nat]; [1%nat; 2%nat]] false "lin_reg" [] None
    = Ok (Num m)
    /\ Forall (fun n => n <= m) [5; 103].
Proof.
  destruct (group_lasso_max_unweighted (ext := sample_penmax_externals)
              (Mat 3 [[5; 100; 3]]) (Arr1 [1]) [[0%nat]; [1%nat; 2%nat]] false
              "lin_reg"%string [] None (Arr1 [5; 100; 3]) [5; 103]
              eq_refl eq_refl eq_refl) as [_ H].
  destruct (H ltac:(discriminate)) as (m & Hm & Hall & _).
  exists m. split; [exact Hm | exact Hall].
Defined.

Lemma g0_poisson_mr_columns_witness :
  exists g,
    (r <- g0_poisson_mr (Mat 2 [[1; 2]; [3; 4]]) (Arr2 (Mat 2 [[1; 2]; [3; 5]]))
            false [] ;;
     np_col 0 r 1) = Ok g
    /\ Forall2 Qeq g [ - (13) # 2; - (9)].
Proof.
  destruct (g0_poisson_mr_columns (Mat 2 [[1; 2]; [3; 4]])
              (Mat 2 [[1; 2]; [3; 5]]) false) as (H & _ & _).
  rewrite (H 1%nat ltac:(simpl; lia)).
  eexists. split; [reflexivity|].
  repeat constructor; reflexivity.
Defined.

End PenMaxBounds.

(** ** The weights in the bounds: which entries count, and rescaling *)

Module PenMaxWeights.

Import PenMax PenMaxFacts PenMaxBounds.

(** *** The quotients by the penalized weights *)

Lemma div_penalized_vector (vals : list Q) (ws : list weight) :
  length ws = length vals ->
  div_penalized (Arr1 vals) (Arr1 ws)
  = Ok (Arr1 (map (fun x => Num (quot x))
                  (filter (fun x => is_nonzero_weight (snd x)) (combine vals ws)))).
Proof.
  intros Hlen. unfold div_penalized, get_is_pen_mask. simpl.
  rewrite !length_map, Hlen, Nat.eqb_refl. simpl.
  rewrite np_broadcast_arr1 by (apply select_length_eq; now symmetry).
  rewrite select_combine_snd by now symmetry. simpl.
  rewrite (map_ext_in _ (fun x => Ok (Num (quot x)))).
  - rewrite mapM_id_map_ok. reflexivity.
  - intros [gj w] Hin. apply filter_In in Hin as [_ Hin]. simpl in *.
    destruct (div_weight_penalized gj w Hin) as (q & -> & _ & E). exact E.
Qed.

Lemma penalized_quotients (vals : list Q) (ws : list weight) :
  length ws = length vals ->
  let qs := map quot (filter (fun x => is_nonzero_weight (snd x)) (combine vals ws)) in
  (forall v q, In (v, Some (Num q)) (combine vals ws) -> eps < Qabs q ->
               In (v / q) qs)
  /\ (forall x, In x qs ->
        exists v q, In (v, Some (Num q)) (combine vals ws) /\ eps < Qabs q
                    /\ x = v / q)
  /\ ((exists w, In w ws /\ is_nonzero_weight w = true) -> qs <> []).
Proof.
  intros Hlen qs. split; [|split].
  - intros v q Hin Hq. unfold qs.
    change (v / q) with (quot (v, Some (Num q))). apply in_map.
    apply filter_In. split; [exact Hin|]. simpl. now apply Qltb_lt.
  - intros x Hx. unfold qs in Hx. apply in_map_iff in Hx as ([v w] & <- & Hin).
    apply filter_In in Hin as [Hin Hpen]. simpl in Hpen.
    apply is_nonzero_weight_spec in Hpen as (q & -> & Hq).
    exists v, q. auto.
  - intros (w0 & Hw0 & Hpen0).
    destruct (in_combine_ex_l vals ws w0 ltac:(now symmetry) Hw0) as (v0 & Hin0).
    unfold qs. intros E. apply (f_equal (@length Q)) in E.
    rewrite length_map in E.
    assert (HL : In (v0, w0)
                    (filter (fun x : Q * weight => is_nonzero_weight (snd x))
                            (combine vals ws))) by (apply filter_In; auto).
    destruct (filter _ _); [destruct HL | discriminate].
Qed.

(** Python's [max] and numpy's [max] over numbers. *)
Lemma py_max_numbers (qs : list Q) :
  qs <> [] ->
  exists m, py_max (map Num qs) = Ok (Num m)
            /\ In m qs /\ Forall (fun q => q <= m) qs.
Proof.
  intros Hne. destruct qs as [|x t]; [congruence|].
  assert (H : exists y, py_max (map Num (x :: t)) = Ok y) by (eexists; reflexivity).
  destruct H as (y & Hy).
  destruct (py_max_Num_spec _ _ Hy) as (q & -> & Hq & Hle). eauto.
Qed.

Lemma np_max_numbers (qs : list Q) :
  qs <> [] ->
  exists m, np_max (Arr1 (map Num qs)) = Ok (Num m)
            /\ (exists q, In q qs /\ m == q) /\ Forall (fun q => q <= m) qs.
Proof.
  intros Hne. destruct qs as [|x t]; [congruence|].
  exists (fold_left Qmax t x). split; [|split].
  - unfold np_max. simpl. now rewrite fold_fl_max_Num.
  - apply fold_Qmax_attained.
  - destruct (fold_Qmax_ge t x) as [H1 H2]. constructor; assumption.
Qed.

Lemma In_multi_resp {ext : Externals} (loss_func : string) :
  In loss_func _MULTI_RESP_LOSSES -> assert_multi_resp loss_func = Ok tt.
Proof.
  intros Hin. unfold assert_multi_resp.
  destruct (existsb (String.eqb loss_func) _MULTI_RESP_LOSSES) eqn:Ex;
    [reflexivity|].
  assert (existsb (String.eqb loss_func) _MULTI_RESP_LOSSES = true); [|congruence].
  apply existsb_exists. exists loss_func. split; [exact Hin|].
  apply String.eqb_refl.
Qed.

Section Bounds.

Context {ext : Externals}.

(** [get_L1toL2_max] with weights: the largest quotient of a row norm by
    its weight, over the penalized rows. *)
Lemma get_L1toL2_max_penalized X y fit_intercept loss_func loss_kws
    (G : matrix Q) (ws : list weight) :
  In loss_func _MULTI_RESP_LOSSES ->
  grad_at_zero X y fit_intercept loss_func loss_kws = Ok (Arr2 G) ->
  length ws = shape0 G ->
  (exists w, In w ws /\ is_nonzero_weight w = true) ->
  exists m,
    get_L1toL2_max X y fit_intercept loss_func loss_kws (Some (Arr1 ws)) = Ok (Num m)
    /\ (forall n q,
          In (n, Some (Num q)) (combine (map np_linalg_norm (mrows G)) ws) ->
          eps < Qabs q -> n / q <= m)
    /\ (exists n q,
          In (n, Some (Num q)) (combine (map np_linalg_norm (mrows G)) ws)
          /\ eps < Qabs q /\ m = n / q).
Proof.
  intros Hin Hg Hlen Hpen.
  assert (Hlen' : length ws = length (map np_linalg_norm (mrows G)))
    by now rewrite length_map.
  destruct (penalized_quotients _ ws Hlen') as (H1 & H2 & H3).
  destruct (py_max_numbers _ (H3 Hpen)) as (m & Hm & Hmin & Hmle).
  exists m. split; [|split].
  - unfold get_L1toL2_max. rewrite (In_multi_resp _ Hin), Hg. cbn [bind row_norms_of].
    rewrite (div_penalized_vector _ ws Hlen'). cbn [bind flat].
    rewrite <- map_map. exact Hm.
  - intros n q Hnq Hq. rewrite Forall_forall in Hmle. apply Hmle. now apply H1.
  - destruct (H2 m Hmin) as (n & q & Hnq & Hq & E). now exists n, q.
Qed.

(** [group_lasso_max] with weights: the largest quotient of a group norm
    by its weight, over the penalized groups. *)
Lemma group_lasso_max_penalized X y groups fit_intercept loss_func loss_kws
    weights (grad : ndarray Q) (group_norms : list Q) (ws : list weight) :
  grad_at_zero X y fit_intercept loss_func loss_kws = Ok grad ->
  mapM (fun grp_idxs => g <- take_group grad grp_idxs ;; Ok (np_linalg_norm g))
       groups = Ok group_norms ->
  process_weights_group_lasso groups weights = Some (Arr1 ws) ->
  length ws = length group_norms ->
  (exists w, In w ws /\ is_nonzero_weight w = true) ->
  exists m,
    group_lasso_max X y groups fit_intercept loss_func loss_kws weights = Ok (Num m)
    /\ (forall n q, In (n, Some (Num q)) (combine group_norms ws) ->
                    eps < Qabs q -> n / q <= m)
    /\ (exists n q, In (n, Some (Num q)) (combine group_norms ws)
                    /\ eps < Qabs q /\ m == n / q).
Proof.
  intros Hg Hn Hw Hlen Hpen.
  destruct (penalized_quotients group_norms ws Hlen) as (H1 & H2 & H3).
  destruct (np_max_numbers _ (H3 Hpen)) as (m & Hm & (x & Hx & E) & Hmle).
  exists m. split; [|split].
  - unfold group_lasso_max. rewrite Hg. cbn [bind]. rewrite Hn. cbn [bind].
    rewrite Hw. rewrite (div_penalized_vector group_norms ws Hlen). cbn [bind].
    rewrite <- map_map. exact Hm.
  - intros n q Hnq Hq. rewrite Forall_forall in Hmle. apply Hmle. now apply H1.
  - destruct (H2 x Hx) as (n & q & Hnq & Hq & ->). now exists n, q.
Qed.

(** [nuclear_norm_max] with weights: the leading singular value over the
    smallest penalized weight. *)
Lemma nuclear_norm_max_penalized X y fit_intercept loss_func loss_kws
    (grad : ndarray Q) (w : ndarray weight) :
  In loss_func _MULTI_RESP_LOSSES ->
  grad_at_zero X y fit_intercept loss_func loss_kws = Ok grad ->
  (exists x, In x (flat w) /\ is_nonzero_weight x = true) ->
  exists q,
    nuclear_norm_max X y fit_intercept loss_func loss_kws (Some w)
    = Ok (Num (leading_sval grad / q))
    /\ (exists q', In (Some (Num q')) (flat w) /\ eps < Qabs q' /\ q == q')
    /\ (forall q', In (Some (Num q')) (flat w) -> eps < Qabs q' -> q <= q').
Proof.
  intros Hin Hg (x0 & Hx0 & Hpen0).
  unfold nuclear_norm_max. rewrite (In_multi_resp _ Hin), Hg. simpl.
  unfold get_is_pen_mask. rewrite np_getmask_self. simpl.
  set (L := filter is_nonzero_weight (flat w)).
  set (val := fun x : weight => match x with Some (Num q) => q | _ => 0 end).
  assert (HL : map (fun x : weight =>
                      match x with Some v => Ok v | None => Raise TypeError end) L
               = map (fun x => Ok (Num (val x))) L).
  { apply map_ext_in. intros x Hx. apply filter_In in Hx as [_ Hx].
    apply is_nonzero_weight_spec in Hx as (q & -> & _). reflexivity. }
  unfold weight_values. simpl. rewrite HL, mapM_id_map_ok. simpl.
  unfold np_min. simpl.
  assert (HL0 : In x0 L) by (apply filter_In; auto).
  destruct L as [|x1 L'] eqn:EL; [destruct HL0|].
  cbn [map]. rewrite <- (map_map val Num), fold_fl_min_Num. simpl.
  exists (fold_left Qmin (map val L') (val x1)). split; [reflexivity|].
  assert (Hval : forall x, In x (x1 :: L') ->
                   exists q', x = Some (Num q') /\ val x = q'
                              /\ In (Some (Num q')) (flat w) /\ eps < Qabs q').
  { intros x Hx. rewrite <- EL in Hx. apply filter_In in Hx as [Hin' Hx].
    apply is_nonzero_weight_spec in Hx as (q' & -> & Hq'). exists q'. auto. }
  split.
  - destruct (fold_Qmin_attained (map val L') (val x1)) as (v & Hv & E).
    change (val x1 :: map val L') with (map val (x1 :: L')) in Hv.
    apply in_map_iff in Hv as (x & <- & Hx).
    destruct (Hval x Hx) as (q' & -> & Hv & Hin' & Hq'). exists q'. auto.
  - intros q' Hin' Hq'.
    assert (HinL : In (Some (Num q')) (x1 :: L')).
    { rewrite <- EL. apply filter_In. split; [exact Hin'|].
      simpl. now apply Qltb_lt. }
    destruct (fold_Qmin_le (map val L') (val x1)) as [H1 H2].
    destruct HinL as [E1 | HinL]; [subst x1; exact H1|].
    rewrite Forall_forall in H2. apply (H2 (val (Some (Num q')))).
    now apply in_map.
Qed.

Lemma mapM_numbers {A : Type} (f : A -> result fl) (P : A -> Q -> Prop)
    (l : list A) :
  (forall x, In x l -> exists q, f x = Ok (Num q) /\ P x q) ->
  exists qs, mapM f l = Ok (map Num qs) /\ Forall2 P l qs.
Proof.
  induction l as [|x l IH]; intros H.
  - exists []. split; [reflexivity | constructor].
  - destruct (H x (or_introl eq_refl)) as (q & Hq & HP).
    destruct IH as (qs & Hqs & HF); [intros y Hy; apply H; now right|].
    exists (q :: qs). split; [|now constructor].
    cbn [mapM]. rewrite Hq. cbn [bind]. rewrite Hqs. reflexivity.
Qed.

(** [lasso_max] on several responses with weights: the largest
    [|g_j / w_j|] over the penalized entries of every weight column. *)
Lemma lasso_max_columns_penalized X (Y : matrix Q) fit_intercept loss_func loss_kws
    (W : matrix weight) (G : nat -> list Q) :
  is_multi_response (Arr2 Y) = true ->
  (0 < mcols Y)%nat -> (mcols Y <= mcols W)%nat ->
  (forall c, (c < mcols Y)%nat ->
     is_multi_response (Arr1 (col 0 c Y)) = false
     /\ grad_at_zero X (Arr1 (col 0 c Y)) fit_intercept loss_func loss_kws
        = Ok (Arr1 (G c))
     /\ shape0 W = length (G c)
     /\ exists w, In w (col None c W) /\ is_nonzero_weight w = true) ->
  exists m,
    lasso_max X (Arr2 Y) fit_intercept loss_func loss_kws (Some (Arr2 W)) = Ok (Num m)
    /\ (forall c gj qj, (c < mcols Y)%nat ->
          In (gj, Some (Num qj)) (combine (G c) (col None c W)) ->
          eps < Qabs qj -> Qabs (gj / qj) <= m)
    /\ (exists c gj qj, (c < mcols Y)%nat
          /\ In (gj, Some (Num qj)) (combine (G c) (col None c W))
          /\ eps < Qabs qj /\ m == Qabs (gj / qj)).
Proof.
  intros Hy Hpos HW Hcols.
  set (per := fun c : nat =>
         w <- (wc <- np_col None (Arr2 W) c ;; Ok (Some (Arr1 wc))) ;;
         lasso_max X (Arr1 (col 0 c Y)) fit_intercept loss_func loss_kws w).
  set (P := fun (c : nat) (q : Q) =>
         (forall gj qj, In (gj, Some (Num qj)) (combine (G c) (col None c W)) ->
                        eps < Qabs qj -> Qabs (gj / qj) <= q)
         /\ (exists gj qj, In (gj, Some (Num qj)) (combine (G c) (col None c W))
                           /\ eps < Qabs qj /\ q == Qabs (gj / qj))).
  destruct (mapM_numbers per P (seq 0 (mcols Y))) as (qs & Hqs & HF).
  { intros c Hc. apply in_seq in Hc.
    destruct (Hcols c ltac:(lia)) as (Hs & Hg & Hlen & Hpen).
    unfold per. cbn [np_col].
    assert (Hlt : (c <? mcols W)%nat = true) by (apply Nat.ltb_lt; lia).
    rewrite Hlt. cbn [bind]. rewrite lasso_max_single by exact Hs.
    destruct (lasso_max_tail_vector X _ fit_intercept loss_func loss_kws
                (G c) (col None c W) Hg) as (m & Hm & Hb & Ha).
    - rewrite <- Hlen. apply length_map.
    - exact Hpen.
    - exists m. split; [exact Hm | split; assumption]. }
  assert (Hne : qs <> []).
  { apply Forall2_length in HF. rewrite length_seq in HF.
    destruct qs; [simpl in HF; lia | discriminate]. }
  destruct (py_max_numbers qs Hne) as (m & Hm & Hin & Hle).
  exists m. split; [|split].
  - rewrite lasso_max_unfold. unfold lasso_max_body. rewrite Hy.
    fold per. rewrite Hqs. cbn [bind]. exact Hm.
  - intros c gj qj Hc Hpair Hq.
    destruct (Forall2_In_l _ _ _ c HF) as (q & Hq1 & [Hb _]); [apply in_seq; lia|].
    rewrite Forall_forall in Hle. specialize (Hle q Hq1).
    specialize (Hb gj qj Hpair Hq). lra.
  - destruct (Forall2_In_r _ _ _ m HF Hin) as (c & Hc & [_ (gj & qj & Hp & Hq & E)]).
    apply in_seq in Hc. exists c, gj, qj. repeat split; auto. lia.
Qed.

End Bounds.

Section Scaling.

Context {ext : Externals}.




End Scaling.

Section Claims.

Context {ext : Externals}.

(** C1.  An entry of a weights array is penalized exactly when it is not
    [None], not NaN, and of absolute value above machine epsilon, and the
    mask [get_is_pen_mask] holds that test entry by entry.  Each of the four
    bounds is taken over the penalized entries alone: [lasso_max] for one
    response is the largest [|g_j / w_j|] over the penalized [j];
    [lasso_max] for several responses is the largest over the penalized
    entries of every column of the weights; [get_L1toL2_max] is the largest
    quotient of a row norm of the gradient by its weight over the penalized
    rows; [group_lasso_max] is the largest quotient of a group norm by its
    weight over the penalized groups; [nuclear_norm_max] divides the leading
    singular value by the smallest penalized weight.  For the gradient
    [[5, 100, 3]] with weights [[1, 0, 1]], [lasso_max] is 5. *)
Theorem bounds_exclude_unpenalized :
  (forall w : weight,
     is_nonzero_weight w = true <-> exists q, w = Some (Num q) /\ eps < Qabs q)
  /\ (forall weights : ndarray weight,
        flat (get_is_pen_mask weights) = map is_nonzero_weight (flat weights))
  /\ (forall X y fit_intercept loss_func loss_kws (g : list Q) (ws : list weight),
        is_multi_response y = false ->
        grad_at_zero X y fit_intercept loss_func loss_kws = Ok (Arr1 g) ->
        length ws = length g ->
        (exists w, In w ws /\ is_nonzero_weight w = true) ->
        exists m,
          lasso_max X y fit_intercept loss_func loss_kws (Some (Arr1 ws)) = Ok (Num m)
          /\ (forall gj qj, In (gj, Some (Num qj)) (combine g ws) -> eps < Qabs qj ->
                            Qabs (gj / qj) <= m)
          /\ (exists gj qj, In (gj, Some (Num qj)) (combine g ws) /\ eps < Qabs qj
                            /\ m == Qabs (gj / qj)))
  /\ (forall X (Y : matrix Q) fit_intercept loss_func loss_kws
             (W : matrix weight) (G : nat -> list Q),
        is_multi_response (Arr2 Y) = true ->
        (0 < mcols Y)%nat -> (mcols Y <= mcols W)%nat ->
        (forall c, (c < mcols Y)%nat ->
           is_multi_response (Arr1 (col 0 c Y)) = false
           /\ grad_at_zero X (Arr1 (col 0 c Y)) fit_intercept loss_func loss_kws
              = Ok (Arr1 (G c))
           /\ shape0 W = length (G c)
           /\ exists w, In w (col None c W) /\ is_nonzero_weight w = true) ->
        exists m,
          lasso_max X (Arr2 Y) fit_intercept loss_func loss_kws (Some (Arr2 W))
          = Ok (Num m)
          /\ (forall c gj qj, (c < mcols Y)%nat ->
                In (gj, Some (Num qj)) (combine (G c) (col None c W)) ->
                eps < Qabs qj -> Qabs (gj / qj) <= m)
          /\ (exists c gj qj, (c < mcols Y)%nat
                /\ In (gj, Some (Num qj)) (combine (G c) (col None c W))
                /\ eps < Qabs qj /\ m == Qabs (gj / qj)))
  /\ (forall X y fit_intercept loss_func loss_kws (G : matrix Q) (ws : list weight),
        In loss_func _MULTI_RESP_LOSSES ->
        grad_at_zero X y fit_intercept loss_func loss_kws = Ok (Arr2 G) ->
        length ws = shape0 G ->
        (exists w, In w ws /\ is_nonzero_weight w = true) ->
        exists m,
          get_L1toL2_max X y fit_intercept loss_func loss_kws (Some (Arr1 ws))
          = Ok (Num m)
          /\ (forall n q,
                In (n, Some (Num q)) (combine (map np_linalg_norm (mrows G)) ws) ->
                eps < Qabs q -> n / q <= m)
          /\ (exists n q,
                In (n, Some (Num q)) (combine (map np_linalg_norm (mrows G)) ws)
                /\ eps < Qabs q /\ m = n / q))
  /\ (forall X y groups fit_intercept loss_func loss_kws weights
             (grad : ndarray Q) (group_norms : list Q) (ws : list weight),
        grad_at_zero X y fit_intercept loss_func loss_kws = Ok grad ->
        mapM (fun grp_idxs => g <- take_group grad grp_idxs ;; Ok (np_linalg_norm g))
             groups = Ok group_norms ->
        process_weights_group_lasso groups weights = Some (Arr1 ws) ->
        length ws = length group_norms ->
        (exists w, In w ws /\ is_nonzero_weight w = true) ->
        exists m,
          group_lasso_max X y groups fit_intercept loss_func loss_kws weights
          = Ok (Num m)
          /\ (forall n q, In (n, Some (Num q)) (combine group_norms ws) ->
                          eps < Qabs q -> n / q <= m)
          /\ (exists n q, In (n, Some (Num q)) (combine group_norms ws)
                          /\ eps < Qabs q /\ m == n / q))
  /\ (forall X y fit_intercept loss_func loss_kws (grad : ndarray Q)
             (w : ndarray weight),
        In loss_func _MULTI_RESP_LOSSES ->
        grad_at_zero X y fit_intercept loss_func loss_kws = Ok grad ->
        (exists x, In x (flat w) /\ is_nonzero_weight x = true) ->
        exists q,
          nuclear_norm_max X y fit_intercept loss_func loss_kws (Some w)
          = Ok (Num (leading_sval grad / q))
          /\ (exists q', In (Some (Num q')) (flat w) /\ eps < Qabs q' /\ q == q')
          /\ (forall q', In (Some (Num q')) (flat w) -> eps < Qabs q' -> q <= q'))
  /\ (is_multi_response (Arr1 [1]) = false ->
      grad_at_zero (Mat 3 [[5; 100; 3]]) (Arr1 [1]) false "lin_reg" []
      = Ok (Arr1 [5; 100; 3])
      /\ lasso_max (Mat 3 [[5; 100; 3]]) (Arr1 [1]) false "lin_reg" []
           (Some (Arr1 [Some (Num 1); Some (Num 0); Some (Num 1)]))
         = Ok (Num 5)).
Proof.
  split; [exact is_nonzero_weight_spec|].
  split; [intros weights; apply flat_nd_map|].
  split.
  { intros X y fit_intercept loss_func loss_kws g ws Hy Hg Hlen Hpen.
    rewrite lasso_max_single by exact Hy.
    now apply lasso_max_tail_vector. }
  split; [intros; now apply lasso_max_columns_penalized|].
  split; [intros; now apply get_L1toL2_max_penalized|].
  split; [intros; now apply (group_lasso_max_penalized _ _ _ _ _ _ _ grad)|].
  split; [intros; now apply nuclear_norm_max_penalized|].
  intros Hy. split; [reflexivity|].
  rewrite lasso_max_single by exact Hy. reflexivity.
Qed.


End Claims.

(** *** Worked inputs *)

Lemma bounds_exclude_unpenalized_witness :
  (exists m,
     lasso_max (ext := sample_penmax_externals) (Mat 3 [[5; 100; 3]]) (Arr1 [1])
       false "lin_reg" [] (Some (Arr1 [Some (Num 1); Some (Num 0); Some (Num 1)]))
     = Ok (Num m)
     /\ (forall gj qj,
           In (gj, Some (Num qj))
              (combine [5; 100; 3] [Some (Num 1); Some (Num 0); Some (Num 1)]) ->
           eps < Qabs qj -> Qabs (gj / qj) <= m)
     /\ (exists gj qj,
           In (gj, Some (Num qj))
              (combine [5; 100; 3] [Some (Num 1); Some (Num 0); Some (Num 1)])
           /\ eps < Qabs qj /\ m == Qabs (gj / qj)))
  /\ (exists m,
        lasso_max (ext := sample_penmax_externals) (Mat 3 [[5; 100; 3]])
          (Arr2 (Mat 2 [[1; 2]])) false "lin_reg" []
          (Some (Arr2 (Mat 2 [[Some (Num 1); Some (Num 1)];
                              [Some (Num 0); None];
                              [Some (Num 1); Some (Num 2)]])))
        = Ok (Num m)
        /\ Qabs (6 / 2) <= m)
  /\ (exists m,
        get_L1toL2_max (ext := sample_penmax_externals) (Mat 3 [[5; 100; 3]])
          (Arr2 (Mat 2 [[1; 2]])) false "lin_reg_mr" []
          (Some (Arr1 [Some (Num 1); Some (Num 0); Some (Num 1)]))
        = Ok (Num m)
        /\ 9 / 1 <= m)
  /\ (exists m,
        group_lasso_max (ext := sample_penmax_externals) (Mat 3 [[5; 100; 3]])
          (Arr1 [1]) [[0%nat; 1%nat]; [2%nat]] false "lin_reg" []
          (Some (Arr1 [Some (Num 0); Some (Num 1)]))
        = Ok (Num m)
        /\ (exists n q, In (n, Some (Num q))
                           (combine [105; 3] [Some (Num 0); Some (Num 1)])
                        /\ eps < Qabs q /\ m == n / q))
  /\ (exists q,
        nuclear_norm_max (ext := sample_penmax_externals) (Mat 3 [[5; 100; 3]])
          (Arr2 (Mat 2 [[1; 2]])) false "lin_reg_mr" []
          (Some (Arr1 [Some (Num 2); Some (Num 0); Some (Num 4)]))
        = Ok (Num (200 / q))
        /\ q <= 4).
Proof.
  destruct (bounds_exclude_unpenalized (ext := sample_penmax_externals))
    as (_ & _ & H1 & H2 & H3 & H4 & H5 & _).
  split; [|split; [|split; [|split]]].
  - apply (H1 (Mat 3 [[5; 100; 3]]) (Arr1 [1]) false "lin_reg"%string []
              [5; 100; 3] [Some (Num 1); Some (Num 0); Some (Num 1)]);
      [reflexivity | reflexivity | reflexivity |].
    exists (Some (Num 1)). split; [left; reflexivity | reflexivity].
  - destruct (H2 (Mat 3 [[5; 100; 3]]) (Mat 2 [[1; 2]]) false "lin_reg"%string []
                 (Mat 2 [[Some (Num 1); Some (Num 1)];
                         [Some (Num 0); None];
                         [Some (Num 1); Some (Num 2)]])
                 (fun c => match c with
                           | O => [5; 100; 3]
                           | _ => [10; 200; 6]
                           end))
      as (m & Hm & Hb & _).
    + reflexivity.
    + simpl; lia.
    + simpl; lia.
    + intros c Hc. simpl in Hc.
      destruct c as [|[|c]]; [| |lia].
      * split; [reflexivity|]. split; [reflexivity|]. split; [reflexivity|].
        exists (Some (Num 1)). split; [left; reflexivity | reflexivity].
      * split; [reflexivity|]. split; [reflexivity|]. split; [reflexivity|].
        exists (Some (Num 1)). split; [left; reflexivity | reflexivity].
    + exists m. split; [exact Hm|].
      apply (Hb 1%nat 6 2); [simpl; lia | | reflexivity].
      right; right; left; reflexivity.
  - destruct (H3 (Mat 3 [[5; 100; 3]]) (Arr2 (Mat 2 [[1; 2]])) false
                 "lin_reg_mr"%string []
                 (Mat 2 [[5; 10]; [100; 200]; [3; 6]])
                 [Some (Num 1); Some (Num 0); Some (Num 1)])
      as (m & Hm & Hb & _).
    + left; reflexivity.
    + reflexivity.
    + reflexivity.
    + exists (Some (Num 1)). split; [left; reflexivity | reflexivity].
    + exists m. split; [exact Hm|].
      apply (Hb 9 1); [|reflexivity].
      right; right; left; reflexivity.
  - destruct (H4 (Mat 3 [[5; 100; 3]]) (Arr1 [1]) [[0%nat; 1%nat]; [2%nat]] false
                 "lin_reg"%string []
                 (Some (Arr1 [Some (Num 0); Some (Num 1)]))
                 (Arr1 [5; 100; 3]) [105; 3] [Some (Num 0); Some (Num 1)])
      as (m & Hm & _ & Ha).
    + reflexivity.
    + reflexivity.
    + reflexivity.
    + reflexivity.
    + exists (Some (Num 1)). split; [right; left; reflexivity | reflexivity].
    + exists m. split; [exact Hm | exact Ha].
  - destruct (H5 (Mat 3 [[5; 100; 3]]) (Arr2 (Mat 2 [[1; 2]])) false
                 "lin_reg_mr"%string []
                 (Arr2 (Mat 2 [[5; 10]; [100; 200]; [3; 6]]))
                 (Arr1 [Some (Num 2); Some (Num 0); Some (Num 4)]))
      as (q & Hq & _ & Hle).
    + left; reflexivity.
    + reflexivity.
    + exists (Some (Num 2)). split; [left; reflexivity | reflexivity].
    + exists q. split; [exact Hq|].
      apply Hle; [right; right; left; reflexivity | reflexivity].
Defined.



End PenMaxWeights.

(** ** The rescaling of the weights in binary64 *)

Module PenMax64Facts.

Import PrimFloat Binary64 PenMax64.

(** With gradient [[1]] and weight [[0.1]] the bound is [10]; with the
    weight times [3] it is one unit in the last place below [10 / 3]; with
    the weight times [4], a power of two, it is [10 / 4]. *)
Lemma lasso_max_rescaling_rounds :
  exists m m3 m4,
    lasso_max_tail [1]%float [Some 0x1.999999999999ap-4%float] = Ok m
    /\ (w <- scale_weights 3 [Some 0x1.999999999999ap-4%float] ;;
        lasso_max_tail [1]%float w) = Ok m3
    /\ (w <- scale_weights 4 [Some 0x1.999999999999ap-4%float] ;;
        lasso_max_tail [1]%float w) = Ok m4
    /\ m = 10%float
    /\ ltb m3 (m / 3) = true
    /\ m4 = (m / 4)%float.
Proof.
  do 3 eexists. repeat split; vm_compute; reflexivity.
Qed.

End PenMax64Facts.

(** ** More on the projections and the constraints' proximal maps *)

Module ConvexProx.

Import Convex ConvexFacts.

Lemma Qsq_nonneg (a : Q) : 0 <= a * a.
Proof.
  destruct (Qlt_le_dec a 0) as [H|H].
  - setoid_replace (a * a) with ((- a) * (- a)) by ring.
    apply Qmult_le_0_compat; lra.
  - now apply Qmult_le_0_compat.
Qed.

Lemma dist2_cons (a b : Q) (l l' : list Q) :
  dist2 (a :: l) (b :: l') = (a - b) * (a - b) + dist2 l l'.
Proof. reflexivity. Qed.

(** *** The constraints' proximal maps *)

Lemma positive_entry_nonneg (v : Q) : 0 <= (if Qltb 0 v then v else 0).
Proof.
  destruct (Qltb 0 v) eqn:E; [|apply Qle_refl].
  apply Qltb_lt in E. lra.
Qed.

Lemma positive_entry_idem (v : Q) :
  (if Qltb 0 (if Qltb 0 v then v else 0) then (if Qltb 0 v then v else 0) else 0)
  = (if Qltb 0 v then v else 0).
Proof.
  destruct (Qltb 0 v) eqn:E; [now rewrite E | reflexivity].
Qed.

Lemma positive_gap (x y : Q) :
  0 <= y ->
  ((if Qltb 0 x then x else 0) - x) * ((if Qltb 0 x then x else 0) - x)
  <= (y - x) * (y - x).
Proof.
  intros Hy. destruct (Qltb 0 x) eqn:E.
  - pose proof (Qsq_nonneg (y - x)). lra.
  - apply Qltb_ge in E.
    pose proof (Qsq_nonneg y).
    assert (0 <= y * (- x)) by (apply Qmult_le_0_compat; lra). lra.
Qed.

Lemma positive_gap_sum (v y : list Q) :
  length y = length v -> Forall (fun t => 0 <= t) y ->
  dist2 (map (fun x => if Qltb 0 x then x else 0) v) v <= dist2 y v.
Proof.
  revert y; induction v as [|x v IH]; intros [|b y] Hlen Hy;
    try (simpl in Hlen; lia).
  - apply Qle_refl.
  - cbn [map]. rewrite !dist2_cons. inversion Hy; subst.
    simpl in Hlen. specialize (IH y ltac:(lia) ltac:(assumption)).
    pose proof (positive_gap x b ltac:(assumption)). lra.
Qed.

Lemma np_shape_nd_map {A B : Type} (f : A -> B) (a : ndarray A) :
  np_shape (nd_map f a) = np_shape a.
Proof.
  destruct a as [l|M]; simpl; [now rewrite length_map|].
  unfold shape0. simpl. now rewrite length_map.
Qed.

(** X18.  [Positive._prox] keeps the shape, returns only non-negative entries,
    does not depend on the step, leaves its own results unchanged, and
    returns the non-negative array closest to its argument. *)
Theorem positive_prox_projection (x : ndarray Q) (step : Q) :
  exists p,
    _prox Positive x step = Ok p
    /\ np_shape p = np_shape x
    /\ Forall (fun t => 0 <= t) (flat p)
    /\ (forall step', _prox Positive p step' = Ok p)
    /\ (forall y, length y = length (flat x) -> Forall (fun t => 0 <= t) y ->
        dist2 (flat p) (flat x) <= dist2 y (flat x)).
Proof.
  eexists. split; [reflexivity|]. split; [apply np_shape_nd_map|]. split; [|split].
  - rewrite flat_nd_map. apply Forall_forall. intros t Ht.
    apply in_map_iff in Ht. destruct Ht as (v & <- & _).
    apply positive_entry_nonneg.
  - intros step'. cbn [_prox Positive Constraint]. f_equal.
    rewrite nd_map_nd_map. apply nd_map_ext_in. intros v _.
    apply positive_entry_idem.
  - intros y Hlen Hy. rewrite flat_nd_map. now apply positive_gap_sum.
Qed.

(** *** The L2 ball *)

Section L2.

Variable norm : ndarray Q -> Q.

(** X21.  [L2Ball(mult)] can be built exactly for a positive [mult].  Its prox
    keeps the shape and divides every entry by [max(norm(x)/mult, 1)],
    whatever the step: an argument of norm at most [mult] is returned as it
    is, and the entries of one of norm at least [mult] are divided by
    [norm(x)/mult]. *)
Theorem l2ball_prox_divides (mult step : Q) (x : ndarray Q) :
  (0 < mult ->
   exists F,
     L2Ball norm mult = Ok F
     /\ exists p,
          _prox F x step = Ok p
          /\ np_shape p = np_shape x
          /\ flat p = map (fun t => t / Qmax (norm x / mult) 1) (flat x)
          /\ (norm x <= mult -> Forall2 Qeq (flat p) (flat x))
          /\ (mult <= norm x ->
              Forall2 Qeq (flat p) (map (fun t => t / (norm x / mult)) (flat x))))
  /\ (mult <= 0 -> L2Ball norm mult = Raise AssertionError).
Proof.
  split.
  - intros Hm. unfold L2Ball.
    destruct (Qltb 0 mult) eqn:E; [|apply Qltb_ge in E; lra].
    eexists. split; [reflexivity|]. eexists. split; [reflexivity|].
    split; [apply np_shape_nd_map|]. split; [apply flat_nd_map|].
    assert (Hq : norm x / mult * mult == norm x) by (field; lra).
    rewrite flat_nd_map. split.
    + intros Hx.
      assert (Hd : Qmax (norm x / mult) 1 == 1).
      { apply Q.max_r. apply Qle_shift_div_r; lra. }
      induction (flat x) as [|t l IH]; cbn [map]; constructor; [|exact IH].
      rewrite Hd. field.
    + intros Hx.
      assert (H1 : 1 <= norm x / mult) by (apply Qle_shift_div_l; lra).
      assert (Hd : Qmax (norm x / mult) 1 == norm x / mult) by now apply Q.max_l.
      induction (flat x) as [|t l IH]; cbn [map]; constructor; [|exact IH].
      rewrite Hd. reflexivity.
  - intros Hm. unfold L2Ball.
    destruct (Qltb 0 mult) eqn:E; [apply Qltb_lt in E; lra | reflexivity].
Qed.

End L2.

(** *** Worked inputs *)

Lemma positive_prox_projection_witness :
  exists p,
    _prox Positive (Arr2 (Mat 2 [[1; - (2)]; [0; 3]])) 1 = Ok p
    /\ dist2 (flat p) [1; - (2); 0; 3] <= dist2 [1; 1; 1; 1] [1; - (2); 0; 3].
Proof.
  destruct (positive_prox_projection (Arr2 (Mat 2 [[1; - (2)]; [0; 3]])) 1)
    as (p & Hp & _ & _ & _ & Hclosest).
  exists p. split; [exact Hp|].
  apply (Hclosest [1; 1; 1; 1]).
  - reflexivity.
  - repeat constructor; discriminate.
Defined.

Lemma l2ball_prox_divides_witness :
  exists F p,
    L2Ball sample_norm 1 = Ok F
    /\ _prox F (Arr1 [3; - (4)]) 1 = Ok p
    /\ Forall2 Qeq (flat p) [3 / (5 / 1); - (4) / (5 / 1)].
Proof.
  destruct (l2ball_prox_divides sample_norm 1 1 (Arr1 [3; - (4)])) as [H _].
  destruct (H ltac:(reflexivity)) as (F & HF & p & Hp & _ & _ & _ & Hout).
  exists F, p. split; [exact HF|]. split; [exact Hp|].
  apply Hout. vm_compute. discriminate.
Defined.

End ConvexProx.

(** ** The linear equality constraint *)

Module LinearEqualityFacts.

Import LinearEquality.

Lemma dot_cons (a c : Q) (u v : list Q) :
  dot (a :: u) (c :: v) = a * c + dot u v.
Proof. reflexivity. Qed.

Lemma dot_zero (r z : list Q) :
  Forall (fun t => t == 0) z -> dot r z == 0.
Proof.
  intros Hz. revert r; induction Hz as [|c z Hc _ IH]; intros [|a r];
    try (unfold dot; simpl; lra).
  rewrite dot_cons, IH, Hc. ring.
Qed.

Lemma sub_zero (v u : list Q) :
  length u = length v -> Forall (fun t => t == 0) u ->
  Forall2 Qeq (map (fun p => fst p - snd p) (combine v u)) v.
Proof.
  revert u; induction v as [|c v IH]; intros [|d u] Hlen Hu; try discriminate.
  - constructor.
  - inversion Hu; subst. cbn [combine map fst snd]. constructor.
    + lra.
    + apply IH; [simpl in Hlen; lia | assumption].
Qed.

Lemma sub_eq_zero (v w : list Q) :
  Forall2 Qeq v w ->
  Forall (fun t => t == 0) (map (fun p => fst p - snd p) (combine v w)).
Proof.
  induction 1 as [|c d v w Hcd _ IH]; cbn [combine map fst snd]; constructor.
  - lra.
  - exact IH.
Qed.

Section Cache.

Variable pinv : matrix Q -> matrix Q.

(** X22.  The pseudo-inverse is computed on the first call of [_prox] that gets
    as far as using it and kept from then on; what [_prox] returns does
    not depend on whether it was already there, and [A] and [b] are never
    changed. *)
Theorem linear_equality_cache (self : t) (x : ndarray Q) (step : Q) :
  _pinvA self = None \/ _pinvA self = Some (pinv (A self)) ->
  let r := fst (_prox pinv self x step) in
  let self' := snd (_prox pinv self x step) in
  A self' = A self
  /\ b self' = b self
  /\ (_pinvA self' = None \/ _pinvA self' = Some (pinv (A self')))
  /\ r = fst (_prox pinv (__init__ (A self) (b self)) x step)
  /\ (_pinvA self <> None -> self' = self)
  /\ ((exists sol, r = Ok sol) -> _pinvA self' = Some (pinv (A self))).
Proof.
  intros Hc. cbv zeta. unfold _prox, pinvA, __init__. cbn [A b _pinvA].
  destruct (Ax <- np_matmul (A self) x ;; np_sub Ax (b self)) as [residue|e].
  - destruct Hc as [Hc | Hc]; rewrite Hc; cbn [fst snd A b _pinvA].
    + repeat split; auto; congruence.
    + repeat split; auto.
  - cbn [fst snd]. repeat split; auto. intros [sol H]. discriminate H.
Qed.

(** X23.  For a vector [x] and a vector [b], with a pseudo-inverse of the
    transposed shape of [A]: [_prox] returns a vector as long as [x], the
    vector [x - pinvA @ (A @ x - b)]; and a point that satisfies
    [A @ x = b] already is returned as it is. *)
Theorem linear_equality_prox_feasible (Am : matrix Q) (bv v : list Q)
    (cache : option (matrix Q)) (step : Q) :
  cache = None \/ cache = Some (pinv Am) ->
  length v = mcols Am -> length bv = shape0 Am ->
  mcols (pinv Am) = shape0 Am -> shape0 (pinv Am) = mcols Am ->
  exists sol,
    fst (_prox pinv {| A := Am; b := Arr1 bv; _pinvA := cache |} (Arr1 v) step)
    = Ok (Arr1 sol)
    /\ length sol = length v
    /\ (exists Av residue u,
          np_matmul Am (Arr1 v) = Ok (Arr1 Av)
          /\ np_sub (Arr1 Av) (Arr1 bv) = Ok (Arr1 residue)
          /\ np_matmul (pinv Am) (Arr1 residue) = Ok (Arr1 u)
          /\ np_sub (Arr1 v) (Arr1 u) = Ok (Arr1 sol))
    /\ ((exists w, np_matmul Am (Arr1 v) = Ok (Arr1 w) /\ Forall2 Qeq w bv) ->
        Forall2 Qeq sol v).
Proof.
  intros Hc Hv Hb Hpc Hpr.
  set (Av := map (fun r => dot r v) (mrows Am)).
  set (res := map (fun p => fst p - snd p) (combine Av bv)).
  set (u := map (fun r => dot r res) (mrows (pinv Am))).
  set (sol := map (fun p => fst p - snd p) (combine v u)).
  assert (HAv : length Av = length bv).
  { unfold Av. rewrite length_map. now rewrite Hb. }
  assert (Hres : length res = shape0 Am).
  { unfold res. rewrite length_map, length_combine, HAv, Hb. lia. }
  assert (Hu : length u = length v).
  { unfold u. rewrite length_map. fold (shape0 (pinv Am)). lia. }
  assert (Hsol : length sol = length v).
  { unfold sol. rewrite length_map, length_combine, Hu. lia. }
  assert (HmA : np_matmul Am (Arr1 v) = Ok (Arr1 Av)).
  { cbn [np_matmul]. now rewrite Hv, Nat.eqb_refl. }
  assert (Hs1 : np_sub (Arr1 Av) (Arr1 bv) = Ok (Arr1 res)).
  { unfold np_sub. now rewrite (np_broadcast_arr1 _ _ _ Av bv HAv). }
  assert (HmP : np_matmul (pinv Am) (Arr1 res) = Ok (Arr1 u)).
  { cbn [np_matmul]. now rewrite Hpc, Hres, Nat.eqb_refl. }
  assert (Hs2 : np_sub (Arr1 v) (Arr1 u) = Ok (Arr1 sol)).
  { unfold np_sub. now rewrite (np_broadcast_arr1 _ _ _ v u (eq_sym Hu)). }
  assert (Hprox :
    fst (_prox pinv {| A := Am; b := Arr1 bv; _pinvA := cache |} (Arr1 v) step)
    = Ok (Arr1 sol)).
  { unfold _prox, pinvA. cbn [A b _pinvA]. rewrite HmA. cbn [bind]. rewrite Hs1.
    destruct Hc as [-> | ->]; cbn [fst snd]; rewrite HmP; cbn [bind];
      exact Hs2. }
  exists sol. split; [exact Hprox|]. split; [exact Hsol|]. split.
  - exists Av, res, u. auto.
  - intros (w & Hw & Hfeas). rewrite HmA in Hw. injection Hw as <-.
    apply sub_zero; [exact Hu|].
    unfold u. apply Forall_forall. intros t Ht. apply in_map_iff in Ht.
    destruct Ht as (r & <- & _). apply dot_zero. now apply sub_eq_zero.
Qed.

End Cache.

(** *** Worked inputs *)

Lemma linear_equality_cache_witness :
  _pinvA (snd (_prox (fun M => M) (__init__ (Mat 1 [[1]]) (Arr1 [3])) (Arr1 [5]) 1))
  = Some (Mat 1 [[1]]).
Proof.
  destruct (linear_equality_cache (fun M => M) (__init__ (Mat 1 [[1]]) (Arr1 [3]))
              (Arr1 [5]) 1) as (_ & _ & _ & _ & _ & H).
  - left. reflexivity.
  - apply H. eexists. reflexivity.
Defined.

Lemma linear_equality_prox_feasible_witness :
  exists sol,
    fst (_prox (fun M => M) (__init__ (Mat 1 [[1]]) (Arr1 [3])) (Arr1 [3]) 1)
    = Ok (Arr1 sol)
    /\ Forall2 Qeq sol [3].
Proof.
  destruct (linear_equality_prox_feasible (fun M => M) (Mat 1 [[1]]) [3] [3] None 1)
    as (sol & Hsol & _ & _ & Hfeas).
  - left. reflexivity.
  - reflexivity.
  - reflexivity.
  - reflexivity.
  - reflexivity.
  - exists sol. split; [exact Hsol|]. apply Hfeas.
    eexists. split; [reflexivity|].
    constructor; [|constructor]. unfold dot. simpl. ring.
Defined.

End LinearEqualityFacts.

(** ** Setting up and running the cvxpy problem *)

Module CvxpyRuns.

Import Cvxpy CvxpyFacts.

Section Backend.

Context {ext : Externals}.

Lemma flavor_test (k : option string) :
  negb (match k with
        | Some k => (String.eqb k "non_convex" || String.eqb k "mixed")%bool
        | None => false
        end) = true
  <-> k <> Some "non_convex"%string /\ k <> Some "mixed"%string.
Proof.
  destruct k as [k|]; simpl.
  - rewrite negb_true_iff, orb_false_iff, !String.eqb_neq.
    split; intros [H1 H2]; split; congruence.
  - split; [intros _; split; discriminate | reflexivity].
Qed.

(** The variables [setup] creates before it builds the problem. *)
Lemma setup_unfold_installed X y loss penalty constraint fit_intercept
    sample_weight :
  get_flavor_kind penalty <> Some "non_convex"%string ->
  get_flavor_kind penalty <> Some "mixed"%string ->
  setup true X y loss penalty constraint fit_intercept sample_weight
  = let coef := {| var_shape := fst (get_shapes_from X y); var_value := None |} in
    let intercept :=
      if fit_intercept
      then Some {| var_shape := snd (get_shapes_from X y); var_value := None |}
      else None in
    (loss_func <- get_loss coef intercept X y loss sample_weight ;;
     pen <- get_penalty coef penalty ;;
     constraints <- get_constraints coef constraint ;;
     Ok {| is_mr_ := is_multi_response y;
           coef_ := coef;
           intercept_ := intercept;
           problem_objective := cp_add loss_func (fst (fst pen));
           problem_constraints := constraints;
           pen_val_ := snd (fst pen);
           weights_ := snd pen;
           penalty_config_ := match penalty with Some p => p | None => NoPenalty end;
           solve_runs := 0 |}).
Proof.
  intros H1 H2. unfold setup, is_applicable, _is_applicable. cbn [fst bind].
  destruct (flavor_test (get_flavor_kind penalty)) as [_ Hf].
  rewrite (Hf (conj H1 H2)). cbn [negb bind].
  destruct (get_shapes_from X y) as [coef_shape intercept_shape]. cbn [fst snd].
  destruct (get_loss _ _ X y loss sample_weight) as [l|e]; [|reflexivity].
  cbn [bind].
  destruct (get_penalty _ penalty) as [[[pf pv] w]|e]; reflexivity.
Qed.

Lemma setup_ok_applicable X y loss penalty constraint fit_intercept
    sample_weight installed s :
  setup installed X y loss penalty constraint fit_intercept sample_weight = Ok s ->
  installed = true
  /\ get_flavor_kind penalty <> Some "non_convex"%string
  /\ get_flavor_kind penalty <> Some "mixed"%string.
Proof.
  intros H. destruct installed; [|discriminate H].
  split; [reflexivity|]. apply flavor_test.
  unfold setup, is_applicable, _is_applicable in H. cbn [fst bind] in H.
  match goal with |- ?b = true => destruct b end;
    [reflexivity | cbn in H; discriminate H].
Qed.

(** X24.  When [setup] returns, cvxpy is installed, the penalty's flavor kind
    is neither ['non_convex'] nor ['mixed'], and the loss, the penalty and
    the constraints were each built from the configurations for the fresh
    coefficient (and intercept) variable; the state holds these variables,
    without a value, the sum of the loss and the penalty as the objective,
    the constraints and the penalty parameters, and an intercept variable
    exactly when [fit_intercept] is set. *)
Theorem setup_returned (X : matrix Q) (y : ndarray Q) (loss : loss_config)
    (penalty : option penalty_config) (constraint : option constraint_config)
    (fit_intercept : bool) (sample_weight : option (list Q)) (installed : bool)
    (s : problem_state) :
  setup installed X y loss penalty constraint fit_intercept sample_weight = Ok s ->
  let coef := {| var_shape := fst (get_shapes_from X y); var_value := None |} in
  let intercept :=
    if fit_intercept
    then Some {| var_shape := snd (get_shapes_from X y); var_value := None |}
    else None in
  installed = true
  /\ get_flavor_kind penalty <> Some "non_convex"%string
  /\ get_flavor_kind penalty <> Some "mixed"%string
  /\ (exists l pf pv w c,
        get_loss coef intercept X y loss sample_weight = Ok l
        /\ get_penalty coef penalty = Ok (pf, pv, w)
        /\ get_constraints coef constraint = Ok c
        /\ problem_objective s = cp_add l pf
        /\ problem_constraints s = c
        /\ pen_val_ s = pv
        /\ weights_ s = w)
  /\ coef_ s = coef
  /\ intercept_ s = intercept
  /\ (intercept_ s = None <-> fit_intercept = false)
  /\ is_mr_ s = is_multi_response y
  /\ solve_runs s = 0%nat.
Proof.
  intros Hs coef intercept.
  destruct (setup_ok_applicable _ _ _ _ _ _ _ _ _ Hs) as (-> & H1 & H2).
  rewrite (setup_unfold_installed _ _ _ _ _ _ _ H1 H2) in Hs.
  cbv zeta in Hs. fold coef intercept in Hs.
  apply bind_ok_inv in Hs as (l & Hl & Hs).
  apply bind_ok_inv in Hs as ([[pf pv] w] & Hp & Hs).
  apply bind_ok_inv in Hs as (c & Hc & Hs).
  injection Hs as <-. cbn.
  split; [reflexivity|]. split; [exact H1|]. split; [exact H2|].
  split; [exists l, pf, pv, w, c; auto 10|].
  split; [reflexivity|]. split; [reflexivity|].
  split; [|split; reflexivity].
  unfold intercept. destruct fit_intercept; split; congruence.
Qed.

(** X25.  Whatever it returns or raises, [solve] changes nothing of the problem
    but the values of the two variables: the objective, the constraints,
    the penalty parameters and the stored penalty configuration are kept,
    an absent intercept stays absent, and the underlying problem is run at
    most once, and exactly once when [solve] returns. *)
Theorem solve_frame (cfg : config) (s : problem_state) (runtime : Q)
    (coef_init intercept_init : option (ndarray Q)) :
  let r := fst (solve cfg s runtime coef_init intercept_init) in
  let s' := snd (solve cfg s runtime coef_init intercept_init) in
  is_mr_ s' = is_mr_ s
  /\ problem_objective s' = problem_objective s
  /\ problem_constraints s' = problem_constraints s
  /\ pen_val_ s' = pen_val_ s
  /\ weights_ s' = weights_ s
  /\ penalty_config_ s' = penalty_config_ s
  /\ (intercept_ s' = None <-> intercept_ s = None)
  /\ (solve_runs s' = solve_runs s \/ solve_runs s' = S (solve_runs s))
  /\ ((exists sol, r = Ok sol) -> solve_runs s' = S (solve_runs s)).
Proof.
  cbv zeta. unfold solve.
  destruct (cp_set_value (coef_ s) coef_init) as [c|e]; cbn [fst snd].
  2:{ repeat split; auto; try (intros [sol H]; discriminate H). }
  cbn [set_coef intercept_].
  destruct (intercept_ s) as [iv|] eqn:Ei; cbn [fst snd].
  2:{ cbn. rewrite Ei. repeat split; auto; try (intros [sol H]; discriminate H). }
  destruct (cp_set_value iv intercept_init) as [i|e]; cbn [fst snd].
  2:{ cbn. rewrite Ei. repeat split; auto; try discriminate;
        try (intros [sol H]; discriminate H). }
  cbn [set_intercept count_run problem_objective problem_constraints].
  destruct (cp_solve _ _ c i) as [[[[cv iv'] status] stats]|e]; cbn.
  - repeat split; auto; discriminate.
  - repeat split; auto; try discriminate;
      try (intros [sol H]; discriminate H).
Qed.

(** X26.  When [solve] returns, the solution reports what the variables hold
    afterwards: the coefficient is [clip_zero] of the coefficient
    variable's value at the configured [zero_tol], the intercept is the
    intercept variable's value and is always present, and the runtime is
    the measured one. *)
Theorem solve_reports_variables (cfg : config) (s : problem_state) (runtime : Q)
    (coef_init intercept_init : option (ndarray Q)) (sol : solution) :
  fst (solve cfg s runtime coef_init intercept_init) = Ok sol ->
  let s' := snd (solve cfg s runtime coef_init intercept_init) in
  exists cv iv ivar,
    var_value (coef_ s') = Some cv
    /\ soln_coef sol = clip_zero cv (zero_tol cfg)
    /\ intercept_ s' = Some ivar
    /\ var_value ivar = Some iv
    /\ soln_intercept sol = Some iv
    /\ info_runtime sol = runtime.
Proof.
  cbv zeta. unfold solve.
  destruct (cp_set_value (coef_ s) coef_init) as [c|e]; cbn [fst snd];
    [|discriminate].
  cbn [set_coef intercept_].
  destruct (intercept_ s) as [iv|] eqn:Ei; cbn [fst snd]; [|discriminate].
  destruct (cp_set_value iv intercept_init) as [i|e]; cbn [fst snd];
    [|discriminate].
  cbn [set_intercept count_run problem_objective problem_constraints].
  destruct (cp_solve _ _ c i) as [[[[cv iv'] status] stats]|e]; cbn [fst snd];
    [|discriminate].
  intros H. injection H as <-. cbn.
  exists cv, iv'. eexists. repeat split.
Qed.

End Backend.

(** *** Worked inputs *)

Lemma setup_returned_witness :
  exists s,
    setup (ext := sample_cvxpy_externals) true (Mat 1 [[1]]) (Arr1 [1])
      "lin_reg"%string None None true None = Ok s
    /\ intercept_ s <> None
    /\ solve_runs s = 0%nat.
Proof.
  eexists. split; [reflexivity|].
  destruct (setup_returned (ext := sample_cvxpy_externals) (Mat 1 [[1]])
              (Arr1 [1]) "lin_reg"%string None None true None true _ eq_refl)
    as (_ & _ & _ & _ & _ & _ & [Hi _] & _ & Hr).
  split; [|exact Hr]. intros E. specialize (Hi E). discriminate Hi.
Defined.

Lemma solve_frame_witness :
  problem_constraints (snd (solve sample_config sample_state_intercept 0 None None))
  = problem_constraints sample_state_intercept
  /\ solve_runs (snd (solve sample_config sample_state_intercept 0 None None))
     = 1%nat.
Proof.
  destruct (solve_frame sample_config sample_state_intercept 0 None None)
    as (_ & _ & Hc & _ & _ & _ & _ & _ & Hruns).
  split; [exact Hc|]. apply Hruns. eexists. reflexivity.
Defined.

Lemma solve_reports_variables_witness :
  exists sol,
    fst (solve sample_config sample_state_intercept (1 # 2) None None) = Ok sol
    /\ soln_intercept sol = Some (Arr1 [0])
    /\ info_runtime sol = 1 # 2.
Proof.
  eexists. split; [reflexivity|].
  destruct (solve_reports_variables sample_config sample_state_intercept (1 # 2)
              None None _ eq_refl) as (cv & iv & ivar & _ & _ & _ & _ & _ & Hr).
  split; [reflexivity | exact Hr].
Defined.

End CvxpyRuns.

(** ** The merged [__init__] signature *)

Module AddInitParamsFacts.

Import AddInitParams.

Section Merge.

Context {value : Type}.

Abbreviation param := (param value).

(** A class whose [__init__] is not the empty one [(self, *args, **kwargs)]. *)
Abbreviation contributes C := (set_eqb (map name C) empty_init_params = false).

Lemma existsb_eqb_In (n : string) (l : list string) :
  existsb (String.eqb n) l = true <-> In n l.
Proof.
  rewrite existsb_exists. split.
  - intros (x & Hx & E). apply String.eqb_eq in E. now subst.
  - intros H. exists n. split; [exact H | apply String.eqb_refl].
Qed.

Lemma not_existsb_eqb_In (n : string) (l : list string) :
  negb (existsb (String.eqb n) l) = true <-> ~ In n l.
Proof.
  rewrite negb_true_iff, <- existsb_eqb_In. destruct (existsb _ _); split;
    congruence.
Qed.

(** What the loop adds does not depend on the parameters collected so
    far, only on the names. *)
Lemma fold_add_class_params (cs : list (list param)) (ns : list string)
    (ps : list param) :
  fold_left add_class cs (ns, ps)
  = (fst (fold_left add_class cs (ns, [])),
     ps ++ snd (fold_left add_class cs (ns, []))).
Proof.
  revert ns ps; induction cs as [|C cs IH]; intros ns ps.
  - simpl. now rewrite app_nil_r.
  - cbn [fold_left]. unfold add_class at 2 4 6.
    destruct (set_eqb (map name C) empty_init_params).
    + apply IH.
    + rewrite IH. cbn [app fst snd].
      rewrite (IH _ (filter _ _)). cbn [fst snd]. now rewrite app_assoc.
Qed.

(** The parameters the loop adds to a set of names [ns]. *)
Lemma added_spec (cs : list (list param)) (ns : list string) (p : param) :
  In p (snd (fold_left add_class cs (ns, [])))
  -> ~ In (name p) ns
     /\ exists C, In C cs /\ contributes C /\ In p (tl C).
Proof.
  revert ns; induction cs as [|C cs IH]; intros ns; [intros []|].
  cbn [fold_left]. unfold add_class at 2.
  destruct (set_eqb (map name C) empty_init_params) eqn:E.
  - intros H. destruct (IH _ H) as (Hn & C' & HC' & HE & Hp).
    split; [exact Hn|]. exists C'. repeat split; auto. now right.
  - rewrite fold_add_class_params. cbn [snd app]. rewrite in_app_iff.
    intros [H | H].
    + apply filter_In in H. destruct H as [Hp Hn].
      apply not_existsb_eqb_In in Hn. split; [exact Hn|].
      exists C. repeat split; auto. now left.
    + destruct (IH _ H) as (Hn & C' & HC' & HE & Hp). split.
      * intros Hin. apply Hn. apply in_app_iff. now left.
      * exists C'. repeat split; auto. now right.
Qed.

Lemma added_names_complete (cs : list (list param)) (ns : list string)
    (C : list param) (n : string) :
  In C cs -> contributes C -> In n (map name (tl C)) -> ~ In n ns ->
  In n (map name (snd (fold_left add_class cs (ns, [])))).
Proof.
  revert ns; induction cs as [|C0 cs IH]; intros ns HC HE Hn Hns; [destruct HC|].
  cbn [fold_left]. unfold add_class at 2.
  destruct (set_eqb (map name C0) empty_init_params) eqn:E.
  - destruct HC as [-> | HC]; [congruence|]. now apply IH.
  - rewrite fold_add_class_params. cbn [snd app]. rewrite map_app, in_app_iff.
    set (new := filter _ (tl C0)).
    destruct (in_dec string_dec n (map name new)) as [Hin | Hnin]; [now left|].
    right. destruct HC as [-> | HC].
    + exfalso. apply Hnin. apply in_map_iff in Hn. destruct Hn as (p & <- & Hp).
      apply in_map. apply filter_In. split; [exact Hp|].
      now apply not_existsb_eqb_In.
    + apply IH; auto. rewrite in_app_iff. tauto.
Qed.

Lemma NoDup_map_filter {A B : Type} (f : A -> B) (g : A -> bool) (l : list A) :
  NoDup (map f l) -> NoDup (map f (filter g l)).
Proof.
  induction l as [|x l IH]; simpl; [auto|]. intros H. inversion H; subst.
  destruct (g x); [|auto]. simpl. constructor; [|auto].
  intros Hin. apply H2. apply in_map_iff in Hin. destruct Hin as (y & E & Hy).
  apply filter_In in Hy. rewrite <- E. apply in_map. tauto.
Qed.

Lemma NoDup_tl {A : Type} (l : list A) : NoDup l -> NoDup (tl l).
Proof. destruct l; simpl; [auto|]. intros H. now inversion H. Qed.

Lemma map_tl {A B : Type} (f : A -> B) (l : list A) : map f (tl l) = tl (map f l).
Proof. now destruct l. Qed.

Lemma added_names_NoDup (cs : list (list param)) (ns : list string) :
  Forall (fun C => NoDup (map name C)) cs ->
  NoDup (map name (snd (fold_left add_class cs (ns, [])))).
Proof.
  intros H. revert ns; induction H as [|C cs HC _ IH]; intros ns; [constructor|].
  cbn [fold_left]. unfold add_class at 2.
  destruct (set_eqb (map name C) empty_init_params) eqn:E; [apply IH|].
  rewrite fold_add_class_params. cbn [snd app]. rewrite map_app.
  apply NoDup_app.
  - apply NoDup_map_filter. rewrite map_tl. now apply NoDup_tl.
  - apply IH.
  - intros n Hn Hn'. apply in_map_iff in Hn' as (p & <- & Hp).
    apply added_spec in Hp. destruct Hp as [Hp _]. apply Hp.
    apply in_app_iff. now right.
Qed.

(** The two orders: the parameters of [init] first or last, around the
    same parameters taken from the classes. *)
Lemma add_init_params_shape (classes : list (list param)) (init : list param)
    (add_first : bool) :
  add_init_params classes add_first init
  = {| name := "self"; kind := POSITIONAL_OR_KEYWORD; default := None |}
    :: (if add_first
        then tl init ++ snd (fold_left add_class classes (map name (tl init), []))
        else snd (fold_left add_class classes (map name (tl init), [])) ++ tl init).
Proof.
  unfold add_init_params. destruct add_first; [|reflexivity].
  now rewrite fold_add_class_params.
Qed.

(** X27.  The result starts with a fresh [self] parameter, followed by
    parameters of pairwise different names; so it has no two parameters
    of one name as soon as no parameter after the first is called [self].
    The option [add_first] only moves the parameters of [init] from the
    front to the back. *)
Theorem add_init_params_no_duplicates (classes : list (list param))
    (init : list param) (add_first : bool) :
  NoDup (map name init) ->
  Forall (fun C => NoDup (map name C)) classes ->
  exists params,
    add_init_params classes add_first init
    = {| name := "self"; kind := POSITIONAL_OR_KEYWORD; default := None |}
      :: params
    /\ NoDup (map name params)
    /\ (~ In "self"%string (map name (tl init)) ->
        Forall (fun C => ~ In "self"%string (map name (tl C))) classes ->
        NoDup (map name (add_init_params classes add_first init)))
    /\ Permutation (add_init_params classes true init)
                   (add_init_params classes false init).
Proof.
  intros Hi Hc.
  set (extra := snd (fold_left add_class classes (map name (tl init), []))).
  assert (He : NoDup (map name extra)) by now apply added_names_NoDup.
  assert (Ht : NoDup (map name (tl init))) by (rewrite map_tl; now apply NoDup_tl).
  assert (Hd : forall n, In n (map name (tl init)) -> In n (map name extra) -> False).
  { intros n Hn Hn'. apply in_map_iff in Hn' as (p & <- & Hp).
    apply added_spec in Hp. tauto. }
  assert (Hnd : NoDup (map name (if add_first then tl init ++ extra
                                 else extra ++ tl init))).
  { destruct add_first; rewrite map_app; apply NoDup_app; auto.
    intros n H1 H2. eauto. }
  eexists. split; [apply add_init_params_shape|]. fold extra.
  split; [exact Hnd|]. split.
  - intros Hs Hcs. rewrite add_init_params_shape. fold extra.
    cbn [map name]. constructor; [|exact Hnd].
    intros Hin.
    assert (Hin' : In "self"%string (map name (tl init))
                   \/ In "self"%string (map name extra)).
    { destruct add_first; rewrite map_app, in_app_iff in Hin; tauto. }
    destruct Hin' as [H | H]; [auto|].
    apply in_map_iff in H as (p & E & Hp). apply added_spec in Hp.
    destruct Hp as (_ & C & HC & _ & Hp). rewrite Forall_forall in Hcs.
    apply (Hcs C HC). rewrite <- E. now apply in_map.
  - rewrite !add_init_params_shape. fold extra. constructor.
    apply Permutation_app_comm.
Qed.

(** X28.  Which parameters the result has after [self]: every parameter of
    [init] but its first, and, of the classes whose [__init__] is not the
    empty one, every parameter but the first whose name [init] does not
    use.  A name that [init] uses keeps the parameter of [init], and a
    class with the empty [__init__] gives nothing. *)
Theorem add_init_params_members (classes : list (list param))
    (init : list param) (add_first : bool) :
  (forall p, In p (tl init) ->
             In p (tl (add_init_params classes add_first init)))
  /\ (forall p, In p (tl (add_init_params classes add_first init)) ->
        In p (tl init)
        \/ (~ In (name p) (map name (tl init))
            /\ exists C, In C classes /\ contributes C /\ In p (tl C)))
  /\ (forall C n, In C classes -> contributes C -> In n (map name (tl C)) ->
        In n (map name (tl (add_init_params classes add_first init)))).
Proof.
  rewrite add_init_params_shape. cbn [tl].
  set (extra := snd (fold_left add_class classes (map name (tl init), []))).
  assert (Hin : forall p, In p (if add_first then tl init ++ extra
                                else extra ++ tl init)
                          <-> In p (tl init) \/ In p extra).
  { intros p. destruct add_first; rewrite in_app_iff; tauto. }
  split; [|split].
  - intros p Hp. apply Hin. now left.
  - intros p Hp. apply Hin in Hp. destruct Hp as [Hp | Hp]; [now left|].
    right. now apply added_spec in Hp.
  - intros C n HC HE Hn.
    destruct (in_dec string_dec n (map name (tl init))) as [Hi | Hi].
    + apply in_map_iff in Hi as (p & <- & Hp). apply in_map, Hin. now left.
    + pose proof (added_names_complete classes _ C n HC HE Hn Hi) as H.
      apply in_map_iff in H as (p & <- & Hp). apply in_map, Hin. now right.
Qed.

End Merge.

(** *** Worked inputs *)

Lemma add_init_params_no_duplicates_witness :
  NoDup (map name
           (add_init_params
              [[{| name := "self"; kind := POSITIONAL_OR_KEYWORD; default := None |};
                {| name := "alpha"; kind := POSITIONAL_OR_KEYWORD; default := Some 1%nat |};
                {| name := "tol"; kind := POSITIONAL_OR_KEYWORD; default := Some 2%nat |}];
               [{| name := "self"; kind := POSITIONAL_OR_KEYWORD; default := None |};
                {| name := "args"; kind := VAR_POSITIONAL; default := None |};
                {| name := "kwargs"; kind := VAR_KEYWORD; default := None |}]]
              true
              [{| name := "self"; kind := POSITIONAL_OR_KEYWORD; default := None |};
               {| name := "alpha"; kind := POSITIONAL_OR_KEYWORD; default := Some 0%nat |}])).
Proof.
  match goal with
  | |- NoDup (map name (add_init_params ?cs ?af ?init)) =>
      destruct (add_init_params_no_duplicates cs init af)
        as (params & _ & _ & H & _)
  end.
  - repeat constructor; simpl; intuition discriminate.
  - repeat constructor; simpl; intuition discriminate.
  - apply H.
    + simpl. intuition discriminate.
    + repeat constructor; simpl; intuition discriminate.
Defined.

Lemma add_init_params_members_witness :
  In "tol"%string
     (map name
        (tl (add_init_params
               [[{| name := "self"; kind := POSITIONAL_OR_KEYWORD; default := None |};
                 {| name := "alpha"; kind := POSITIONAL_OR_KEYWORD; default := Some 1%nat |};
                 {| name := "tol"; kind := POSITIONAL_OR_KEYWORD; default := Some 2%nat |}]]
               false
               [{| name := "self"; kind := POSITIONAL_OR_KEYWORD; default := None |};
                {| name := "alpha"; kind := POSITIONAL_OR_KEYWORD; default := Some 0%nat |}]))).
Proof.
  match goal with
  | |- In _ (map name (tl (add_init_params ?cs ?af ?init))) =>
      destruct (add_init_params_members cs init af) as (_ & _ & H)
  end.
  eapply H.
  - left. reflexivity.
  - reflexivity.
  - simpl. tauto.
Defined.

End AddInitParamsFacts.

(** ** Prediction and scoring by loss *)

Module LossMixinFacts.

Import LossMixin.

Lemma argmax_from_spec (l : list Q) (best i : nat) (bv : Q) (d : Q) (pre : list Q) :
  (best < i)%nat -> i = length pre ->
  nth best pre d == bv ->
  (forall k, (k < i)%nat -> nth k pre d <= bv) ->
  (forall k, (k < best)%nat -> nth k pre d < bv) ->
  let j := argmax_from best bv i l in
  (j < length (pre ++ l))%nat
  /\ (forall k, (k < length (pre ++ l))%nat -> nth k (pre ++ l) d <= nth j (pre ++ l) d)
  /\ (forall k, (k < j)%nat -> nth k (pre ++ l) d < nth j (pre ++ l) d).
Proof.
  revert best i bv pre. induction l as [|x l IH]; intros best i bv pre Hb Hi Hbv Hle Hlt.
  - cbn [argmax_from]. rewrite app_nil_r. subst i. split; [exact Hb|].
    split.
    + intros k Hk. rewrite Hbv. now apply Hle.
    + intros k Hk. rewrite Hbv. now apply Hlt.
  - cbn [argmax_from].
    assert (Happ : pre ++ x :: l = (pre ++ [x]) ++ l) by now rewrite <- app_assoc.
    rewrite Happ.
    assert (Hlen : S i = length (pre ++ [x])) by (rewrite length_app; simpl; lia).
    assert (Hold : forall k, (k < i)%nat -> nth k (pre ++ [x]) d = nth k pre d).
    { intros k Hk. apply app_nth1. lia. }
    assert (Hnew : nth i (pre ++ [x]) d = x).
    { rewrite app_nth2 by lia. subst i. now rewrite Nat.sub_diag. }
    destruct (Qltb bv x) eqn:E.
    + apply Qltb_lt in E. apply IH; auto.
      * now rewrite Hnew.
      * intros k Hk. destruct (Nat.eq_dec k i) as [-> | Hne].
        -- rewrite Hnew. lra.
        -- rewrite Hold by lia. specialize (Hle k ltac:(lia)). lra.
      * intros k Hk. rewrite Hold by lia. specialize (Hle k Hk). lra.
    + apply Qltb_ge in E. apply IH; auto.
      * rewrite Hold by lia. exact Hbv.
      * intros k Hk. destruct (Nat.eq_dec k i) as [-> | Hne].
        -- rewrite Hnew. exact E.
        -- rewrite Hold by lia. apply Hle. lia.
      * intros k Hk. rewrite Hold by lia. now apply Hlt.
Qed.

(** The index of the first largest entry of a non-empty row. *)
Lemma argmax_row_spec (x : Q) (t : list Q) (d : Q) :
  let j := argmax_from 0 x 1 t in
  (j < length (x :: t))%nat
  /\ (forall k, (k < length (x :: t))%nat -> nth k (x :: t) d <= nth j (x :: t) d)
  /\ (forall k, (k < j)%nat -> nth k (x :: t) d < nth j (x :: t) d).
Proof.
  apply (argmax_from_spec t 0 1 x d [x]); auto.
  - reflexivity.
  - intros k Hk. assert (k = 0%nat) as -> by lia. apply Qle_refl.
  - intros k Hk. lia.
Qed.

Section Predict.

Context {ext : Externals}.

Lemma name_in_classifier :
  name_in ["log_reg"; "multinomial"]%string = true ->
  name_in ["lin_reg"; "huber"; "quantile"]%string = false
  /\ String.eqb loss_name "poisson" = false
  /\ name_in ["lin_reg"; "huber"; "quantile"; "poisson"]%string = false.
Proof.
  unfold name_in. cbn [existsb]. rewrite !orb_false_r.
  intros H. apply orb_true_iff in H.
  destruct H as [H | H]; apply String.eqb_eq in H; rewrite H; repeat split.
Qed.

Lemma take_classes_spec (indices : list nat) :
  Forall (fun i => (i < length classes_)%nat) indices ->
  exists l, take_classes indices = Ok l
            /\ Forall2 (fun i c => nth_error classes_ i = Some c) indices l.
Proof.
  unfold take_classes. induction 1 as [|i indices Hi _ (l & Hl & IH)].
  - exists []. split; [reflexivity | constructor].
  - cbn [mapM]. destruct (nth_error classes_ i) as [c|] eqn:E.
    + rewrite Hl. exists (c :: l). split; [reflexivity|]. now constructor.
    + apply nth_error_None in E. lia.
Qed.

Lemma take_classes_out_of_range (indices : list nat) :
  Exists (fun i => (length classes_ <= i)%nat) indices ->
  take_classes indices = Raise IndexError.
Proof.
  unfold take_classes. induction indices as [|i indices IH]; intros H.
  - inversion H.
  - cbn [mapM]. destruct (nth_error classes_ i) as [c|] eqn:E.
    + cbn [bind]. inversion H; subst.
      * apply nth_error_None in H1. congruence.
      * now rewrite IH.
    + reflexivity.
Qed.

(** X29.  [predict] for the two classification losses.  On one-dimensional
    decision values it gives the second class where the value is
    positive and the first class elsewhere, and raises [IndexError]
    when [classes_] has no such entry.  On two-dimensional decision
    values with at least one column and no more columns than classes, it
    gives for every row the class at the first largest entry of the row;
    without columns it raises [ValueError]. *)
Theorem predict_classifier_labels (X : matrix Q) (scores : ndarray Q) :
  name_in ["log_reg"; "multinomial"]%string = true ->
  decision_function X = Ok scores ->
  (forall s c0 c1 rest, scores = Arr1 s -> classes_ = c0 :: c1 :: rest ->
     predict X = Ok (Some (Labels (map (fun v => if Qltb 0 v then c1 else c0) s))))
  /\ (forall s, scores = Arr1 s ->
        (s <> [] /\ classes_ = []) \/
        ((length classes_ <= 1)%nat /\ Exists (fun v => 0 < v) s) ->
        predict X = Raise IndexError)
  /\ (forall M, scores = Arr2 M -> mcols M = 0%nat -> predict X = Raise ValueError)
  /\ (forall M, scores = Arr2 M -> rectangular scores ->
        (0 < mcols M <= length classes_)%nat ->
        exists l,
          predict X = Ok (Some (Labels l))
          /\ Forall2 (fun row c =>
                        exists j, (j < length row)%nat
                          /\ nth_error classes_ j = Some c
                          /\ (forall k, (k < length row)%nat ->
                                        nth k row 0 <= nth j row 0)
                          /\ (forall k, (k < j)%nat -> nth k row 0 < nth j row 0))
                     (mrows M) l).
Proof.
  intros Hn Hd. destruct (name_in_classifier Hn) as (H1 & H2 & _).
  unfold predict. rewrite Hd. cbn [bind]. rewrite H1, H2, Hn.
  split; [|split; [|split]].
  - intros s c0 c1 rest -> Hc. cbn [bind].
    assert (Ht : take_classes (map (fun v => if Qltb 0 v then 1%nat else 0%nat) s)
                 = Ok (map (fun v => if Qltb 0 v then c1 else c0) s)).
    { unfold take_classes. rewrite Hc. clear.
      induction s as [|v s IH]; [reflexivity|]. cbn [map mapM].
      destruct (Qltb 0 v); cbn [nth_error bind]; rewrite IH; reflexivity. }
    now rewrite Ht.
  - intros s -> H. cbn [bind]. rewrite take_classes_out_of_range; [reflexivity|].
    destruct H as [[Hs Hc] | [Hc Hs]].
    + destruct s as [|v s]; [congruence|]. apply Exists_cons_hd.
      rewrite Hc. simpl. lia.
    + apply Exists_exists in Hs. destruct Hs as (v & Hv & Hpos).
      apply Exists_exists. exists 1%nat. split; [|exact Hc].
      apply in_map_iff. exists v. split; [|exact Hv].
      destruct (Qltb 0 v) eqn:E; [reflexivity|]. apply Qltb_ge in E. lra.
  - intros M -> Hm. cbn [bind]. unfold argmax_axis1. rewrite Hm. reflexivity.
  - intros M -> Hr [Hm0 Hm]. cbn [bind]. unfold argmax_axis1.
    destruct (mcols M =? 0)%nat eqn:E; [apply Nat.eqb_eq in E; lia|].
    cbn [bind]. cbn [rectangular] in Hr.
    set (idx := map _ (mrows M)).
    assert (Hidx : Forall2 (fun row j =>
                     (j < length row)%nat
                     /\ (forall k, (k < length row)%nat -> nth k row 0 <= nth j row 0)
                     /\ (forall k, (k < j)%nat -> nth k row 0 < nth j row 0))
                   (mrows M) idx).
    { unfold idx. clear idx. induction Hr as [|row rows Hrow _ IH]; [constructor|].
      cbn [map]. constructor; [|exact IH].
      destruct row as [|x t]; [simpl in Hrow; lia|].
      apply argmax_row_spec. }
    assert (Hrange : Forall (fun i => (i < length classes_)%nat) idx).
    { clear -Hidx Hr Hm. induction Hidx as [|row j rows idx (Hj & _) _ IH];
        [constructor|].
      inversion Hr; subst. constructor; [lia | auto]. }
    destruct (take_classes_spec idx Hrange) as (l & Hl & Hcl).
    rewrite Hl. cbn [bind]. exists l. split; [reflexivity|].
    clear -Hidx Hcl. revert l Hcl.
    induction Hidx as [|row j rows idx Hj _ IH]; intros l Hcl;
      inversion Hcl; subst; constructor.
    + exists j. tauto.
    + now apply IH.
Qed.

(** X30.  [score] never calls the Poisson deviance score: the branch that
    would is tested after one that already takes the name ['poisson'],
    so a Poisson model is scored by [r2_score] on the exponential of the
    decision values.  A name that no branch tests gives [None] as soon as
    the decision function returns. *)
Theorem score_never_uses_poisson_dsq
    (r2_score dsq dsq' accuracy_score :
       targets -> option prediction -> option (list Q) -> result Q)
    (X : matrix Q) (y : targets) (sample_weight : option (list Q)) :
  score r2_score dsq accuracy_score X y sample_weight
  = score r2_score dsq' accuracy_score X y sample_weight
  /\ (loss_name = "poisson"%string ->
      score r2_score dsq accuracy_score X y sample_weight
      = (z <- decision_function X ;;
         r <- r2_score y (Some (Values (np_exp z))) sample_weight ;;
         Ok (Some r)))
  /\ (~ In loss_name ["lin_reg"; "huber"; "quantile"; "poisson"; "log_reg";
                      "multinomial"]%string ->
      forall z, decision_function X = Ok z ->
        score r2_score dsq accuracy_score X y sample_weight = Ok None).
Proof.
  split; [|split].
  - unfold score. destruct (predict X) as [p|e]; [|reflexivity]. cbn [bind].
    destruct (name_in ["lin_reg"; "huber"; "quantile"; "poisson"]%string) eqn:E;
      [reflexivity|].
    unfold name_in in E. cbn [existsb] in E. rewrite !orb_false_iff in E.
    destruct E as (_ & _ & _ & E & _). now rewrite E.
  - intros Hn. unfold score, predict, name_in. rewrite Hn. cbn.
    destruct (decision_function X) as [z|e]; reflexivity.
  - intros Hn z Hz.
    assert (Hf : forall s, In s ["lin_reg"; "huber"; "quantile"; "poisson";
                                 "log_reg"; "multinomial"]%string ->
                           String.eqb loss_name s = false).
    { intros s Hs. apply String.eqb_neq. intros E. subst s. now apply Hn. }
    unfold score, predict, name_in. rewrite Hz. cbn [bind existsb].
    rewrite !Hf by (simpl; tauto). reflexivity.
Qed.

End Predict.

(** *** Worked inputs *)

Lemma predict_classifier_labels_witness :
  exists l,
    predict (ext := sample_lossmixin_externals) (Mat 3 [[1; 5; 2]; [7; 7; 0]])
    = Ok (Some (Labels l))
    /\ length l = 2%nat.
Proof.
  destruct (predict_classifier_labels (ext := sample_lossmixin_externals)
              (Mat 3 [[1; 5; 2]; [7; 7; 0]]) (Arr2 (Mat 3 [[1; 5; 2]; [7; 7; 0]]))
              eq_refl eq_refl) as (_ & _ & _ & H).
  destruct (H (Mat 3 [[1; 5; 2]; [7; 7; 0]]) eq_refl) as (l & Hl & Hrows).
  - repeat constructor.
  - simpl. lia.
  - exists l. split; [exact Hl|].
    apply Forall2_length in Hrows. now rewrite <- Hrows.
Defined.

Lemma score_never_uses_poisson_dsq_witness :
  score (ext := sample_lossmixin_externals)
    (fun _ _ _ => Ok 1) (fun _ _ _ => Ok 2) (fun _ _ _ => Ok 3)
    (Mat 3 [[1; 5; 2]]) ["b"%string] None
  = score (ext := sample_lossmixin_externals)
      (fun _ _ _ => Ok 1) (fun _ _ _ => Raise ValueError) (fun _ _ _ => Ok 3)
      (Mat 3 [[1; 5; 2]]) ["b"%string] None.
Proof.
  apply (score_never_uses_poisson_dsq (ext := sample_lossmixin_externals)).
Defined.

End LossMixinFacts.
